(** * update_hashes.py: the reference scanner, the resolver and the rewriter

    A shallow embedding of [update_hashes.py] (XRPLF/actions) and the
    properties of its scan / resolve / rewrite pass.

    Conventions of the model.
    - A Python [str] is a list of Unicode code points ([N]).
    - The disk is a tree of directories and files.  A file holds the code
      points of its decoded content as stored; [read_text] applies the
      universal-newline translation of Python's text mode, [write_text]
      stores the text as it is (the line separator of a POSIX system).
    - [git log] is a function from the queried path to the completed
      process (exit status and standard output); every query is logged.
    - The iteration order of a Python [set] is not specified; it is a
      parameter [set_iter] of the model, some permutation of the elements.
    - [print] is modelled by a log of structured events.
    - [assert] statements are checked (the interpreter runs without [-O]);
      the decoding of the files and the parsing of the command line are
      not modelled.
    - The environment answers: [git] is installed and every query ends
      with an exit status, a file that is read decodes, and a file that was
      read can be written.  What the script does when the environment
      fails in another way is outside of this development. *)

From Stdlib Require Import NArith ZArith Ascii String Lia.
From stdpp Require Import base option list gmap.

Local Open Scope N_scope.

(** ** Text *)

Definition char := N.
Definition str := list char.

Definition ch (a : ascii) : char := N_of_ascii a.
Definition lit (s : string) : str := ch <$> list_ascii_of_string s.
Global Arguments lit : simpl never.

(** [str.isspace] on one code point, which is also the class [\s] of a
    [str] pattern. *)
Definition isspace (c : char) : bool :=
  ((9 <=? c) && (c <=? 13)) || ((28 <=? c) && (c <=? 32))
  || (c =? 133) || (c =? 160) || (c =? 5760)
  || ((8192 <=? c) && (c <=? 8202))
  || (c =? 8232) || (c =? 8233) || (c =? 8239) || (c =? 8287) || (c =? 12288).

(** [str.strip()] *)
Fixpoint lstrip (s : str) : str :=
  match s with
  | c :: s' => if isspace c then lstrip s' else s
  | [] => []
  end.

Definition strip (s : str) : str := reverse (lstrip (reverse (lstrip s))).

(** [s.startswith(p)]; on success the text after the prefix. *)
Fixpoint strip_prefix (p s : str) : option str :=
  match p, s with
  | [], _ => Some s
  | a :: p', b :: s' => if decide (a = b) then strip_prefix p' s' else None
  | _ :: _, [] => None
  end.

Definition startswith (s p : str) : bool := bool_decide (is_Some (strip_prefix p s)).

Definition endswith (s p : str) : bool := startswith (reverse s) (reverse p).

(** [str.replace(old, new)]: every occurrence of [old], left to right,
    not overlapping.  [skip] counts the characters of the occurrence just
    replaced that are still to be passed over. *)
Fixpoint replace_from (old new : str) (skip : nat) (s : str) : str :=
  match s with
  | [] => []
  | c :: s' =>
      match skip with
      | S k => replace_from old new k s'
      | O => if startswith s old
             then new ++ replace_from old new (length old - 1) s'
             else c :: replace_from old new 0 s'
      end
  end.

Definition replace (old new s : str) : str :=
  match old with
  | [] => new ++ flat_map (fun c => c :: new) s
  | _ :: _ => replace_from old new 0 s
  end.

(** ** Regular expressions: the fragment [PATTERN] is written in *)

Inductive set_item :=
| Chr (c : ascii)
| Range (lo hi : ascii)
| Space.

Inductive charset :=
| OneOf (items : list set_item)
| NoneOf (items : list set_item).

Inductive regex :=
| Lit (s : string)
| Class (cs : charset)
| Plus (cs : charset)
| Seq (r1 r2 : regex)
| Alt (r1 r2 : regex)
| Repeat (n : nat) (r : regex)
| Group (i : nat) (r : regex).

Definition item_has (c : char) (i : set_item) : bool :=
  match i with
  | Chr a => c =? ch a
  | Range lo hi => (ch lo <=? c) && (c <=? ch hi)
  | Space => isspace c
  end.

Definition set_has (cs : charset) (c : char) : bool :=
  match cs with
  | OneOf items => existsb (item_has c) items
  | NoneOf items => negb (existsb (item_has c) items)
  end.

(** One way of matching at the start of a text: the text matched, the
    groups set on the way, and the text left. *)
Definition parse := (str * list (nat * str) * str)%type.

Definition then_ (k : str -> list parse) (p : parse) : list parse :=
  let '(m1, g1, s1) := p in
  (fun '(m2, g2, s2) => (m1 ++ m2, g1 ++ g2, s2)) <$> k s1.

(** Greedy [[...]+]: a longer repetition is tried before a shorter one. *)
Fixpoint plus_set (cs : charset) (s : str) : list parse :=
  match s with
  | c :: s' =>
      if set_has cs c
      then ((fun '(m, g, s2) => (c :: m, g, s2)) <$> plus_set cs s') ++ [([c], [], s')]
      else []
  | [] => []
  end.

Fixpoint times (step : str -> list parse) (n : nat) (s : str) : list parse :=
  match n with
  | O => [([], [], s)]
  | S n' => step s ≫= then_ (times step n')
  end.

(** All the ways [r] matches at the start of [s], in the order in which a
    backtracking matcher tries them. *)
Fixpoint run (r : regex) (s : str) : list parse :=
  match r with
  | Lit l =>
      match strip_prefix (lit l) s with
      | Some s' => [(lit l, [], s')]
      | None => []
      end
  | Class cs =>
      match s with
      | c :: s' => if set_has cs c then [([c], [], s')] else []
      | [] => []
      end
  | Plus cs => plus_set cs s
  | Seq r1 r2 => run r1 s ≫= then_ (run r2)
  | Alt r1 r2 => run r1 s ++ run r2 s
  | Repeat n r1 => times (run r1) n s
  | Group i r1 => (fun '(m, g, s') => (m, (i, m) :: g, s')) <$> run r1 s
  end.

(** A match object: [group(0)] and the numbered groups. *)
Record Match := mkMatch { group0 : str; groups : list (nat * str) }.

Definition group (m : Match) (i : nat) : option str :=
  match i with
  | O => Some (group0 m)
  | S _ => (fun g : nat * (nat * str) => g.2.2) <$> list_find (fun g : nat * str => g.1 = i) (groups m)
  end.

(** The match at the start of [s]: the first way that succeeds. *)
Definition match_here (r : regex) (s : str) : option Match :=
  match run r s with
  | (m, g, _) :: _ => Some (mkMatch m g)
  | [] => None
  end.

(** [re.finditer]: the leftmost match, then the search goes on where it
    ended.  [skip] counts the characters of the last match still to be
    passed over. *)
Fixpoint finditer_from (r : regex) (skip : nat) (s : str) : list Match :=
  match s with
  | [] => []
  | _ :: s' =>
      match skip with
      | S k => finditer_from r k s'
      | O =>
          match match_here r s with
          | Some m => m :: finditer_from r (length (group0 m) - 1) s'
          | None => finditer_from r 0 s'
          end
      end
  end.

Definition finditer (r : regex) (s : str) : list Match := finditer_from r 0 s.

(** ** The script *)

(** [PATTERN]:
    XRPLF/actions/((?:\.github/workflows/[^@\s]+|[a-z0-9._/-]+))@([a-f0-9]{40}) *)
Definition PATTERN : regex :=
  Seq (Lit "XRPLF/actions/")
  (Seq (Group 1
          (Alt (Seq (Lit ".github/workflows/") (Plus (NoneOf [Chr "@"; Space])))
               (Plus (OneOf [Range "a" "z"; Range "0" "9";
                             Chr "."; Chr "_"; Chr "/"; Chr "-"]))))
  (Seq (Lit "@")
       (Group 2 (Repeat 40 (Class (OneOf [Range "a" "f"; Range "0" "9"])))))).

Record ActionReference := mkRef {
  full_match : str;
  action_path : str;
  current_hash : str
}.

Global Instance ActionReference_eq_dec : EqDecision ActionReference.
Proof. solve_decision. Defined.


(** ** The disk *)

Definition Path := list str.

#[warnings="-register-all"]
Inductive node :=
| File (data : str)
| Dir (entries : list (str * node)).

Fixpoint entry (x : str) (es : list (str * node)) : option node :=
  match es with
  | [] => None
  | (y, n) :: es' => if decide (x = y) then Some n else entry x es'
  end.

Fixpoint set_entry (x : str) (n : node) (es : list (str * node)) : list (str * node) :=
  match es with
  | [] => [(x, n)]
  | (y, m) :: es' => if decide (x = y) then (y, n) :: es' else (y, m) :: set_entry x n es'
  end.

Fixpoint resolve (n : node) (p : Path) : option node :=
  match p with
  | [] => Some n
  | x :: p' =>
      match n with
      | Dir es => m ← entry x es; resolve m p'
      | File _ => None
      end
  end.

(** The tree after [data] is stored in the file at [p]: an existing file is
    overwritten, a new one is made in an existing directory. *)
Fixpoint store (n : node) (p : Path) (data : str) : option node :=
  match p, n with
  | [], File _ => Some (File data)
  | [], Dir _ => None
  | _ :: _, File _ => None
  | x :: p', Dir es =>
      match entry x es with
      | Some m => m' ← store m p' data; Some (Dir (set_entry x m' es))
      | None => match p' with
                | [] => Some (Dir (set_entry x (File data) es))
                | _ :: _ => None
                end
      end
  end.

(** Text mode, reading: ['\r\n'] and ['\r'] become ['\n']. *)
Fixpoint universal_newlines (s : str) : str :=
  match s with
  | [] => []
  | c :: s' =>
      if c =? 13
      then 10 :: match s' with
                 | d :: s'' => if d =? 10 then universal_newlines s''
                               else universal_newlines s'
                 | [] => []
                 end
      else c :: universal_newlines s'
  end.

(** [Path.rglob("*.yml")] below a directory, as paths relative to it: the
    entries of the directory whose name matches, then those of its
    sub-directories, of any kind (a directory whose name matches is listed
    too). *)
Definition fnmatch_yml (name : str) : bool := endswith name (lit ".yml").

Fixpoint rglob_yml (n : node) : list Path :=
  match n with
  | File _ => []
  | Dir es =>
      ((fun e : str * node => [e.1]) <$> filter (fun e : str * node => fnmatch_yml e.1 = true) es)
      ++ flat_map (fun e : str * node => (cons e.1) <$> rglob_yml e.2) es
  end.

(** ** The world the script runs in, and its effects *)

Record CompletedProcess := mkProcess { returncode : Z; stdout : str }.

Inductive event :=
| Found (file : Path) (references : list ActionReference)
| Banner (dry_run : bool)
| Update (file : Path) (old_ref new_ref : str)
| Summary (dry_run : bool) (total_updates files_modified : nat).

Record world := mkWorld {
  disk : node;                           (* the file system *)
  history : str -> CompletedProcess;     (* git log -n 1 --pretty=format:%H -- path *)
  git_calls : list str;                  (* the history queries made so far *)
  console : list event                   (* what was printed so far *)
}.

Inductive exn :=
| AssertionError (msg : string)
| CalledProcessError (status : Z)
| IsADirectoryError (p : Path)
| FileNotFoundError (p : Path)
| KeyError (key : str).

Inductive outcome (A : Type) :=
| Ok (a : A)
| Raised (e : exn).
Arguments Ok {A} a.
Arguments Raised {A} e.

Definition M (A : Type) : Type := world -> outcome A * world.

Global Instance M_ret : MRet M := fun A a w => (Ok a, w).
Global Instance M_bind : MBind M := fun A B f m w =>
  match m w with
  | (Ok a, w') => f a w'
  | (Raised e, w') => (Raised e, w')
  end.

Definition raise {A} (e : exn) : M A := fun w => (Raised e, w).

Fixpoint foldM {A B} (f : B -> A -> M B) (b : B) (l : list A) : M B :=
  match l with
  | [] => mret b
  | a :: l' => b' ← f b a; foldM f b' l'
  end.

Definition assert_ (b : bool) (msg : string) : M unit :=
  if b then mret () else raise (AssertionError msg).

Definition log_events (w : world) (es : list event) : world :=
  mkWorld (disk w) (history w) (git_calls w) (console w ++ es).

Definition log_calls (w : world) (qs : list str) : world :=
  mkWorld (disk w) (history w) (git_calls w ++ qs) (console w).

Definition set_disk (w : world) (d : node) : world :=
  mkWorld d (history w) (git_calls w) (console w).

Definition print (e : event) : M unit := fun w => (Ok (), log_events w [e]).

Definition is_dir (p : Path) : M bool := fun w =>
  (Ok (match resolve (disk w) p with Some (Dir _) => true | _ => false end), w).

Definition rglob (p : Path) : M (list Path) := fun w =>
  (Ok (match resolve (disk w) p with
       | Some n => (fun rel => p ++ rel) <$> rglob_yml n
       | None => []
       end), w).

Definition read_text (p : Path) : M str := fun w =>
  match resolve (disk w) p with
  | Some (File data) => (Ok (universal_newlines data), w)
  | Some (Dir _) => (Raised (IsADirectoryError p), w)
  | None => (Raised (FileNotFoundError p), w)
  end.

Definition write_text (p : Path) (data : str) : M unit := fun w =>
  match store (disk w) p data with
  | Some d => (Ok (), set_disk w d)
  | None => (Raised (match resolve (disk w) p with
                     | Some _ => IsADirectoryError p
                     | None => FileNotFoundError p
                     end), w)
  end.

(** [subprocess.run(["git", "-C", repo, "log", "-n", "1",
    "--pretty=format:%H", "--", target_path], check=True)] *)
Definition git_log (target_path : str) : M CompletedProcess := fun w =>
  let result := history w target_path in
  if decide (returncode result = 0%Z) then (Ok result, log_calls w [target_path])
  else (Raised (CalledProcessError (returncode result)), log_calls w [target_path]).

(** A [dict] in insertion order. *)
Fixpoint dict_set {K V} `{EqDecision K} (k : K) (v : V) (d : list (K * V)) : list (K * V) :=
  match d with
  | [] => [(k, v)]
  | (k', v') :: d' => if decide (k = k') then (k', v) :: d' else (k', v') :: dict_set k v d'
  end.

(** ** The script's functions *)

(** [repo_path] is [ACTIONS_REPO_PATH] in every call: the repository whose
    history the world holds. *)
Definition get_latest_commit_for_path (target_path : str) : M str :=
  result ← git_log target_path;
  let commit_hash := strip (stdout result) in
  assert_ (bool_decide (commit_hash ≠ [])) "Git command failed to return a commit hash";;
  mret commit_hash.

(** [ActionReference(full_match=match.group(0), action_path=match.group(1),
    current_hash=match.group(2))]; both groups take part in every match of
    [PATTERN]. *)
Definition reference_of (m : Match) : ActionReference :=
  mkRef (group0 m) (default [] (group m 1)) (default [] (group m 2)).

(** The text a reference is replaced by:
    [f"XRPLF/actions/{ref.action_path}@{latest_hash}"] *)
Definition new_reference (ref : ActionReference) (latest_hash : str) : str :=
  lit "XRPLF/actions/" ++ action_path ref ++ lit "@" ++ latest_hash.

Section Script.

(** The order in which a [set] built from the given distinct elements is
    iterated. *)
Variable set_iter : list ActionReference -> list ActionReference.

Definition find_action_references (file_path : Path) : M (list ActionReference) :=
  content ← read_text file_path;
  mret (set_iter (remove_dups (reference_of <$> finditer PATTERN content))).

(** The body of the loop over the files found. *)
Definition collect_file (all_references : list (Path * list ActionReference))
    (yaml_file : Path) : M (list (Path * list ActionReference)) :=
  references ← find_action_references yaml_file;
  match references with
  | [] => mret all_references
  | _ :: _ =>
      print (Found yaml_file references);;
      mret (dict_set yaml_file references all_references)
  end.

Definition collect_all_references (directory : Path)
  : M (list (Path * list ActionReference)) :=
  files ← rglob directory;
  foldM collect_file [] files.

(** The body of the inner loop of [get_hash_mapping]. *)
Definition resolve_reference (hash_mapping : gmap str str) (ref : ActionReference)
  : M (gmap str str) :=
  if decide (is_Some (hash_mapping !! action_path ref)) then mret hash_mapping
  else
    latest_hash ← get_latest_commit_for_path (action_path ref);
    mret (<[action_path ref := latest_hash]> hash_mapping).

(** The body of its outer loop. *)
Definition resolve_references (hash_mapping : gmap str str)
    (item : Path * list ActionReference) : M (gmap str str) :=
  foldM resolve_reference hash_mapping item.2.

Definition get_hash_mapping (all_references : list (Path * list ActionReference))
  : M (gmap str str) :=
  foldM resolve_references ∅ all_references.

(** The body of the loop over the references of one file. *)
Definition update_reference (hash_mapping : gmap str str) (file : Path)
    (st : str * nat) (ref : ActionReference) : M (str * nat) :=
  let '(content, total_updates) := st in
  match hash_mapping !! action_path ref with
  | None => raise (KeyError (action_path ref))
  | Some latest_hash =>
      if decide (current_hash ref = latest_hash) then mret st
      else
        let old_ref := full_match ref in
        let new_ref := new_reference ref latest_hash in
        print (Update file old_ref new_ref);;
        mret (replace old_ref new_ref content, S total_updates)
  end.

(** The body of the loop over the files. *)
Definition update_file (dry_run : bool) (hash_mapping : gmap str str)
    (st : nat * nat) (item : Path * list ActionReference) : M (nat * nat) :=
  let '(files_modified, total_updates) := st in
  let '(file, references) := item in
  old_content ← read_text file;
  '(content, total_updates) ←
    foldM (update_reference hash_mapping file) (old_content, total_updates) references;
  if decide (content = old_content) then mret (files_modified, total_updates)
  else
    (if dry_run then mret () else write_text file content);;
    mret (S files_modified, total_updates).

Definition main (dry_run : bool) (directory : Path) : M unit :=
  d ← is_dir directory;
  assert_ d "Provided path is not a directory";;
  all_references ← collect_all_references directory;
  hash_mapping ← get_hash_mapping all_references;
  print (Banner dry_run);;
  '(files_modified, total_updates) ←
    foldM (update_file dry_run hash_mapping) (0%nat, 0%nat) all_references;
  print (Summary dry_run total_updates files_modified).

End Script.

(** ** The grammar of a reference, as the specification words it *)

Definition lower_char (c : char) : Prop := ch "a" <= c <= ch "z".
Definition digit_char (c : char) : Prop := ch "0" <= c <= ch "9".

(** lowercase letters, digits, '.', '_', '/', '-' *)
Definition plain_char (c : char) : Prop :=
  lower_char c \/ digit_char c \/ c = ch "." \/ c = ch "_" \/ c = ch "/" \/ c = ch "-".

(** neither whitespace nor '@' *)
Definition workflow_char (c : char) : Prop := isspace c = false /\ c <> ch "@".

(** a lowercase hexadecimal digit *)
Definition hex_char (c : char) : Prop := ch "a" <= c <= ch "f" \/ digit_char c.

Definition workflow_path (p : str) : Prop :=
  exists q, p = lit ".github/workflows/" ++ q /\ q <> [] /\ Forall workflow_char q.

Definition plain_path (p : str) : Prop := p <> [] /\ Forall plain_char p.

Definition is_path (p : str) : Prop := workflow_path p \/ plain_path p.

Definition is_hash (h : str) : Prop := length h = 40%nat /\ Forall hex_char h.

(** [s] is a reference to the path [p] at the hash [h]. *)
Definition is_reference (s p h : str) : Prop :=
  s = lit "XRPLF/actions/" ++ p ++ lit "@" ++ h /\ is_path p /\ is_hash h.

(** The references of a text read from left to right: a reference that
    starts where the previous one ended or later, at the first place where
    one starts. *)
Inductive Scan : str -> list ActionReference -> Prop :=
| Scan_end : Scan [] []
| Scan_skip c s refs :
    (forall m p h rest, c :: s = m ++ rest -> ~ is_reference m p h) ->
    Scan s refs ->
    Scan (c :: s) refs
| Scan_ref m p h rest refs :
    is_reference m p h ->
    Scan rest refs ->
    Scan (m ++ rest) (mkRef m p h :: refs).

(** The text [s] with the hash of every reference replaced by the hash
    [f] gives for it; this describes what the rewriter is to achieve. *)
Fixpoint retarget_from (f : ActionReference -> str) (skip : nat) (s : str) : str :=
  match s with
  | [] => []
  | c :: s' =>
      match skip with
      | S k => retarget_from f k s'
      | O =>
          match match_here PATTERN s with
          | Some M =>
              new_reference (reference_of M) (f (reference_of M))
              ++ retarget_from f (length (group0 M) - 1) s'
          | None => c :: retarget_from f 0 s'
          end
      end
  end.

Definition retarget (f : ActionReference -> str) (s : str) : str := retarget_from f 0 s.

Definition retarget_reference (f : ActionReference -> str) (ref : ActionReference)
  : ActionReference :=
  mkRef (new_reference ref (f ref)) (action_path ref) (f ref).

(** The digits of a full commit hash: 40 of them for SHA-1, 64 for
    SHA-256. *)
Definition is_full_hash (h : str) : Prop := (40 <= length h)%nat /\ Forall hex_char h.

(** [s'] is [s] but for the digits after the [@] of the references of
    [s]. *)
Inductive Rewritten : str -> str -> Prop :=
| Rewritten_end : Rewritten [] []
| Rewritten_skip c s s' :
    (forall m p h rest, c :: s = m ++ rest -> ~ is_reference m p h) ->
    Rewritten s s' ->
    Rewritten (c :: s) (c :: s')
| Rewritten_ref m p h h' rest rest' :
    is_reference m p h ->
    is_full_hash h' ->
    Rewritten rest rest' ->
    Rewritten (m ++ rest) (lit "XRPLF/actions/" ++ p ++ lit "@" ++ h' ++ rest').

(** [sub in s] *)
Fixpoint contains (s sub : str) : bool :=
  startswith s sub ||
  match s with
  | [] => false
  | _ :: s' => contains s' sub
  end.

(** The hash of a reference after [old.replace(old, new)] on its text,
    where [old] and [new] are references to [p] at [h] and at [h']: the
    reference is changed where [old] ends it. *)
Definition replaced_hash (p h h' : str) (ref : ActionReference) : str :=
  if decide (current_hash ref = h /\
             (lit "XRPLF/actions/" ++ p) `suffix_of` (lit "XRPLF/actions/" ++ action_path ref))
  then h' else current_hash ref.

(** The digits after the [@] of a reference after [replace] on a text in
    which the reference has the digits [G] gives for it, where [old] and
    [new] are references to [p] at [h] and at [h']: the first 40 digits are
    changed where [old] ends with them. *)
Definition replaced_digits (p h h' : str) (G : ActionReference -> str)
    (ref : ActionReference) : str :=
  if decide (take 40 (G ref) = h /\
             (lit "XRPLF/actions/" ++ p) `suffix_of` (lit "XRPLF/actions/" ++ action_path ref))
  then h' ++ drop 40 (G ref) else G ref.

(** The hash the mapping holds for the path of a reference. *)
Definition latest (hash_mapping : gmap str str) (ref : ActionReference) : str :=
  default (current_hash ref) (hash_mapping !! action_path ref).

(** The effect of one turn of the loop over the references on the
    content. *)
Definition apply_update (hash_mapping : gmap str str) (content : str)
    (ref : ActionReference) : str :=
  if decide (current_hash ref = latest hash_mapping ref) then content
  else replace (full_match ref) (new_reference ref (latest hash_mapping ref)) content.

(** The text [read_text] gives for a path, where it is a file. *)
Definition text_at (d : node) (p : Path) : option str :=
  match resolve d p with
  | Some (File data) => Some (universal_newlines data)
  | _ => None
  end.

(** What [git log] answers for a path, as [get_latest_commit_for_path]
    takes it. *)
Definition resolved (hist : str -> CompletedProcess) (p : str) : outcome str :=
  if decide (returncode (hist p) = 0%Z)
  then if decide (strip (stdout (hist p)) = [])
       then Raised (AssertionError "Git command failed to return a commit hash")
       else Ok (strip (stdout (hist p)))
  else Raised (CalledProcessError (returncode (hist p))).

(** The iteration order of sets is some order of their elements. *)
Definition set_order (set_iter : list ActionReference -> list ActionReference) : Prop :=
  forall l, NoDup l -> set_iter l ≡ₚ l.

(** The references found in a text, as a set. *)
Definition references_in (set_iter : list ActionReference -> list ActionReference)
    (content : str) : list ActionReference :=
  set_iter (remove_dups (reference_of <$> finditer PATTERN content)).

(** The content of the file at a path, as stored. *)
Definition file_at (d : node) (p : Path) : option str :=
  match resolve d p with
  | Some (File data) => Some data
  | _ => None
  end.

(** What the scanner finds in the file at a path. *)
Definition scan_file (set_iter : list ActionReference -> list ActionReference)
    (d : node) (f : Path) : option (list ActionReference) :=
  references_in set_iter <$> text_at d f.

Definition collect_step (set_iter : list ActionReference -> list ActionReference)
    (d : node) (acc : list (Path * list ActionReference)) (f : Path)
  : list (Path * list ActionReference) :=
  match scan_file set_iter d f with
  | Some (r :: refs) => dict_set f (r :: refs) acc
  | _ => acc
  end.

Definition found_event (set_iter : list ActionReference -> list ActionReference)
    (d : node) (f : Path) : list event :=
  match scan_file set_iter d f with
  | Some (r :: refs) => [Found f (r :: refs)]
  | _ => []
  end.

Definition is_found (e : event) : bool :=
  match e with Found _ _ => true | _ => false end.

Definition is_update (e : event) : bool :=
  match e with Update _ _ _ => true | _ => false end.

Definition read_error (d : node) (p : Path) : exn :=
  match resolve d p with
  | Some _ => IsADirectoryError p
  | None => FileNotFoundError p
  end.

(** What the rewriter prints for the references of one file. *)
Definition update_events (hash_mapping : gmap str str) (file : Path)
    (refs : list ActionReference) : list event :=
  (fun ref => Update file (full_match ref) (new_reference ref (latest hash_mapping ref)))
    <$> filter (fun ref => current_hash ref <> latest hash_mapping ref) refs.

(** The content the rewriter computes for a file of the scan. *)
Definition new_content (hash_mapping : gmap str str) (d : node)
    (item : Path * list ActionReference) : option str :=
  (fun c => foldl (apply_update hash_mapping) c item.2) <$> text_at d item.1.

(** The disk after the rewriter is done with a file of the scan [d0]. *)
Definition write_back (hash_mapping : gmap str str) (d0 d : node)
    (item : Path * list ActionReference) : node :=
  match new_content hash_mapping d0 item with
  | Some c' => if decide (Some c' = text_at d0 item.1) then d
               else default d (store d item.1 c')
  | None => d
  end.

(** What of a node the enumeration of the files depends on. *)
Definition view (n : node) : bool * list Path :=
  (match n with Dir _ => true | File _ => false end, rglob_yml n).

(** The paths [rglob] gives for a directory. *)
Definition yml_files (d : node) (directory : Path) : list Path :=
  match resolve d directory with
  | Some n => (fun rel => directory ++ rel) <$> rglob_yml n
  | None => []
  end.

Definition covered (hash_mapping : gmap str str) (ref : ActionReference) : Prop :=
  is_Some (hash_mapping !! action_path ref).

Definition stale_count (hash_mapping : gmap str str) (refs : list ActionReference) : nat :=
  length (filter (fun ref => current_hash ref <> latest hash_mapping ref) refs).

Definition item_events (hash_mapping : gmap str str)
    (item : Path * list ActionReference) : list event :=
  update_events hash_mapping item.1 item.2.

Definition changed_count (hash_mapping : gmap str str) (d : node)
    (items : list (Path * list ActionReference)) : nat :=
  length (filter (fun item => new_content hash_mapping d item <> text_at d item.1) items).

(** What the scanner collects below a directory. *)
Definition scanned (set_iter : list ActionReference -> list ActionReference)
    (d : node) (directory : Path) : list (Path * list ActionReference) :=
  foldl (collect_step set_iter d) [] (yml_files d directory).

(** The paths referenced in a scan. *)
Definition paths_of (items : list (Path * list ActionReference)) : list str :=
  action_path <$> (items ≫= snd).

(** The number of references the rewriter updates. *)
Definition total_stale (hash_mapping : gmap str str)
    (items : list (Path * list ActionReference)) : nat :=
  length (items ≫= fun item =>
            filter (fun ref => current_hash ref <> latest hash_mapping ref) item.2).

(** An event as the run in the other mode prints it: the banner and the
    summary are worded after the mode. *)
Definition with_mode (dry_run : bool) (e : event) : event :=
  match e with
  | Banner _ => Banner dry_run
  | Summary _ total_updates files_modified => Summary dry_run total_updates files_modified
  | _ => e
  end.

(** The entries below a node, at any depth, with their relative path. *)
Inductive Descendant : node -> Path -> node -> Prop :=
| Descendant_child es x m :
    (x, m) ∈ es -> Descendant (Dir es) [x] m
| Descendant_deeper es x m rel k :
    (x, m) ∈ es -> Descendant m rel k -> Descendant (Dir es) (x :: rel) k.

(** The history answers with full SHA-1 commit hashes: 40 lowercase
    hexadecimal digits. *)
Definition sha1_history (hist : str -> CompletedProcess) : Prop :=
  forall p h, resolved hist p = Ok h -> is_hash h.

(** Two items of scans that differ in the iteration order of the sets
    only: the same file, with the same references in some order. *)
Definition same_item (x y : Path * list ActionReference) : Prop :=
  x.1 = y.1 /\ x.2 ≡ₚ y.2.

(** The history answers with full commit hashes: at least 40 lowercase
    hexadecimal digits. *)
Definition full_hash_history (hist : str -> CompletedProcess) : Prop :=
  forall p h, resolved hist p = Ok h -> is_full_hash h.

(** What the scanner collects for a path of the enumeration, and what it
    prints for it. *)
Definition scanned_item (set_iter : list ActionReference -> list ActionReference)
    (d : node) (f : Path) : list (Path * list ActionReference) :=
  match scan_file set_iter d f with
  | Some (r :: refs) => [(f, r :: refs)]
  | _ => []
  end.

(** The meaning of a regular expression: the texts it matches, with the
    groups. *)
Inductive Matches : regex -> str -> list (nat * str) -> Prop :=
| Matches_Lit l : Matches (Lit l) (lit l) []
| Matches_Class cs c : set_has cs c = true -> Matches (Class cs) [c] []
| Matches_Plus cs m :
    m <> [] -> Forall (fun c => set_has cs c = true) m -> Matches (Plus cs) m []
| Matches_Seq r1 r2 m1 g1 m2 g2 :
    Matches r1 m1 g1 -> Matches r2 m2 g2 -> Matches (Seq r1 r2) (m1 ++ m2) (g1 ++ g2)
| Matches_Alt_l r1 r2 m g : Matches r1 m g -> Matches (Alt r1 r2) m g
| Matches_Alt_r r1 r2 m g : Matches r2 m g -> Matches (Alt r1 r2) m g
| Matches_Repeat_O r : Matches (Repeat 0 r) [] []
| Matches_Repeat_S n r m1 g1 m2 g2 :
    Matches r m1 g1 -> Matches (Repeat n r) m2 g2 ->
    Matches (Repeat (S n) r) (m1 ++ m2) (g1 ++ g2)
| Matches_Group i r m g : Matches r m g -> Matches (Group i r) m ((i, m) :: g).

(** ** Example worlds *)

Definition hash_a : str := lit "aaaaaaaaaaaaaaaaaaaaaaaaaaaaaaaaaaaaaaaa".
Definition hash_b : str := lit "bbbbbbbbbbbbbbbbbbbbbbbbbbbbbbbbbbbbbbbb".
Definition hash_c : str := lit "cccccccccccccccccccccccccccccccccccccccc".

(** A workflow file with one reference, at commit [a]. *)
Definition ci_yml : str := lit "uses: XRPLF/actions/get-nproc@" ++ hash_a ++ [10].

(** The same file with DOS line ends. *)
Definition crlf_yml : str := lit "uses: XRPLF/actions/get-nproc@" ++ hash_a ++ [13; 10].

(** A workflow file with a reference to the action [foo] and a reference
    to the workflow file [.github/workflows/XRPLF/actions/foo], both at
    commit [c]. *)
Definition nested_yml : str :=
  lit "uses: XRPLF/actions/foo@" ++ hash_c ++ [10]
  ++ lit "uses: XRPLF/actions/.github/workflows/XRPLF/actions/foo@" ++ hash_c ++ [10].

(** A history in which commit [b] is the last one for every path. *)
Definition history_b (p : str) : CompletedProcess := mkProcess 0 (hash_b ++ [10]).

(** A history in which commit [a] is the last one for the action [foo] and
    commit [c] the last one for every other path. *)
Definition history_foo (p : str) : CompletedProcess :=
  if decide (p = lit "foo") then mkProcess 0 (hash_a ++ [10])
  else mkProcess 0 (hash_c ++ [10]).

(** The history of a SHA-256 repository: a commit hash has 64 digits. *)
Definition history_sha256 (p : str) : CompletedProcess :=
  mkProcess 0 (hash_a ++ lit "bbbbbbbbbbbbbbbbbbbbbbbb" ++ [10]).

(** A history whose queries fail: [git] exits with status 128. *)
Definition history_fatal (p : str) : CompletedProcess := mkProcess 128 [].

Definition example_disk : node :=
  Dir [(lit "ci.yml", File ci_yml);
       (lit "README.md", File (lit "XRPLF/actions"));
       (lit "docs", Dir [(lit "old.yaml", File ci_yml); (lit "empty.yml", File [])])].

Definition example_world : world := mkWorld example_disk history_b [] [].
Definition fatal_world : world := mkWorld example_disk history_fatal [] [].
Definition sha256_world : world := mkWorld example_disk history_sha256 [] [].
Definition crlf_world : world :=
  mkWorld (Dir [(lit "ci.yml", File crlf_yml)]) history_b [] [].
Definition nested_world : world :=
  mkWorld (Dir [(lit "ci.yml", File nested_yml)]) history_foo [] [].

(** A disk with a directory whose name ends in [.yml]. *)
Definition ill_named_disk : node :=
  Dir [(lit "ci.yml", File ci_yml);
       (lit "notes.yml", Dir [(lit "a.txt", File [])])].
Definition ill_named_world : world := mkWorld ill_named_disk history_b [] [].



(** Files without a reference. *)
Definition bare_world : world :=
  mkWorld (Dir [(lit "empty.yml", File []);
                (lit "docs", Dir [(lit "plain.yml", File (lit "name: ci"))])])
          history_b [] [].

(** A file with two references. *)
Definition two_refs_yml : str :=
  lit "uses: XRPLF/actions/get-nproc@" ++ hash_a ++ [10]
  ++ lit "uses: XRPLF/actions/build@" ++ hash_c ++ [10].
Definition two_refs_world : world :=
  mkWorld (Dir [(lit "ci.yml", File two_refs_yml)]) history_b [] [].

(** A file to update, a file with DOS line ends whose reference is at the
    last commit, and a file whose name does not end in [.yml]. *)
Definition current_yml : str := lit "uses: XRPLF/actions/get-nproc@" ++ hash_b ++ [13; 10].
Definition mixed_world : world :=
  mkWorld (Dir [(lit "ci.yml", File ci_yml);
                (lit "ok.yml", File current_yml);
                (lit "README.md", File crlf_yml)])
          history_b [] [].

(** A history that answers with 64 digits, the first 40 of them the hash
    of the second reference of the file. *)
Definition digits_24 : str := lit "bbbbbbbbbbbbbbbbbbbbbbbb".
Definition twice_yml : str :=
  lit "XRPLF/actions/a@" ++ hash_a ++ [10] ++ lit "XRPLF/actions/a@" ++ hash_c ++ [10].
Definition history_twice (p : str) : CompletedProcess :=
  mkProcess 0 (hash_c ++ digits_24 ++ [10]).
Definition twice_world : world :=
  mkWorld (Dir [(lit "ci.yml", File twice_yml)]) history_twice [] [].

(** A history that answers with seven digits, and a file in which the
    first reference is followed by digits. *)
Definition digits_b : str := lit "bbbbbbbbbbbbbbbbbbbbbbbbbbbbbbbbb".
Definition short_yml : str :=
  lit "XRPLF/actions/a@" ++ hash_a ++ digits_b ++ [10]
  ++ lit "XRPLF/actions/a@ccccccc" ++ digits_b ++ [10].
Definition history_short (p : str) : CompletedProcess :=
  mkProcess 0 (lit "ccccccc" ++ [10]).
Definition short_world : world :=
  mkWorld (Dir [(lit "ci.yml", File short_yml)]) history_short [] [].

(** A history that answers, for the action [a], with a text that is no
    hash. *)
Definition foreign_yml : str :=
  lit "XRPLF/actions/a@" ++ hash_a ++ lit "cccccccccc" ++ [10]
  ++ lit "XRPLF/actions/b@" ++ hash_c ++ [10].
Definition history_foreign (p : str) : CompletedProcess :=
  if decide (p = lit "a")
  then mkProcess 0 (lit "XRPLF/actions/b@cccccccccccccccccccccccccccccc" ++ [10])
  else mkProcess 0 (hash_b ++ [10]).
Definition foreign_world : world :=
  mkWorld (Dir [(lit "ci.yml", File foreign_yml)]) history_foreign [] [].

Definition get_nproc_a : ActionReference :=
  mkRef (lit "XRPLF/actions/get-nproc@" ++ hash_a) (lit "get-nproc") hash_a.

(** * Properties *)

(** A decidable proposition that holds by evaluation. *)
Ltac by_compute := apply (bool_decide_unpack _); vm_compute; exact I.

(** ** Prefixes *)

Lemma strip_prefix_Some p s s' : strip_prefix p s = Some s' <-> s = p ++ s'.
Proof.
  revert s; induction p as [|a p IH]; intros s; simpl.
  - split; congruence.
  - destruct s as [|b s]; [done|]. destruct (decide (a = b)) as [->|Hne].
    + rewrite IH. split; congruence.
    + split; [done|congruence].
Qed.

Lemma strip_prefix_app p s : strip_prefix p (p ++ s) = Some s.
Proof. by apply strip_prefix_Some. Qed.

Lemma startswith_true s p : startswith s p = true <-> exists s', s = p ++ s'.
Proof.
  unfold startswith. rewrite bool_decide_eq_true. unfold is_Some.
  by setoid_rewrite strip_prefix_Some.
Qed.

Lemma startswith_false s p : startswith s p = false <-> forall s', s <> p ++ s'.
Proof.
  rewrite <- not_true_iff_false, startswith_true. split.
  - intros H s' ->. apply H. eauto.
  - intros H [s' ->]. by apply (H s').
Qed.

(** ** The matcher agrees with the meaning of the expression *)

Lemma elem_of_then_ k p m g rest :
  (m, g, rest) ∈ then_ k p <->
  exists m2 g2, (m2, g2, rest) ∈ k p.2 /\ m = p.1.1 ++ m2 /\ g = p.1.2 ++ g2.
Proof.
  destruct p as [[m1 g1] s1]; simpl. rewrite list_elem_of_fmap. split.
  - intros ([[m2 g2] s2] & [= -> -> ->] & Hin). eauto.
  - intros (m2 & g2 & Hin & -> & ->). by exists (m2, g2, rest).
Qed.

Lemma elem_of_plus_set cs s m g rest :
  (m, g, rest) ∈ plus_set cs s <->
  s = m ++ rest /\ g = [] /\ m <> [] /\ Forall (fun c => set_has cs c = true) m.
Proof.
  revert m; induction s as [|c s IH]; intros m; simpl.
  - rewrite elem_of_nil. split; [done|]. intros (H & _ & Hm & _).
    by destruct m.
  - destruct (set_has cs c) eqn:Hc.
    + rewrite elem_of_app, list_elem_of_fmap, list_elem_of_singleton. split.
      * intros [([[m' g'] s'] & [= -> -> ->] & Hin) | [= -> -> ->]].
        -- apply IH in Hin as (-> & -> & Hm & Hall). by repeat split; [|constructor].
        -- by repeat split; [|constructor].
      * intros (Hs & -> & Hm & Hall). destruct m as [|c' m]; [done|].
        injection Hs as <- ->. apply Forall_cons in Hall as [_ Hall].
        destruct m as [|c2 m]; [by right|]. left. exists (c2 :: m, [], rest).
        split; [done|]. by apply IH.
    + rewrite elem_of_nil. split; [done|]. intros (Hs & _ & Hm & Hall).
      destruct m as [|c' m]; [done|]. injection Hs as <- ->.
      apply Forall_cons in Hall as [Hc' _]. congruence.
Qed.

Lemma run_Matches r s m g rest :
  (m, g, rest) ∈ run r s <-> Matches r m g /\ s = m ++ rest.
Proof.
  revert s m g rest; induction r as [l|cs|cs|r1 IH1 r2 IH2|r1 IH1 r2 IH2|n r IH|i r IH];
    intros s m g rest; simpl.
  - destruct (strip_prefix (lit l) s) as [s'|] eqn:Hs.
    + apply strip_prefix_Some in Hs as ->. rewrite list_elem_of_singleton. split.
      * intros [= -> -> ->]. split; [constructor|done].
      * intros [HM Heq]. inversion HM; subst. by simplify_list_eq.
    + rewrite elem_of_nil. split; [done|]. intros [HM ->]. inversion HM; subst.
      by rewrite strip_prefix_app in Hs.
  - destruct s as [|c s].
    + rewrite elem_of_nil. split; [done|]. intros [HM Hs]. by inversion HM; subst.
    + destruct (set_has cs c) eqn:Hc.
      * rewrite list_elem_of_singleton. split.
        -- intros [= -> -> ->]. split; [by constructor|done].
        -- intros [HM Hs]. inversion HM; subst. by injection Hs as -> ->.
      * rewrite elem_of_nil. split; [done|]. intros [HM Hs]. inversion HM; subst.
        injection Hs as -> ->. congruence.
  - rewrite elem_of_plus_set. split.
    + intros (-> & -> & Hm & Hall). split; [by constructor|done].
    + intros [HM ->]. by inversion HM; subst.
  - rewrite list_elem_of_bind. split.
    + intros ([[m1 g1] s1] & Hin & Hin1). apply elem_of_then_ in Hin as (m2 & g2 & Hin2 & -> & ->).
      simpl in *. apply IH1 in Hin1 as [HM1 ->]. apply IH2 in Hin2 as [HM2 ->].
      split; [by constructor|by rewrite (assoc_L (++))].
    + intros [HM ->]. inversion HM; subst. exists (m1, g1, m2 ++ rest). split.
      * apply elem_of_then_. exists m2, g2. simpl. split; [|done]. by apply IH2.
      * apply IH1. split; [done|by rewrite (assoc_L (++))].
  - rewrite elem_of_app, IH1, IH2. split.
    + intros [[HM ->]|[HM ->]]; (split; [|done]); by constructor.
    + intros [HM ->]. inversion HM; subst; [left|right]; done.
  - revert s m g rest; induction n as [|n IHn]; intros s m g rest; simpl.
    + rewrite list_elem_of_singleton. split.
      * intros [= -> -> ->]. split; [constructor|done].
      * intros [HM ->]. by inversion HM; subst.
    + rewrite list_elem_of_bind. split.
      * intros ([[m1 g1] s1] & Hin & Hin1). apply elem_of_then_ in Hin as (m2 & g2 & Hin2 & -> & ->).
        simpl in *. apply IH in Hin1 as [HM1 ->]. apply IHn in Hin2 as [HM2 ->].
        split; [by constructor|by rewrite (assoc_L (++))].
      * intros [HM ->]. inversion HM; subst. exists (m1, g1, m2 ++ rest). split.
        -- apply elem_of_then_. exists m2, g2. simpl. split; [|done]. by apply IHn.
        -- apply IH. split; [done|by rewrite (assoc_L (++))].
  - rewrite list_elem_of_fmap. split.
    + intros ([[m' g'] s'] & [= -> -> ->] & Hin). apply IH in Hin as [HM ->].
      split; [by constructor|done].
    + intros [HM ->]. inversion HM; subst. exists (m, g0, rest). split; [done|].
      by apply IH.
Qed.

(** ** The character classes of [PATTERN] *)

Lemma workflow_class c :
  set_has (NoneOf [Chr "@"; Space]) c = true <-> workflow_char c.
Proof.
  unfold workflow_char, set_has, existsb, item_has.
  rewrite negb_true_iff, !orb_false_iff, N.eqb_neq. tauto.
Qed.

Lemma plain_class c :
  set_has (OneOf [Range "a" "z"; Range "0" "9"; Chr "."; Chr "_"; Chr "/"; Chr "-"]) c = true
  <-> plain_char c.
Proof.
  unfold plain_char, lower_char, digit_char, set_has, existsb, item_has.
  rewrite orb_false_r, !orb_true_iff, !andb_true_iff, !N.leb_le, !N.eqb_eq. tauto.
Qed.

Lemma hex_class c :
  set_has (OneOf [Range "a" "f"; Range "0" "9"]) c = true <-> hex_char c.
Proof.
  unfold hex_char, digit_char, set_has, existsb, item_has.
  rewrite orb_false_r, !orb_true_iff, !andb_true_iff, !N.leb_le. tauto.
Qed.

Lemma Matches_Repeat_Class n cs m g :
  Matches (Repeat n (Class cs)) m g <->
  g = [] /\ length m = n /\ Forall (fun c => set_has cs c = true) m.
Proof.
  revert m g; induction n as [|n IH]; intros m g; split.
  - intros H; inversion H; subst. by repeat split.
  - intros (-> & Hlen & _). destruct m; [constructor|done].
  - intros H; inversion H as [| | | | | | |? ? m1 g1 m2 g2 H1 H2|]; subst.
    inversion H1; subst. apply IH in H2 as (-> & <- & Hall).
    split; [done|]. split; [done|]. by constructor.
  - intros (-> & Hlen & Hall). destruct m as [|c m]; [done|].
    apply Forall_cons in Hall as [Hc Hall]. injection Hlen as Hlen.
    change (Matches (Repeat (S n) (Class cs)) ([c] ++ m) ([] ++ [])).
    constructor; [by constructor|]. by apply IH.
Qed.

Ltac inv_Matches :=
  repeat match goal with
         | H : Matches (Seq _ _) _ _ |- _ => inversion H; subst; clear H
         | H : Matches (Alt _ _) _ _ |- _ => inversion H; subst; clear H
         | H : Matches (Group _ _) _ _ |- _ => inversion H; subst; clear H
         | H : Matches (Lit _) _ _ |- _ => inversion H; subst; clear H
         | H : Matches (Plus _) _ _ |- _ => inversion H; subst; clear H
         end.

(** [PATTERN] matches the references of the grammar, and sets group 1 to
    the path and group 2 to the hash. *)
Lemma Matches_PATTERN m g :
  Matches PATTERN m g <->
  exists p h, is_reference m p h /\ g = [(1%nat, p); (2%nat, h)].
Proof.
  unfold PATTERN. split.
  - intros H. inv_Matches.
    + match goal with H : Matches (Repeat _ _) _ _ |- _ =>
        apply Matches_Repeat_Class in H as (-> & Hlen & Hhex) end.
      eexists _, _. split; [|reflexivity]. split; [reflexivity|]. split.
      * left. eexists. split; [reflexivity|]. split; [done|].
        eapply Forall_impl; [eassumption|]. intros c. apply workflow_class.
      * split; [done|]. eapply Forall_impl; [eassumption|]. intros c. apply hex_class.
    + match goal with H : Matches (Repeat _ _) _ _ |- _ =>
        apply Matches_Repeat_Class in H as (-> & Hlen & Hhex) end.
      eexists _, _. split; [|reflexivity]. split; [reflexivity|]. split.
      * right. split; [done|].
        eapply Forall_impl; [eassumption|]. intros c. apply plain_class.
      * split; [done|]. eapply Forall_impl; [eassumption|]. intros c. apply hex_class.
  - intros (p & h & (-> & Hp & Hlen & Hhex) & ->).
    assert (Matches (Group 2 (Repeat 40 (Class (OneOf [Range "a" "f"; Range "0" "9"]))))
              h [(2%nat, h)]) as Hh.
    { constructor. apply Matches_Repeat_Class. repeat split; [done|].
      eapply Forall_impl; [eassumption|]. intros c. apply hex_class. }
    change [(1%nat, p); (2%nat, h)] with ([] ++ [(1%nat, p)] ++ [] ++ [(2%nat, h)]).
    constructor; [constructor|]. constructor; [|constructor; [constructor|done]].
    constructor. destruct Hp as [(q & -> & Hq & Hall)|[Hp Hall]].
    + apply Matches_Alt_l. change (@nil (nat * str)) with (@nil (nat * str) ++ []).
      constructor; [constructor|]. constructor; [done|].
      eapply Forall_impl; [eassumption|]. intros c. apply workflow_class.
    + apply Matches_Alt_r. constructor; [done|].
      eapply Forall_impl; [eassumption|]. intros c. apply plain_class.
Qed.

Global Arguments run : simpl never.
Global Arguments match_here : simpl never.

(** ** A reference at the start of a text is unique *)

Lemma first_at_unique (a : char) (u v x y : str) :
  a ∉ u -> a ∉ v -> u ++ a :: x = v ++ a :: y -> u = v /\ x = y.
Proof.
  revert v; induction u as [|c u IH]; intros [|d v] Hu Hv Heq; simpl in *.
  - by injection Heq as ->.
  - injection Heq as <- _. exfalso. apply Hv. by left.
  - injection Heq as -> _. exfalso. apply Hu. by left.
  - injection Heq as -> Heq. apply not_elem_of_cons in Hu as [_ Hu].
    apply not_elem_of_cons in Hv as [_ Hv].
    destruct (IH v Hu Hv Heq) as [-> ->]. done.
Qed.

Lemma plain_char_not_at c : plain_char c -> c <> ch "@".
Proof.
  unfold plain_char, lower_char, digit_char. intros H ->. vm_compute in H.
  intuition congruence.
Qed.

Lemma is_path_no_at p : is_path p -> ch "@" ∉ p.
Proof.
  intros [(q & -> & _ & Hq)|[_ Hp]].
  - rewrite not_elem_of_app. split; [by_compute|].
    intros Hin. rewrite Forall_forall in Hq. by destruct (Hq _ Hin).
  - intros Hin. rewrite Forall_forall in Hp. by apply (plain_char_not_at _ (Hp _ Hin)).
Qed.

Lemma is_reference_unique m p h rest m' p' h' rest' :
  is_reference m p h -> is_reference m' p' h' -> m ++ rest = m' ++ rest' ->
  m = m' /\ p = p' /\ h = h' /\ rest = rest'.
Proof.
  intros (-> & Hp & Hlen & _) (-> & Hp' & Hlen' & _) Heq.
  rewrite <- !(assoc_L (++)) in Heq. apply app_inv_head in Heq.
  change (lit "@") with [ch "@"] in *. simpl in Heq.
  apply first_at_unique in Heq as [-> Heq]; [|by apply is_path_no_at..].
  apply app_inj_1 in Heq as [-> ->]; [done|congruence].
Qed.

Lemma is_reference_nonempty m p h : is_reference m p h -> m <> [].
Proof. by intros (-> & _). Qed.

(** ** The match at the start of a text *)

Lemma match_here_Some s M :
  match_here PATTERN s = Some M <->
  exists p h rest,
    is_reference (group0 M) p h /\ groups M = [(1%nat, p); (2%nat, h)] /\
    s = group0 M ++ rest.
Proof.
  unfold match_here. split.
  - destruct (run PATTERN s) as [|[[m g] rest] l] eqn:Hrun; [done|].
    intros [= <-]. assert ((m, g, rest) ∈ run PATTERN s) as Hin by (rewrite Hrun; left).
    apply run_Matches in Hin as [HM ->]. apply Matches_PATTERN in HM as (p & h & Href & ->).
    by exists p, h, rest.
  - intros (p & h & rest & Href & Hg & ->). destruct M as [m g]; simpl in *; subst g.
    assert ((m, [(1%nat, p); (2%nat, h)], rest) ∈ run PATTERN (m ++ rest)) as Hin.
    { apply run_Matches. split; [|done]. apply Matches_PATTERN. eauto. }
    destruct (run PATTERN (m ++ rest)) as [|[[m' g'] rest'] l] eqn:Hrun.
    { by apply elem_of_nil in Hin. }
    assert ((m', g', rest') ∈ run PATTERN (m ++ rest)) as Hin' by (rewrite Hrun; left).
    apply run_Matches in Hin' as [HM' Heq].
    apply Matches_PATTERN in HM' as (p' & h' & Href' & ->).
    destruct (is_reference_unique _ _ _ _ _ _ _ _ Href Href' Heq) as (-> & -> & -> & _).
    done.
Qed.

Lemma match_here_None s :
  match_here PATTERN s = None <->
  forall m p h rest, s = m ++ rest -> ~ is_reference m p h.
Proof.
  split.
  - intros Hnone m p h rest -> Href.
    assert (match_here PATTERN (m ++ rest) = Some (mkMatch m [(1%nat, p); (2%nat, h)])) as H.
    { apply match_here_Some. by exists p, h, rest. }
    congruence.
  - intros Hno. destruct (match_here PATTERN s) as [M|] eqn:HM; [|done].
    apply match_here_Some in HM as (p & h & rest & Href & _ & ->).
    by destruct (Hno _ _ _ _ eq_refl Href).
Qed.

Lemma reference_of_match m p h :
  reference_of (mkMatch m [(1%nat, p); (2%nat, h)]) = mkRef m p h.
Proof. done. Qed.

(** ** Reading a text from left to right *)

Lemma finditer_from_skip r (u s : str) :
  finditer_from r (length u) (u ++ s) = finditer_from r 0 s.
Proof. induction u as [|c u IH]; [done|]. simpl. apply IH. Qed.

Lemma finditer_nil r : finditer r [] = [].
Proof. done. Qed.

Lemma finditer_none r c s :
  match_here r (c :: s) = None -> finditer r (c :: s) = finditer r s.
Proof. unfold finditer. simpl. by intros ->. Qed.

Lemma finditer_some r M rest :
  match_here r (group0 M ++ rest) = Some M -> group0 M <> [] ->
  finditer r (group0 M ++ rest) = M :: finditer r rest.
Proof.
  unfold finditer. destruct (group0 M) as [|c m] eqn:Hm; [done|]. intros HM _.
  simpl in *. rewrite HM, Hm. simpl. rewrite Nat.sub_0_r. f_equal.
  apply finditer_from_skip.
Qed.

(** Reasoning along the references of a text. *)
Lemma scan_ind (P : str -> Prop) :
  P [] ->
  (forall c s, (forall m p h rest, c :: s = m ++ rest -> ~ is_reference m p h) ->
               P s -> P (c :: s)) ->
  (forall m p h rest, is_reference m p h -> P rest -> P (m ++ rest)) ->
  forall s, P s.
Proof.
  intros Hnil Hskip Href s. remember (length s) as n eqn:Hn.
  revert s Hn. induction n as [n IH] using lt_wf_ind. intros s ->.
  destruct s as [|c s]; [done|].
  destruct (match_here PATTERN (c :: s)) as [M|] eqn:HM.
  - apply match_here_Some in HM as (p & h & rest & Hr & _ & Heq). rewrite Heq.
    apply (Href _ p h); [done|]. apply (IH (length rest)); [|done].
    rewrite Heq, length_app. apply is_reference_nonempty in Hr.
    destruct (group0 M); [done|]. simpl. lia.
  - apply Hskip; [by apply match_here_None|]. apply (IH (length s)); [simpl; lia|done].
Qed.

Lemma finditer_skip c s :
  (forall m p h rest, c :: s = m ++ rest -> ~ is_reference m p h) ->
  finditer PATTERN (c :: s) = finditer PATTERN s.
Proof. intros H. apply finditer_none. by apply match_here_None. Qed.

Lemma finditer_ref m p h rest :
  is_reference m p h ->
  finditer PATTERN (m ++ rest) =
  mkMatch m [(1%nat, p); (2%nat, h)] :: finditer PATTERN rest.
Proof.
  intros Href.
  apply (finditer_some PATTERN (mkMatch m [(1%nat, p); (2%nat, h)])).
  - apply match_here_Some. by exists p, h, rest.
  - by apply is_reference_nonempty in Href.
Qed.

Lemma Scan_finditer s : Scan s (reference_of <$> finditer PATTERN s).
Proof.
  induction s as [|c s Hno IH|m p h rest Href IH] using scan_ind.
  - constructor.
  - rewrite finditer_skip by done. by constructor.
  - rewrite (finditer_ref _ _ _ _ Href). by constructor.
Qed.

Lemma Scan_unique s refs : Scan s refs -> refs = reference_of <$> finditer PATTERN s.
Proof.
  induction 1 as [|c s refs Hno _ IH|m p h rest refs Href _ IH].
  - done.
  - by rewrite finditer_skip.
  - rewrite (finditer_ref _ _ _ _ Href). by rewrite IH.
Qed.

(** ** No whitespace in a path or in a hash *)

Ltac ch_values :=
  unfold plain_char, workflow_char, hex_char, lower_char, digit_char in *;
  change (ch "a") with 97 in *; change (ch "z") with 122 in *;
  change (ch "f") with 102 in *;
  change (ch "0") with 48 in *; change (ch "9") with 57 in *;
  change (ch ".") with 46 in *; change (ch "_") with 95 in *;
  change (ch "/") with 47 in *; change (ch "-") with 45 in *;
  change (ch "@") with 64 in *; change (ch "X") with 88 in *.

Lemma isspace_false_above c : 33 <= c < 133 -> isspace c = false.
Proof.
  intros H. unfold isspace.
  rewrite !orb_false_iff, !andb_false_iff, !N.leb_gt, !N.eqb_neq. lia.
Qed.

Lemma plain_char_not_space c : plain_char c -> isspace c = false.
Proof. intros H. apply isspace_false_above. ch_values. lia. Qed.

Lemma hex_char_not_space c : hex_char c -> isspace c = false.
Proof. intros H. apply isspace_false_above. ch_values. lia. Qed.

Lemma is_path_no_space p : is_path p -> Forall (fun c => isspace c = false) p.
Proof.
  intros [(q & -> & _ & Hq)|[_ Hp]].
  - apply Forall_app. split; [by_compute|].
    eapply Forall_impl; [eassumption|]. by intros c [? _].
  - eapply Forall_impl; [eassumption|]. apply plain_char_not_space.
Qed.

Lemma is_hash_no_space h : is_hash h -> Forall (fun c => isspace c = false) h.
Proof. intros [_ Hh]. eapply Forall_impl; [eassumption|]. apply hex_char_not_space. Qed.

Lemma Scan_references s refs :
  Scan s refs ->
  Forall (fun ref => is_reference (full_match ref) (action_path ref) (current_hash ref)) refs.
Proof. induction 1; [constructor|done|by constructor]. Qed.

(** ** Retargeting the references of a text *)

Lemma retarget_from_skip f (u s : str) :
  retarget_from f (length u) (u ++ s) = retarget_from f 0 s.
Proof. induction u as [|c u IH]; [done|]. simpl. apply IH. Qed.

Lemma retarget_nil f : retarget f [] = [].
Proof. done. Qed.

Lemma retarget_skip f c s :
  (forall m p h rest, c :: s = m ++ rest -> ~ is_reference m p h) ->
  retarget f (c :: s) = c :: retarget f s.
Proof.
  intros H. apply match_here_None in H. unfold retarget. simpl. by rewrite H.
Qed.

Lemma retarget_cons f c s :
  retarget f (c :: s) =
  match match_here PATTERN (c :: s) with
  | Some M =>
      new_reference (reference_of M) (f (reference_of M))
      ++ retarget_from f (length (group0 M) - 1) s
  | None => c :: retarget f s
  end.
Proof. done. Qed.

Lemma retarget_ref f m p h rest :
  is_reference m p h ->
  retarget f (m ++ rest) =
  new_reference (mkRef m p h) (f (mkRef m p h)) ++ retarget f rest.
Proof.
  intros Href.
  assert (match_here PATTERN (m ++ rest) = Some (mkMatch m [(1%nat, p); (2%nat, h)])) as HM.
  { apply match_here_Some. by exists p, h, rest. }
  apply is_reference_nonempty in Href. destruct m as [|c m]; [done|].
  rewrite <- app_comm_cons in *. rewrite retarget_cons, HM, reference_of_match.
  f_equal. cbn [group0 length]. rewrite Nat.sub_1_r. apply retarget_from_skip.
Qed.

Lemma prefix_no_at : ch "@" ∉ lit "XRPLF/actions/".
Proof. by_compute. Qed.

Lemma prefix_path_no_at p : is_path p -> ch "@" ∉ lit "XRPLF/actions/" ++ p.
Proof.
  intros Hp. apply not_elem_of_app. split; [apply prefix_no_at|by apply is_path_no_at].
Qed.

Lemma hex_char_not_X : ~ hex_char (ch "X").
Proof. ch_values. lia. Qed.

Lemma prefix_head : exists s, lit "XRPLF/actions/" = ch "X" :: s.
Proof. by eexists. Qed.

Lemma is_reference_head m p h : is_reference m p h -> exists s, m = ch "X" :: s.
Proof. intros (-> & _). destruct prefix_head as [s ->]. by eexists. Qed.

Lemma new_reference_is_reference m p h h' :
  is_path p -> is_hash h' ->
  is_reference (new_reference (mkRef m p h) h') p h'.
Proof. by intros Hp Hh. Qed.

(** A run of hexadecimal digits of the retargeted text is one of the
    text. *)
Lemma retarget_hex_prefix f s h r :
  retarget f s = h ++ r -> Forall hex_char h -> exists r2, s = h ++ r2.
Proof.
  revert h; induction s as [|c s Hno IH|m p h0 rest Href IH] using scan_ind; intros h Heq Hh.
  - exists []. rewrite retarget_nil in Heq. symmetry in Heq.
    apply app_eq_nil in Heq as [-> _]. done.
  - destruct h as [|d h]; [by eexists|]. rewrite retarget_skip in Heq by done.
    injection Heq as -> Heq. apply Forall_cons in Hh as [_ Hh].
    destruct (IH _ Heq Hh) as [r2 ->]. by exists r2.
  - destruct h as [|d h]; [by eexists|]. rewrite (retarget_ref _ _ _ _ _ Href) in Heq.
    unfold new_reference in Heq. destruct prefix_head as [t Ht]. rewrite Ht in Heq.
    injection Heq as <- _. apply Forall_cons in Hh as [Hd _].
    by destruct hex_char_not_X.
Qed.

Lemma reference_at p h rest :
  (lit "XRPLF/actions/" ++ p ++ lit "@" ++ h) ++ rest =
  (lit "XRPLF/actions/" ++ p) ++ ch "@" :: h ++ rest.
Proof. by rewrite <- !(assoc_L (++)). Qed.

Lemma new_reference_at ref h rest :
  new_reference ref h ++ rest =
  (lit "XRPLF/actions/" ++ action_path ref) ++ ch "@" :: h ++ rest.
Proof. apply reference_at. Qed.

(** A reference at the start of the retargeted text is one, with another
    hash, at the start of the text. *)
Lemma retarget_reference_shape f s v h r :
  retarget f s = v ++ ch "@" :: h ++ r -> ch "@" ∉ v -> is_hash h ->
  exists h2 r2, s = v ++ ch "@" :: h2 ++ r2 /\ is_hash h2.
Proof.
  revert v; induction s as [|c s Hno IH|m p h0 rest Href IH] using scan_ind;
    intros v Heq Hv Hh.
  - rewrite retarget_nil in Heq. by destruct v.
  - rewrite retarget_skip in Heq by done. destruct v as [|d v].
    + injection Heq as -> Heq. destruct Hh as [Hlen Hhex].
      destruct (retarget_hex_prefix _ _ _ _ Heq Hhex) as [r2 ->].
      by exists h, r2.
    + injection Heq as -> Heq. apply not_elem_of_cons in Hv as [_ Hv].
      destruct (IH _ Heq Hv Hh) as (h2 & r2 & -> & Hh2). by exists h2, r2.
  - rewrite (retarget_ref _ _ _ _ _ Href), new_reference_at in Heq.
    destruct Href as (-> & Hp & Hh0). cbn [action_path] in Heq.
    apply first_at_unique in Heq as [<- _]; [|by apply prefix_path_no_at|done].
    exists h0, rest. split; [|done]. apply reference_at.
Qed.

(** Where no reference starts in a text, none starts after retargeting. *)
Lemma retarget_no_reference f c s :
  (forall m p h rest, c :: s = m ++ rest -> ~ is_reference m p h) ->
  forall m p h rest, c :: retarget f s = m ++ rest -> ~ is_reference m p h.
Proof.
  intros Hno m p h rest Heq (-> & Hp & Hh). rewrite <- (retarget_skip f) in Heq by done.
  rewrite reference_at in Heq.
  apply retarget_reference_shape in Heq as (h2 & r2 & Heq & Hh2);
    [|by apply prefix_path_no_at|done].
  apply (Hno (lit "XRPLF/actions/" ++ p ++ lit "@" ++ h2) p h2 r2); [|done].
  rewrite Heq. symmetry. apply reference_at.
Qed.

Lemma Scan_retarget f s refs :
  Scan s refs -> Forall (fun ref => is_hash (f ref)) refs ->
  Scan (retarget f s) (retarget_reference f <$> refs).
Proof.
  induction 1 as [|c s refs Hno _ IH|m p h rest refs Href _ IH]; intros Hf.
  - constructor.
  - rewrite retarget_skip by done. constructor; [by apply retarget_no_reference|auto].
  - apply Forall_cons in Hf as [Hh Hf]. rewrite (retarget_ref _ _ _ _ _ Href).
    rewrite fmap_cons. unfold retarget_reference at 1. simpl action_path.
    apply Scan_ref; [|auto]. destruct Href as (_ & Hp & _). by apply new_reference_is_reference.
Qed.

Lemma retarget_compose f g s refs :
  Scan s refs -> Forall (fun ref => is_hash (f ref)) refs ->
  retarget g (retarget f s) = retarget (fun ref => g (retarget_reference f ref)) s.
Proof.
  induction 1 as [|c s refs Hno _ IH|m p h rest refs Href _ IH]; intros Hf.
  - done.
  - rewrite (retarget_skip f), (retarget_skip _ c s) by done.
    rewrite retarget_skip by (by apply retarget_no_reference). f_equal. auto.
  - apply Forall_cons in Hf as [Hh Hf]. rewrite !(retarget_ref _ _ _ _ _ Href).
    assert (is_reference (new_reference (mkRef m p h) (f (mkRef m p h))) p (f (mkRef m p h)))
      as Href' by (destruct Href as (_ & Hp & _); by apply new_reference_is_reference).
    rewrite (retarget_ref _ _ _ _ _ Href'). f_equal. auto.
Qed.

Lemma retarget_ext f g s refs :
  Scan s refs -> Forall (fun ref => f ref = g ref) refs -> retarget f s = retarget g s.
Proof.
  induction 1 as [|c s refs Hno _ IH|m p h rest refs Href _ IH]; intros Hf.
  - done.
  - rewrite !retarget_skip by done. f_equal. auto.
  - apply Forall_cons in Hf as [Hh Hf]. rewrite !(retarget_ref _ _ _ _ _ Href).
    rewrite Hh. f_equal. auto.
Qed.

Lemma retarget_id f s refs :
  Scan s refs -> Forall (fun ref => f ref = current_hash ref) refs -> retarget f s = s.
Proof.
  induction 1 as [|c s refs Hno _ IH|m p h rest refs Href _ IH]; intros Hf.
  - done.
  - rewrite retarget_skip by done. f_equal. auto.
  - apply Forall_cons in Hf as [Hh Hf]. rewrite (retarget_ref _ _ _ _ _ Href).
    rewrite Hh. destruct Href as (-> & _). unfold new_reference. cbn [action_path current_hash].
    f_equal. auto.
Qed.

Lemma is_hash_full h : is_hash h -> is_full_hash h.
Proof. intros [Hlen Hhex]. split; [lia|done]. Qed.

Lemma is_full_hash_take h :
  is_full_hash h -> is_hash (take 40 h) /\ Forall hex_char (drop 40 h).
Proof.
  intros [Hlen Hhex]. split; [split|].
  - rewrite length_take. lia.
  - by apply Forall_take.
  - by apply Forall_drop.
Qed.

Lemma Rewritten_retarget f s refs :
  Scan s refs -> Forall (fun ref => is_full_hash (f ref)) refs -> Rewritten s (retarget f s).
Proof.
  induction 1 as [|c s refs Hno _ IH|m p h rest refs Href _ IH]; intros Hf.
  - constructor.
  - rewrite retarget_skip by done. constructor; auto.
  - apply Forall_cons in Hf as [Hh Hf]. rewrite (retarget_ref _ _ _ _ _ Href).
    unfold new_reference. cbn [action_path]. rewrite <- !(assoc_L (++)).
    apply (Rewritten_ref m p h); auto.
Qed.

(** ** [str.replace] *)

Lemma replace_from_skip old new (u s : str) :
  replace_from old new (length u) (u ++ s) = replace_from old new 0 s.
Proof. induction u as [|c u IH]; [done|]. simpl. apply IH. Qed.

Lemma replace_nil old new : old <> [] -> replace old new [] = [].
Proof. by destruct old. Qed.

Lemma replace_cons_no old new c s :
  old <> [] -> startswith (c :: s) old = false ->
  replace old new (c :: s) = c :: replace old new s.
Proof. destruct old as [|a old]; [done|]. intros _ H. unfold replace. simpl. by rewrite H. Qed.

Lemma replace_occurrence old new s :
  old <> [] -> replace old new (old ++ s) = new ++ replace old new s.
Proof.
  destruct old as [|a old]; [done|]. intros _. unfold replace.
  assert (startswith ((a :: old) ++ s) (a :: old) = true) as H
    by (apply startswith_true; eauto).
  rewrite <- app_comm_cons in *. cbn [replace_from]. rewrite H.
  cbn [length]. rewrite Nat.sub_1_r. cbn [Nat.pred]. f_equal. apply replace_from_skip.
Qed.

Lemma replace_block old new u s :
  old <> [] ->
  (forall u1 u2, u = u1 ++ u2 -> u2 <> [] -> startswith (u2 ++ s) old = false) ->
  replace old new (u ++ s) = u ++ replace old new s.
Proof.
  intros Hold. induction u as [|c u IH]; intros Hno; [done|].
  rewrite <- !app_comm_cons. rewrite replace_cons_no; [|done|by apply (Hno [] (c :: u))].
  f_equal. apply IH. intros u1 u2 -> Hu2. by apply (Hno (c :: u1) u2).
Qed.

(** An occurrence of a reference that starts inside of another one ends
    with it, at the same hash. *)
Lemma occurrence_in_reference p h p1 h1 u1 u2 rest t :
  is_path p -> is_hash h -> is_path p1 -> is_hash h1 ->
  (lit "XRPLF/actions/" ++ p1) ++ ch "@" :: h1 = u1 ++ u2 -> u2 <> [] ->
  u2 ++ rest = (lit "XRPLF/actions/" ++ p) ++ ch "@" :: h ++ t ->
  h1 = h /\ lit "XRPLF/actions/" ++ p1 = u1 ++ lit "XRPLF/actions/" ++ p.
Proof.
  intros Hp Hh Hp1 Hh1 Hsplit Hu2 Hocc.
  apply app_eq_app in Hsplit as [l [[HA ->]|[-> HB]]].
  - rewrite <- (assoc_L (++)) in Hocc. cbn [app] in Hocc.
    apply first_at_unique in Hocc as [-> Hocc]; [| |by apply prefix_path_no_at].
    + apply app_inj_1 in Hocc as [-> _]; [done|]. destruct Hh, Hh1. congruence.
    + intros Hin. apply (prefix_path_no_at p1 Hp1). rewrite HA, elem_of_app. tauto.
  - exfalso. destruct prefix_head as [x Hx]. rewrite Hx in Hocc.
    destruct l as [|c l].
    + simpl in HB. subst u2. by injection Hocc.
    + injection HB as <- ->. destruct u2 as [|d u2]; [done|].
      injection Hocc as -> _. destruct Hh1 as [_ Hh1].
      apply Forall_app in Hh1 as [_ Hh1]. apply Forall_cons in Hh1 as [Hd _].
      by apply hex_char_not_X.
Qed.

Lemma reference_nonempty p h : lit "XRPLF/actions/" ++ p ++ lit "@" ++ h <> [].
Proof. destruct prefix_head as [x ->]. done. Qed.

(** [replace], of a reference by one to the same path, retargets. *)
Lemma replace_retarget p h h' s :
  is_path p -> is_hash h ->
  replace (lit "XRPLF/actions/" ++ p ++ lit "@" ++ h)
          (lit "XRPLF/actions/" ++ p ++ lit "@" ++ h') s
  = retarget (replaced_hash p h h') s.
Proof.
  intros Hp Hh. pose proof (reference_nonempty p h) as Hold.
  induction s as [|c s Hno IH|m p1 h1 rest Href IH] using scan_ind.
  - by rewrite replace_nil.
  - rewrite retarget_skip by done. rewrite replace_cons_no; [by f_equal|done|].
    apply startswith_false. intros s' Heq. by apply (Hno _ p h s' Heq).
  - rewrite (retarget_ref _ _ _ _ _ Href). destruct Href as (-> & Hp1 & Hh1).
    unfold replaced_hash at 1. cbn [action_path current_hash].
    destruct (decide _) as [[-> [u Hu]]|Hne].
    + assert (lit "XRPLF/actions/" ++ p1 ++ lit "@" ++ h =
              u ++ lit "XRPLF/actions/" ++ p ++ lit "@" ++ h) as ->.
      { rewrite !(assoc_L (++) (lit "XRPLF/actions/")), Hu. by rewrite <- !(assoc_L (++)). }
      rewrite <- (assoc_L (++) u). rewrite replace_block; [|done|].
      * rewrite replace_occurrence by done. rewrite IH. unfold new_reference.
        cbn [action_path]. rewrite !(assoc_L (++)). do 3 f_equal.
        rewrite <- !(assoc_L (++)). by rewrite <- Hu.
      * intros u1 u2 -> Hu2. apply startswith_false. intros t Heq.
        rewrite (reference_at p h t) in Heq.
        assert ((lit "XRPLF/actions/" ++ p1) ++ ch "@" :: h =
                u1 ++ (u2 ++ lit "XRPLF/actions/" ++ p ++ lit "@" ++ h)) as Hsplit.
        { rewrite Hu. by rewrite <- !(assoc_L (++)). }
        rewrite (assoc_L (++) u2) in Heq.
        destruct (occurrence_in_reference p h p1 h u1
                    (u2 ++ lit "XRPLF/actions/" ++ p ++ lit "@" ++ h) rest t)
          as [_ Heq2]; [done..|by destruct u2|done|].
        rewrite Hu, <- (assoc_L (++)) in Heq2. apply app_inv_head in Heq2.
        apply (f_equal length) in Heq2. rewrite length_app in Heq2.
        destruct u2; [done|]. simpl in Heq2. lia.
    + rewrite replace_block; [|done|].
      * rewrite IH. unfold new_reference. cbn [action_path].
        by rewrite <- !(assoc_L (++)).
      * intros u1 u2 Hsplit Hu2. apply startswith_false. intros t Heq.
        rewrite (reference_at p h t) in Heq.
        rewrite (assoc_L (++) (lit "XRPLF/actions/")) in Hsplit.
        destruct (occurrence_in_reference p h p1 h1 u1 u2 rest t) as [-> Hsuf]; [done..|].
        apply Hne. split; [done|]. by exists u1.
Qed.

(** No reference starts inside a run of hexadecimal digits. *)
Lemma replace_digits old_p old_h new x s :
  Forall hex_char x ->
  replace (lit "XRPLF/actions/" ++ old_p ++ lit "@" ++ old_h) new (x ++ s)
  = x ++ replace (lit "XRPLF/actions/" ++ old_p ++ lit "@" ++ old_h) new s.
Proof.
  intros Hx. apply replace_block; [apply reference_nonempty|].
  intros u1 u2 -> Hu2. apply startswith_false. intros t Heq.
  destruct u2 as [|d u2]; [done|]. destruct prefix_head as [y Hy]. rewrite Hy in Heq.
  injection Heq as -> _. apply Forall_app in Hx as [_ Hx]. apply Forall_cons in Hx as [Hd _].
  by apply hex_char_not_X.
Qed.

(** [replace], of a reference by one to the same path, on a reference and
    what follows it. *)
Lemma replace_reference p h h' p1 h1 t :
  is_path p -> is_hash h -> is_path p1 -> is_hash h1 ->
  replace (lit "XRPLF/actions/" ++ p ++ lit "@" ++ h)
          (lit "XRPLF/actions/" ++ p ++ lit "@" ++ h')
          ((lit "XRPLF/actions/" ++ p1 ++ lit "@" ++ h1) ++ t)
  = (lit "XRPLF/actions/" ++ p1 ++ lit "@"
     ++ if decide (h1 = h /\
                   (lit "XRPLF/actions/" ++ p) `suffix_of` (lit "XRPLF/actions/" ++ p1))
        then h' else h1)
    ++ replace (lit "XRPLF/actions/" ++ p ++ lit "@" ++ h)
               (lit "XRPLF/actions/" ++ p ++ lit "@" ++ h') t.
Proof.
  intros Hp Hh Hp1 Hh1. pose proof (reference_nonempty p h) as Hold.
  destruct (decide _) as [[-> [u Hu]]|Hne].
  - assert (lit "XRPLF/actions/" ++ p1 ++ lit "@" ++ h =
            u ++ lit "XRPLF/actions/" ++ p ++ lit "@" ++ h) as ->.
    { rewrite !(assoc_L (++) (lit "XRPLF/actions/")), Hu. by rewrite <- !(assoc_L (++)). }
    rewrite <- (assoc_L (++) u). rewrite replace_block; [|done|].
    + rewrite replace_occurrence by done.
      rewrite !(assoc_L (++)). do 3 f_equal. rewrite <- !(assoc_L (++)). by rewrite <- Hu.
    + intros u1 u2 -> Hu2. apply startswith_false. intros t' Heq.
      rewrite (reference_at p h t') in Heq.
      assert ((lit "XRPLF/actions/" ++ p1) ++ ch "@" :: h =
              u1 ++ (u2 ++ lit "XRPLF/actions/" ++ p ++ lit "@" ++ h)) as Hsplit.
      { rewrite Hu. by rewrite <- !(assoc_L (++)). }
      rewrite (assoc_L (++) u2) in Heq.
      destruct (occurrence_in_reference p h p1 h u1
                  (u2 ++ lit "XRPLF/actions/" ++ p ++ lit "@" ++ h) t t')
        as [_ Heq2]; [done..|by destruct u2|done|].
      rewrite Hu, <- (assoc_L (++)) in Heq2. apply app_inv_head in Heq2.
      apply (f_equal length) in Heq2. rewrite length_app in Heq2.
      destruct u2; [done|]. simpl in Heq2. lia.
  - rewrite replace_block; [by rewrite <- !(assoc_L (++))|done|].
    intros u1 u2 Hsplit Hu2. apply startswith_false. intros t' Heq.
    rewrite (reference_at p h t') in Heq.
    rewrite (assoc_L (++) (lit "XRPLF/actions/")) in Hsplit.
    destruct (occurrence_in_reference p h p1 h1 u1 u2 t t') as [-> Hsuf]; [done..|].
    apply Hne. split; [done|]. by exists u1.
Qed.

(** [replace], of a reference by one to the same path, on a text whose
    references were given other digits. *)
Lemma replace_retargeted p h h' G s refs :
  is_path p -> is_hash h ->
  Scan s refs -> Forall (fun ref => is_full_hash (G ref)) refs ->
  replace (lit "XRPLF/actions/" ++ p ++ lit "@" ++ h)
          (lit "XRPLF/actions/" ++ p ++ lit "@" ++ h') (retarget G s)
  = retarget (replaced_digits p h h' G) s.
Proof.
  intros Hp Hh Hscan. pose proof (reference_nonempty p h) as Hold.
  induction Hscan as [|c s refs Hno _ IH|m p1 h1 rest refs Href _ IH]; intros HG.
  - by rewrite replace_nil.
  - rewrite !retarget_skip by done. rewrite replace_cons_no; [by rewrite IH|done|].
    apply startswith_false. intros s' Heq.
    by apply (retarget_no_reference G c s Hno _ p h s' Heq).
  - apply Forall_cons in HG as [HX HG]. rewrite !(retarget_ref _ _ _ _ _ Href).
    destruct Href as (Hm & Hp1 & Hh1).
    set (X := G (mkRef m p1 h1)) in *. destruct (is_full_hash_take X HX) as [Hh2 HX2].
    unfold new_reference. cbn [action_path].
    rewrite <- (take_drop 40 X) at 1.
    assert ((lit "XRPLF/actions/" ++ p1 ++ lit "@" ++ take 40 X ++ drop 40 X)
            ++ retarget G rest
            = (lit "XRPLF/actions/" ++ p1 ++ lit "@" ++ take 40 X)
              ++ drop 40 X ++ retarget G rest) as ->
      by (by rewrite <- !(assoc_L (++))).
    rewrite replace_reference by done. rewrite replace_digits by done. rewrite IH by done.
    assert (replaced_digits p h h' G (mkRef m p1 h1)
            = (if decide (take 40 X = h /\
                          (lit "XRPLF/actions/" ++ p) `suffix_of` (lit "XRPLF/actions/" ++ p1))
               then h' else take 40 X) ++ drop 40 X) as ->.
    { unfold replaced_digits. cbn [action_path]. fold X.
      destruct (decide _); [done|]. by rewrite take_drop. }
    by rewrite <- !(assoc_L (++)).
Qed.

Lemma replaced_digits_full p h h' G ref :
  is_full_hash h' -> is_full_hash (G ref) -> is_full_hash (replaced_digits p h h' G ref).
Proof.
  intros [Hlen Hhex] HG. unfold replaced_digits. destruct (decide _); [|done].
  destruct (is_full_hash_take _ HG) as [_ Hd]. split.
  - rewrite length_app. lia.
  - by apply Forall_app.
Qed.

(** ** Nested references *)

Lemma contains_true s sub : contains s sub = true <-> exists u v, s = u ++ sub ++ v.
Proof.
  induction s as [|c s IH]; simpl; rewrite orb_true_iff, startswith_true.
  - split.
    + intros [[v ->]|?]; [by exists [], v|done].
    + intros (u & v & Heq). left. destruct u; [by exists v|done].
  - rewrite IH. split.
    + intros [[v ->]|(u & v & ->)]; [by exists [], v|by exists (c :: u), v].
    + intros ([|d u] & v & Heq); [left; by exists v|right].
      injection Heq as -> ->. by exists u, v.
Qed.

Lemma contains_false s sub : contains s sub = false <-> forall u v, s <> u ++ sub ++ v.
Proof.
  rewrite <- not_true_iff_false, contains_true. split.
  - intros H u v ->. apply H. eauto.
  - intros H (u & v & ->). by apply (H u v).
Qed.

Lemma prefix_no_inner_X k l :
  lit "XRPLF/actions/" = k ++ ch "X" :: l -> k <> [] -> False.
Proof.
  intros Heq Hk. destruct k as [|c k]; [done|].
  assert (ch "X" ∈ k ++ ch "X" :: l) as Hin by (rewrite elem_of_app, elem_of_cons; tauto).
  change (lit "XRPLF/actions/") with (ch "X" :: lit "RPLF/actions/") in Heq.
  rewrite <- app_comm_cons in Heq.
  assert (lit "RPLF/actions/" = k ++ ch "X" :: l) as Heq' by congruence.
  rewrite <- Heq' in Hin. revert Hin. by_compute.
Qed.

(** The path of a reference that ends a reference to a path which has no
    reference prefix inside is that path. *)
Lemma suffix_unnested p p1 :
  contains p1 (lit "XRPLF/actions/") = false ->
  (lit "XRPLF/actions/" ++ p) `suffix_of` (lit "XRPLF/actions/" ++ p1) ->
  p = p1.
Proof.
  intros Hno [k Hk]. rewrite contains_false in Hno.
  destruct k as [|c k]; [symmetry; by apply (app_inv_head (lit "XRPLF/actions/"))|]. exfalso.
  apply app_eq_app in Hk as [l [[Hpre Hp]|[Hk Hp1]]].
  - destruct l as [|d l].
    + apply (Hno [] p). symmetry. exact Hp.
    + destruct prefix_head as [x Hx]. rewrite Hx in Hp at 1. injection Hp as <- _.
      by apply (prefix_no_inner_X (c :: k) l).
  - by apply (Hno l p).
Qed.

(** ** The loop over the references of a file, on the content *)

Lemma is_reference_eq ref ref' :
  is_reference (full_match ref) (action_path ref) (current_hash ref) ->
  is_reference (full_match ref') (action_path ref') (current_hash ref') ->
  action_path ref = action_path ref' -> current_hash ref = current_hash ref' ->
  ref = ref'.
Proof.
  destruct ref, ref'. simpl. intros (-> & _) (-> & _) -> ->. done.
Qed.

Lemma apply_update_retarget hash_mapping ref content :
  is_reference (full_match ref) (action_path ref) (current_hash ref) ->
  current_hash ref <> latest hash_mapping ref ->
  apply_update hash_mapping content ref =
  retarget (replaced_hash (action_path ref) (current_hash ref) (latest hash_mapping ref))
           content.
Proof.
  intros (Hm & Hp & Hh) Hne. unfold apply_update. rewrite decide_False by done.
  rewrite Hm. unfold new_reference. by apply replace_retarget.
Qed.

(** Whatever the references looked for, the loop changes digits of
    references of the content, and nothing else. *)
Lemma foldl_apply_update_Rewritten hash_mapping s refs0 refs :
  Scan s refs0 ->
  Forall (fun ref =>
            is_reference (full_match ref) (action_path ref) (current_hash ref) /\
            is_full_hash (latest hash_mapping ref)) refs ->
  exists G, foldl (apply_update hash_mapping) s refs = retarget G s /\
            Forall (fun ref => is_full_hash (G ref)) refs0.
Proof.
  intros Hscan Hrefs.
  assert (exists G, s = retarget G s /\ Forall (fun ref => is_full_hash (G ref)) refs0)
    as (G & HG & HhG).
  { exists current_hash. split.
    - symmetry. apply (retarget_id _ _ refs0); [done|]. by apply Forall_true.
    - eapply Forall_impl; [by apply (Scan_references s)|].
      intros ref (_ & _ & ?). by apply is_hash_full. }
  revert HG. generalize s at 1 3 as content. revert G HhG.
  induction Hrefs as [|r refs [Hr Hl] _ IH]; intros G HhG content HG; [by exists G|].
  simpl. destruct (decide (current_hash r = latest hash_mapping r)) as [Heq|Hne].
  - unfold apply_update at 2. rewrite decide_True by done. by apply (IH G).
  - unfold apply_update at 2. rewrite decide_False by done.
    destruct Hr as (Hm & Hp & Hh). rewrite Hm, HG. unfold new_reference.
    rewrite (replace_retargeted _ _ _ _ _ refs0) by done.
    eapply IH; [|reflexivity].
    eapply Forall_impl; [exact HhG|]. intros ref Href. by apply replaced_digits_full.
Qed.

(** Where no reference is nested in another one, the loop leaves every
    reference at the hash the mapping holds for its path. *)
Lemma foldl_apply_update_unnested hash_mapping s refs0 refs :
  Scan s refs0 ->
  (forall ref, ref ∈ refs0 -> contains (action_path ref) (lit "XRPLF/actions/") = false) ->
  (forall ref, ref ∈ refs0 -> is_hash (latest hash_mapping ref)) ->
  (forall ref, ref ∈ refs <-> ref ∈ refs0) ->
  foldl (apply_update hash_mapping) s refs = retarget (latest hash_mapping) s.
Proof.
  intros Hscan Hnest Hlatest Hrefs.
  set (Gd := fun (seen : list ActionReference) (ref : ActionReference) =>
               if decide (ref ∈ seen) then latest hash_mapping ref else current_hash ref).
  pose proof (Scan_references _ _ Hscan) as Hvalid. rewrite Forall_forall in Hvalid.
  assert (forall seen, Forall (fun ref => is_hash (Gd seen ref)) refs0) as HhG.
  { intros seen. apply Forall_forall. intros ref Hin. unfold Gd.
    destruct (decide _); [by apply Hlatest|]. by destruct (Hvalid _ Hin) as (_ & _ & ?). }
  assert (forall seen, (forall ref, ref ∈ refs -> ref ∈ refs0) ->
            foldl (apply_update hash_mapping) (retarget (Gd seen) s) refs
            = retarget (Gd (reverse refs ++ seen)) s) as Hloop.
  { clear Hrefs. induction refs as [|r refs IH]; intros seen Hsub; [done|].
    rewrite reverse_cons, <- (assoc_L (++)). simpl. rewrite <- IH by (intros ? ?; apply Hsub, elem_of_cons; tauto).
    f_equal. assert (r ∈ refs0) as Hr by (apply Hsub, elem_of_cons; tauto).
    destruct (decide (current_hash r = latest hash_mapping r)) as [Heq|Hne].
    - unfold apply_update. rewrite decide_True by done.
      apply (retarget_ext _ _ _ refs0); [done|]. apply Forall_forall. intros ref Hin.
      unfold Gd. destruct (decide (ref = r)) as [->|Hnr].
      + rewrite (decide_True (P := r ∈ r :: seen)) by (rewrite elem_of_cons; tauto).
        by destruct (decide _).
      + destruct (decide (ref ∈ seen)).
        * by rewrite decide_True by (rewrite elem_of_cons; tauto).
        * by rewrite decide_False by (rewrite elem_of_cons; tauto).
    - rewrite apply_update_retarget by auto.
      rewrite (retarget_compose _ _ _ refs0) by done.
      apply (retarget_ext _ _ _ refs0); [done|]. apply Forall_forall. intros ref Hin.
      unfold replaced_hash. cbn [retarget_reference current_hash action_path].
      destruct (decide _) as [[HG Hsuf]|Hno].
      + apply suffix_unnested in Hsuf; [|by apply Hnest]. unfold Gd in HG |- *.
        destruct (decide (ref ∈ seen)) as [Hd|Hd].
        * exfalso. apply Hne. rewrite <- HG. unfold latest. rewrite Hsuf.
          destruct (hash_mapping !! action_path ref) eqn:Hl; [done|].
          unfold latest in Hne. rewrite Hsuf, Hl in Hne. done.
        * assert (r = ref) as <- by (apply is_reference_eq; auto).
          by rewrite decide_True by (rewrite elem_of_cons; tauto).
      + unfold Gd. destruct (decide (ref = r)) as [->|Hnr].
        * destruct (decide (r ∈ seen)) as [Hd|Hd].
          -- by rewrite decide_True by (rewrite elem_of_cons; tauto).
          -- exfalso. apply Hno. unfold Gd. by rewrite decide_False.
        * destruct (decide (ref ∈ seen)).
          -- by rewrite decide_True by (rewrite elem_of_cons; tauto).
          -- by rewrite decide_False by (rewrite elem_of_cons; tauto). }
  assert (s = retarget (Gd []) s) as Hs.
  { symmetry. apply (retarget_id _ _ refs0); [done|]. apply Forall_forall.
    intros ref _. unfold Gd. by rewrite decide_False by apply not_elem_of_nil. }
  rewrite Hs at 1. rewrite Hloop by (intros ?; apply Hrefs).
  apply (retarget_ext _ _ _ refs0); [done|]. apply Forall_forall. intros ref Hin.
  unfold Gd. rewrite decide_True; [done|]. rewrite app_nil_r, elem_of_reverse.
  by apply Hrefs.
Qed.

(** ** Running the script: the monad *)

Lemma bind_run {A B} (m : M A) (f : A -> M B) w :
  (m ≫= f) w =
  match m w with
  | (Ok a, w') => f a w'
  | (Raised e, w') => (Raised e, w')
  end.
Proof. done. Qed.

Lemma ret_run {A} (a : A) w : mret (M := M) a w = (Ok a, w).
Proof. done. Qed.

Lemma log_events_nil w : log_events w [] = w.
Proof. destruct w. unfold log_events. simpl. by rewrite app_nil_r. Qed.

Lemma log_events_app w es es' :
  log_events (log_events w es) es' = log_events w (es ++ es').
Proof. unfold log_events. simpl. by rewrite (assoc_L (++)). Qed.

Lemma log_calls_nil w : log_calls w [] = w.
Proof. destruct w. unfold log_calls. simpl. by rewrite app_nil_r. Qed.

Lemma log_calls_app w qs qs' :
  log_calls (log_calls w qs) qs' = log_calls w (qs ++ qs').
Proof. unfold log_calls. simpl. by rewrite (assoc_L (++)). Qed.

Lemma foldM_nil {A B} (f : B -> A -> M B) b w : foldM f b [] w = (Ok b, w).
Proof. done. Qed.

Lemma foldM_cons {A B} (f : B -> A -> M B) b a l w :
  foldM f b (a :: l) w =
  match f b a w with
  | (Ok b', w') => foldM f b' l w'
  | (Raised e, w') => (Raised e, w')
  end.
Proof. done. Qed.

Lemma foldM_app {A B} (f : B -> A -> M B) b l1 l2 w :
  foldM f b (l1 ++ l2) w =
  match foldM f b l1 w with
  | (Ok b', w') => foldM f b' l2 w'
  | (Raised e, w') => (Raised e, w')
  end.
Proof.
  revert b w; induction l1 as [|a l1 IH]; intros b w; [done|].
  rewrite <- app_comm_cons, !foldM_cons. destruct (f b a w) as [[b'|e] w']; [apply IH|done].
Qed.

(** ** A [dict] in insertion order *)

Lemma dict_set_elem_of {K V} `{EqDecision K} (k k' : K) (v v' : V) d :
  (k', v') ∈ dict_set k v d -> (k' = k /\ v' = v) \/ (k' <> k /\ (k', v') ∈ d) \/
                                (k' = k /\ (k', v') ∈ d).
Proof.
  induction d as [|[k0 v0] d IH]; simpl.
  - rewrite list_elem_of_singleton. intros [= -> ->]. by left.
  - destruct (decide (k = k0)) as [->|Hne]; rewrite !elem_of_cons.
    + intros [[= -> ->]|Hin]; [by left|].
      destruct (decide (k' = k0)) as [->|]; [right; right|right; left]; auto.
    + intros [[= -> ->]|Hin]; [right; left; auto|].
      destruct (IH Hin) as [?|[[? ?]|[? ?]]]; auto.
Qed.

Lemma dict_set_keys {K V} `{EqDecision K} (k : K) (v : V) d :
  NoDup d.*1 -> NoDup (dict_set k v d).*1 /\
                (forall k', k' ∈ (dict_set k v d).*1 <-> k' = k \/ k' ∈ d.*1).
Proof.
  induction d as [|[k0 v0] d IH]; simpl; intros Hnd.
  - split; [apply NoDup_singleton|]. intros k'. rewrite list_elem_of_singleton, elem_of_nil. tauto.
  - apply NoDup_cons in Hnd as [Hk0 Hnd]. destruct (decide (k = k0)) as [->|Hne]; simpl.
    + split; [by apply NoDup_cons|]. intros k'. rewrite !elem_of_cons. tauto.
    + destruct (IH Hnd) as [Hnd' Hkeys]. split.
      * apply NoDup_cons. split; [|done]. rewrite Hkeys. intros [->|?]; done.
      * intros k'. rewrite !elem_of_cons, Hkeys. tauto.
Qed.

Lemma dict_set_lookup {K V} `{EqDecision K} (k : K) (v : V) d :
  (k, v) ∈ dict_set k v d.
Proof.
  induction d as [|[k0 v0] d IH]; simpl; [by left|].
  destruct (decide (k = k0)) as [->|Hne]; [by left|by right].
Qed.

Lemma dict_set_other {K V} `{EqDecision K} (k k' : K) (v v' : V) d :
  k' <> k -> (k', v') ∈ d -> (k', v') ∈ dict_set k v d.
Proof.
  intros Hne. induction d as [|[k0 v0] d IH]; simpl; [by rewrite elem_of_nil|].
  rewrite elem_of_cons. intros [[= <- <-]|Hin].
  - rewrite decide_False by done. by left.
  - destruct (decide (k = k0)); right; auto.
Qed.

(** ** The scanner on the disk *)

Section Scanner.

Variable set_iter : list ActionReference -> list ActionReference.

Lemma read_text_run p w :
  read_text p w =
  match text_at (disk w) p with
  | Some c => (Ok c, w)
  | None => (Raised (read_error (disk w) p), w)
  end.
Proof.
  unfold read_text, text_at, read_error. by destruct (resolve (disk w) p) as [[|]|].
Qed.

Lemma find_action_references_run f w :
  find_action_references set_iter f w =
  match scan_file set_iter (disk w) f with
  | Some refs => (Ok refs, w)
  | None => (Raised (read_error (disk w) f), w)
  end.
Proof.
  unfold find_action_references, scan_file. rewrite bind_run, read_text_run.
  by destruct (text_at (disk w) f).
Qed.

Lemma collect_file_run acc f w :
  collect_file set_iter acc f w =
  match scan_file set_iter (disk w) f with
  | Some _ => (Ok (collect_step set_iter (disk w) acc f),
               log_events w (found_event set_iter (disk w) f))
  | None => (Raised (read_error (disk w) f), w)
  end.
Proof.
  unfold collect_file, collect_step, found_event.
  rewrite bind_run, find_action_references_run.
  destruct (scan_file set_iter (disk w) f) as [[|r refs]|]; [|done..].
  by rewrite ret_run, log_events_nil.
Qed.

Lemma found_events_found d files :
  Forall (fun e => is_found e = true) (files ≫= found_event set_iter d).
Proof.
  apply Forall_forall. intros e Hin. apply list_elem_of_bind in Hin as (f & Hin & _).
  unfold found_event in Hin. destruct (scan_file set_iter d f) as [[|r refs]|].
  - by apply elem_of_nil in Hin.
  - by apply list_elem_of_singleton in Hin as ->.
  - by apply elem_of_nil in Hin.
Qed.

(** The loop of the scanner reads, prints what it finds, and stops at the
    first path it cannot read. *)
Lemma collect_loop_run files acc w :
  (Forall (fun f => is_Some (text_at (disk w) f)) files /\
   foldM (collect_file set_iter) acc files w =
   (Ok (foldl (collect_step set_iter (disk w)) acc files),
    log_events w (files ≫= found_event set_iter (disk w))))
  \/
  (exists f evs,
      f ∈ files /\ text_at (disk w) f = None /\
      Forall (fun e => is_found e = true) evs /\
      foldM (collect_file set_iter) acc files w =
      (Raised (read_error (disk w) f), log_events w evs)).
Proof.
  revert acc w. induction files as [|f files IH]; intros acc w.
  { left. split; [constructor|]. by rewrite foldM_nil, log_events_nil. }
  rewrite foldM_cons, collect_file_run. unfold scan_file.
  destruct (text_at (disk w) f) as [c|] eqn:Hc; simpl.
  - destruct (IH (collect_step set_iter (disk w) acc f)
                 (log_events w (found_event set_iter (disk w) f)))
      as [[Hall Hrun]|(f' & evs & Hin & Hnone & Hevs & Hrun)]; simpl in *.
    + left. split; [constructor; [by eexists|done]|].
      rewrite Hrun, log_events_app. done.
    + right. exists f', (found_event set_iter (disk w) f ++ evs).
      split; [by right|]. split; [done|]. split.
      * apply Forall_app. split; [|done].
        pose proof (found_events_found (disk w) [f]) as H.
        by rewrite bind_cons, app_nil_r in H.
      * by rewrite Hrun, log_events_app.
  - right. exists f, []. split; [by left|]. split; [done|]. split; [constructor|].
    by rewrite log_events_nil.
Qed.

(** What the loop collects. *)
Lemma collected_invariant d files acc :
  NoDup acc.*1 ->
  (forall f refs, (f, refs) ∈ acc -> scan_file set_iter d f = Some refs /\ refs <> []) ->
  let res := foldl (collect_step set_iter d) acc files in
  NoDup res.*1 /\
  (forall f refs, (f, refs) ∈ res ->
                  scan_file set_iter d f = Some refs /\ refs <> [] /\
                  (f ∈ files \/ (f, refs) ∈ acc)) /\
  (forall f refs, (f ∈ files \/ (f, refs) ∈ acc) ->
                  scan_file set_iter d f = Some refs -> refs <> [] ->
                  (f, refs) ∈ res).
Proof.
  revert acc. induction files as [|f0 files IH]; intros acc Hnd Hacc; simpl.
  { split; [done|]. split.
    - intros f refs Hin. destruct (Hacc _ _ Hin). auto.
    - intros f refs [Hin|Hin] _ _; [by apply elem_of_nil in Hin|done]. }
  assert (NoDup (collect_step set_iter d acc f0).*1 /\
          (forall f refs, (f, refs) ∈ collect_step set_iter d acc f0 ->
                          scan_file set_iter d f = Some refs /\ refs <> [] /\
                          (f = f0 \/ (f, refs) ∈ acc)) /\
          (forall f refs, (f = f0 \/ (f, refs) ∈ acc) ->
                          scan_file set_iter d f = Some refs -> refs <> [] ->
                          (f, refs) ∈ collect_step set_iter d acc f0))
    as (Hnd' & Hsound & Hcomplete).
  { unfold collect_step. destruct (scan_file set_iter d f0) as [[|r refs0]|] eqn:Hscan.
    - split; [done|]. split.
      + intros f refs Hin. destruct (Hacc _ _ Hin). auto.
      + intros f refs [->|Hin] Hs Hne; [congruence|done].
    - split; [by apply dict_set_keys|]. split.
      + intros f refs Hin. apply dict_set_elem_of in Hin as [[-> ->]|[[? Hin]|[-> Hin]]].
        * auto.
        * destruct (Hacc _ _ Hin). auto.
        * destruct (Hacc _ _ Hin). auto.
      + intros f refs [->|Hin] Hs Hne.
        * assert (refs = r :: refs0) as -> by congruence. apply dict_set_lookup.
        * destruct (decide (f = f0)) as [->|Hnf].
          -- assert (refs = r :: refs0) as -> by congruence. apply dict_set_lookup.
          -- by apply dict_set_other.
    - split; [done|]. split.
      + intros f refs Hin. destruct (Hacc _ _ Hin). auto.
      + intros f refs [->|Hin] Hs Hne; [congruence|done]. }
  destruct (IH (collect_step set_iter d acc f0) Hnd') as (Hnd'' & Hs & Hc).
  { intros f refs Hin. destruct (Hsound _ _ Hin) as (? & ? & _). auto. }
  split; [done|]. split.
  - intros f refs Hin. destruct (Hs _ _ Hin) as (? & ? & [?|Hin']).
    + split; [done|]. split; [done|]. left. by right.
    + destruct (Hsound _ _ Hin') as (_ & _ & [->|?]); split; try done; split; try done.
      * left. by left.
      * by right.
  - intros f refs Hin Hscan Hne. apply Hc; [|done..].
    destruct Hin as [Hin|Hin].
    + apply elem_of_cons in Hin as [->|Hin]; [right|by left].
      apply Hcomplete; auto.
    + right. apply Hcomplete; auto.
Qed.

End Scanner.

(** ** The resolver *)

Lemma get_latest_commit_for_path_run p w :
  get_latest_commit_for_path p w = (resolved (history w) p, log_calls w [p]).
Proof.
  unfold get_latest_commit_for_path, resolved, git_log. rewrite bind_run.
  destruct (decide (returncode (history w p) = 0%Z)); [|done].
  rewrite bind_run. unfold assert_.
  destruct (decide (strip (stdout (history w p)) = [])) as [Heq|Hne].
  - rewrite bool_decide_eq_false_2 by auto. done.
  - by rewrite bool_decide_eq_true_2.
Qed.

Lemma resolve_reference_run hash_mapping ref w :
  resolve_reference hash_mapping ref w =
  if decide (is_Some (hash_mapping !! action_path ref)) then (Ok hash_mapping, w)
  else match resolved (history w) (action_path ref) with
       | Ok h => (Ok (<[action_path ref := h]> hash_mapping), log_calls w [action_path ref])
       | Raised e => (Raised e, log_calls w [action_path ref])
       end.
Proof.
  unfold resolve_reference. destruct (decide _); [done|].
  rewrite bind_run, get_latest_commit_for_path_run.
  by destruct (resolved (history w) (action_path ref)).
Qed.

Lemma resolve_references_flat hash_mapping items w :
  foldM resolve_references hash_mapping items w =
  foldM resolve_reference hash_mapping (items ≫= snd) w.
Proof.
  revert hash_mapping w. induction items as [|[f refs] items IH]; intros hm w; [done|].
  rewrite bind_cons, foldM_cons, foldM_app. unfold resolve_references at 1. simpl.
  destruct (foldM resolve_reference hm refs w) as [[hm'|e] w']; [apply IH|done].
Qed.

(** The inner loop of the resolver queries each path that is not resolved
    yet once, in the order of the references, and stops at the first query
    that fails. *)
Lemma resolve_loop_run (rs : list ActionReference) (hash_mapping : gmap str str) (w : world) :
  exists qs,
    NoDup qs /\
    (forall p, p ∈ qs -> hash_mapping !! p = None /\ p ∈ action_path <$> rs) /\
    ((exists hm',
         foldM resolve_reference hash_mapping rs w = (Ok hm', log_calls w qs) /\
         (forall p, hash_mapping !! p = None -> p ∈ action_path <$> rs -> p ∈ qs) /\
         (forall p, p ∈ qs -> exists h, resolved (history w) p = Ok h /\ hm' !! p = Some h) /\
         (forall p, p ∉ qs -> hm' !! p = hash_mapping !! p))
     \/
     (exists e qs' p,
         qs = qs' ++ [p] /\
         foldM resolve_reference hash_mapping rs w = (Raised e, log_calls w qs) /\
         resolved (history w) p = Raised e /\
         (forall q, q ∈ qs' -> exists h, resolved (history w) q = Ok h))).
Proof.
  revert hash_mapping w. induction rs as [|ref rs IH]; intros hm w.
  { exists []. split; [constructor|]. split; [by intros p ?%elem_of_nil|]. left.
    exists hm. rewrite foldM_nil, log_calls_nil. split; [done|].
    split; [by intros p _ ?%elem_of_nil|]. split; [by intros p ?%elem_of_nil|done]. }
  rewrite foldM_cons, resolve_reference_run. rewrite fmap_cons.
  destruct (decide (is_Some (hm !! action_path ref))) as [Hin|Hnin].
  - destruct (IH hm w) as (qs & Hnd & Hqs & Hcases). exists qs.
    split; [done|]. split.
    { intros p Hp. destruct (Hqs p Hp). split; [done|]. by right. }
    destruct Hcases as [(hm' & Hrun & Hall & Hval & Hother)|(e & qs' & p & -> & Hrun & He & Hok)].
    + left. exists hm'. split; [done|]. split; [|done].
      intros p Hnone [->|Hp]%elem_of_cons; [|by apply Hall].
      rewrite Hnone in Hin. by destruct Hin.
    + right. by exists e, qs', p.
  - apply eq_None_not_Some in Hnin.
    destruct (resolved (history w) (action_path ref)) as [h|e] eqn:Hres.
    + destruct (IH (<[action_path ref := h]> hm) (log_calls w [action_path ref]))
        as (qs & Hnd & Hqs & Hcases). simpl in Hcases.
      exists (action_path ref :: qs).
      assert (action_path ref ∉ qs) as Hfresh.
      { intros Hp. destruct (Hqs _ Hp) as [Hl _]. by rewrite lookup_insert_eq in Hl. }
      split; [by apply NoDup_cons|]. split.
      { intros p [->|Hp]%elem_of_cons; [split; [done|by left]|].
        destruct (Hqs p Hp) as [Hl Hp']. split; [|by right].
        destruct (decide (p = action_path ref)) as [->|Hne].
        - by rewrite lookup_insert_eq in Hl.
        - by rewrite lookup_insert_ne in Hl. }
      destruct Hcases as [(hm' & Hrun & Hall & Hval & Hother)|(e & qs' & p & -> & Hrun & He & Hok)].
      * left. exists hm'. rewrite Hrun, log_calls_app. split; [done|]. split; [|split].
        -- intros p Hnone Hp. destruct (decide (p = action_path ref)) as [->|Hne]; [by left|].
           right. apply Hall; [by rewrite lookup_insert_ne|].
           apply elem_of_cons in Hp as [?|?]; done.
        -- intros p [->|Hp]%elem_of_cons; [|by apply Hval].
           exists h. split; [done|]. by rewrite (Hother _ Hfresh), lookup_insert_eq.
        -- intros p Hp. apply not_elem_of_cons in Hp as [Hne Hp].
           rewrite (Hother _ Hp). by rewrite lookup_insert_ne.
      * right. exists e, (action_path ref :: qs'), p. rewrite Hrun, log_calls_app.
        split; [done|]. split; [done|]. split; [done|].
        intros q [->|Hq]%elem_of_cons; [by exists h|by apply Hok].
    + exists [action_path ref]. split; [apply NoDup_singleton|]. split.
      { intros p ->%list_elem_of_singleton. split; [done|by left]. }
      right. exists e, [], (action_path ref). split; [done|]. split; [done|].
      split; [done|]. by intros q ?%elem_of_nil.
Qed.

(** ** The disk *)

Lemma entry_set_entry x y m m' es :
  entry x es = Some m ->
  entry y (set_entry x m' es) = if decide (y = x) then Some m' else entry y es.
Proof.
  induction es as [|[z n] es IH]; simpl; [done|].
  destruct (decide (x = z)) as [->|Hxz]; simpl.
  - intros _. destruct (decide (y = z)) as [->|Hyz]; done.
  - intros Hx. destruct (decide (y = z)) as [->|Hyz].
    + by rewrite decide_False by done.
    + by apply IH.
Qed.

Lemma resolve_cons_Some es x p n :
  resolve (Dir es) (x :: p) = Some n <-> exists m, entry x es = Some m /\ resolve m p = Some n.
Proof.
  simpl. destruct (entry x es) as [m|]; simpl.
  - split; [by exists m|]. by intros (? & [= <-] & ?).
  - split; [done|]. by intros (? & ? & ?).
Qed.

Lemma store_is_Some n p d0 data :
  resolve n p = Some (File d0) -> is_Some (store n p data).
Proof.
  revert n; induction p as [|x p IH]; intros n.
  - simpl. intros [= ->]. by eexists.
  - destruct n as [|es]; [done|]. intros (m & Hm & Hres)%resolve_cons_Some.
    simpl. rewrite Hm. destruct (IH _ Hres) as [m' ->]. by eexists.
Qed.

Lemma rglob_yml_Dir es :
  rglob_yml (Dir es) =
  ((fun e : str * node => [e.1]) <$> filter (fun e : str * node => fnmatch_yml e.1 = true) es)
  ++ flat_map (fun e : str * node => (cons e.1) <$> rglob_yml e.2) es.
Proof. done. Qed.

Lemma rglob_yml_set_entry x m m' es :
  entry x es = Some m -> rglob_yml m' = rglob_yml m ->
  rglob_yml (Dir (set_entry x m' es)) = rglob_yml (Dir es).
Proof.
  intros Hm Hglob. rewrite !rglob_yml_Dir. f_equal.
  - revert Hm. induction es as [|[z n] es IH]; [done|]. cbn [entry set_entry].
    destruct (decide (x = z)) as [->|Hxz]; intros Hm.
    + rewrite !filter_cons. cbn [fst]. by destruct (decide _).
    + rewrite !filter_cons. cbn [fst]. destruct (decide _); rewrite ?fmap_cons; by rewrite (IH Hm).
  - revert Hm. induction es as [|[z n] es IH]; [done|]. cbn [entry set_entry].
    destruct (decide (x = z)) as [->|Hxz]; intros Hm.
    + injection Hm as ->. cbn [flat_map fst snd]. by rewrite Hglob.
    + cbn [flat_map]. by rewrite (IH Hm).
Qed.

Lemma text_at_file_at d p : text_at d p = universal_newlines <$> file_at d p.
Proof. unfold text_at, file_at. by destruct (resolve d p) as [[|]|]. Qed.

Lemma store_resolve n p d0 data n' :
  resolve n p = Some (File d0) -> store n p data = Some n' ->
  resolve n' p = Some (File data) /\
  (forall q, q <> p -> file_at n' q = file_at n q) /\
  (forall q, view <$> resolve n' q = view <$> resolve n q).
Proof.
  revert n n'; induction p as [|x p IH]; intros n n'.
  - simpl. intros [= ->] [= <-]. split; [done|]. split.
    + intros [|y q] Hq; [done|]. done.
    + intros [|y q]; done.
  - destruct n as [|es]; [done|]. intros (m & Hm & Hres)%resolve_cons_Some.
    simpl. rewrite Hm. destruct (store m p data) as [m'|] eqn:Hst; [|done].
    simpl. intros [= <-]. destruct (IH _ _ Hres Hst) as (Hp & Hother & Hview).
    split; [|split].
    + rewrite (entry_set_entry _ _ m) by done. rewrite decide_True by done. done.
    + intros [|y q] Hq; [done|]. unfold file_at. simpl.
      rewrite (entry_set_entry _ _ m) by done.
      destruct (decide (y = x)) as [->|Hne]; [|done].
      rewrite Hm. simpl. apply (Hother q). congruence.
    + intros [|y q].
      * specialize (Hview []). injection Hview as _ Hglob.
        cbn [resolve fmap option_fmap option_map]. unfold view. f_equal. f_equal.
        by apply (rglob_yml_set_entry x m).
      * simpl. rewrite (entry_set_entry _ _ m) by done.
        destruct (decide (y = x)) as [->|Hne]; [|done]. rewrite Hm. simpl. apply Hview.
Qed.

(** ** The rewriter *)

Lemma update_reference_run hash_mapping file c tu ref w :
  covered hash_mapping ref ->
  update_reference hash_mapping file (c, tu) ref w =
  if decide (current_hash ref = latest hash_mapping ref) then (Ok (c, tu), w)
  else (Ok (apply_update hash_mapping c ref, S tu),
        log_events w [Update file (full_match ref)
                             (new_reference ref (latest hash_mapping ref))]).
Proof.
  intros [h Hh]. unfold update_reference, apply_update, latest. rewrite Hh. simpl.
  destruct (decide (current_hash ref = h)); [done|].
  rewrite bind_run. done.
Qed.

Lemma update_reference_KeyError hash_mapping file st ref w :
  ~ covered hash_mapping ref ->
  update_reference hash_mapping file st ref w = (Raised (KeyError (action_path ref)), w).
Proof.
  intros Hno. unfold update_reference. destruct st as [c tu].
  destruct (hash_mapping !! action_path ref) eqn:Hl; [|done].
  destruct Hno. by eexists.
Qed.

Lemma update_loop_run hash_mapping file refs c tu w :
  Forall (covered hash_mapping) refs ->
  foldM (update_reference hash_mapping file) (c, tu) refs w =
  (Ok (foldl (apply_update hash_mapping) c refs, (tu + stale_count hash_mapping refs)%nat),
   log_events w (update_events hash_mapping file refs)).
Proof.
  unfold stale_count, update_events. intros Hcov. revert c tu w.
  induction Hcov as [|ref refs Href _ IH]; intros c tu w.
  - rewrite foldM_nil, log_events_nil. simpl. by rewrite Nat.add_0_r.
  - rewrite foldM_cons, update_reference_run by done. rewrite filter_cons.
    destruct (decide (current_hash ref <> latest hash_mapping ref)) as [Hne|Heq%dec_stable].
    + destruct (decide (current_hash ref = latest hash_mapping ref)); [done|].
      rewrite IH, log_events_app. simpl. by rewrite Nat.add_succ_r.
    + destruct (decide (current_hash ref = latest hash_mapping ref)); [|done].
      assert (apply_update hash_mapping c ref = c) as Hc
        by (unfold apply_update; by destruct (decide _)).
      rewrite IH. simpl. by rewrite Hc.
Qed.

Lemma update_file_run dry_run hash_mapping fm tu file refs w c :
  text_at (disk w) file = Some c ->
  Forall (covered hash_mapping) refs ->
  let c' := foldl (apply_update hash_mapping) c refs in
  let w1 := log_events w (update_events hash_mapping file refs) in
  let tu' := (tu + stale_count hash_mapping refs)%nat in
  update_file dry_run hash_mapping (fm, tu) (file, refs) w =
  if decide (c' = c) then (Ok (fm, tu'), w1)
  else if dry_run then (Ok (S fm, tu'), w1)
       else (Ok (S fm, tu'), set_disk w1 (default (disk w) (store (disk w) file c'))).
Proof.
  intros Hc Hcov c' w1 tu'. unfold update_file.
  rewrite bind_run, read_text_run, Hc, bind_run, update_loop_run by done.
  fold c' w1 tu'. destruct (decide (c' = c)); [done|]. rewrite bind_run.
  destruct dry_run; [done|]. unfold write_text.
  assert (is_Some (store (disk w1) file c')) as [d Hd].
  { unfold text_at in Hc. simpl.
    destruct (resolve (disk w) file) as [[d0|]|] eqn:Hres; [|done..].
    by apply (store_is_Some _ _ d0). }
  rewrite Hd. simpl in Hd. by rewrite Hd.
Qed.

Lemma write_back_text hash_mapping d0 d item :
  is_Some (text_at d0 item.1) -> text_at d item.1 = text_at d0 item.1 ->
  (forall q, q <> item.1 -> file_at (write_back hash_mapping d0 d item) q = file_at d q) /\
  (forall q, view <$> resolve (write_back hash_mapping d0 d item) q = view <$> resolve d q) /\
  (new_content hash_mapping d0 item = text_at d0 item.1 ->
   write_back hash_mapping d0 d item = d) /\
  (new_content hash_mapping d0 item <> text_at d0 item.1 ->
   exists c', new_content hash_mapping d0 item = Some c' /\
              resolve (write_back hash_mapping d0 d item) item.1 = Some (File c')).
Proof.
  intros [c Hc] Hd. unfold write_back, new_content. rewrite Hc. simpl.
  destruct (decide _) as [Heq|Hne].
  { split; [done|]. split; [done|]. split; [done|]. by intros []. }
  rewrite Hc in Hd. unfold text_at in Hd.
  destruct (resolve d item.1) as [[d1|]|] eqn:Hres; [|done..].
  destruct (store_is_Some d item.1 d1 (foldl (apply_update hash_mapping) c item.2) Hres)
    as [d' Hd'].
  rewrite Hd'. simpl. destruct (store_resolve _ _ _ _ _ Hres Hd') as (Hp & Hother & Hview).
  split; [done|]. split; [done|]. split; [by intros Heq|]. intros _. by eexists.
Qed.

(** The loop over the files: every file is read as it was scanned. *)
Lemma update_files_run dry_run hash_mapping d0 items fm tu w :
  NoDup items.*1 ->
  Forall (fun item => is_Some (text_at d0 item.1) /\
                      Forall (covered hash_mapping) item.2) items ->
  (forall item, item ∈ items -> text_at (disk w) item.1 = text_at d0 item.1) ->
  foldM (update_file dry_run hash_mapping) (fm, tu) items w =
  (Ok ((fm + changed_count hash_mapping d0 items)%nat,
       (tu + length (items ≫= fun item =>
                       filter (fun ref => current_hash ref <> latest hash_mapping ref)
                              item.2))%nat),
   set_disk (log_events w (items ≫= item_events hash_mapping))
            (if dry_run then disk w
             else foldl (write_back hash_mapping d0) (disk w) items)).
Proof.
  intros Hnd Hitems. revert fm tu w Hnd.
  induction Hitems as [|[file refs] items [[c Hc] Hcov] _ IH]; intros fm tu w Hnd Hread.
  { rewrite foldM_nil. unfold changed_count. simpl. rewrite !Nat.add_0_r.
    destruct w, dry_run; unfold set_disk, log_events; simpl; by rewrite app_nil_r. }
  rewrite fmap_cons in Hnd. apply NoDup_cons in Hnd as [Hfresh Hnd]. cbn [fst snd] in *.
  assert (text_at (disk w) file = Some c) as Hw
    by (rewrite <- Hc; apply (Hread (file, refs)); by left).
  rewrite foldM_cons, (update_file_run _ _ _ _ _ _ _ c) by done.
  assert (forall (n1 n2 : nat) (o : world) (o' : world),
            (n1 = n2) -> o = o' ->
            forall k1 k2 : nat, k1 = k2 -> (Ok (n1, k1), o) = (Ok (n2, k2), o')) as Hfin
    by (by intros ???? -> -> ?? ->).
  unfold changed_count. rewrite filter_cons, !bind_cons, length_app.
  set (c' := foldl (apply_update hash_mapping) c refs).
  assert (new_content hash_mapping d0 (file, refs) = Some c') as Hnc.
  { unfold new_content. cbn [fst snd]. by rewrite Hc. }
  pose proof (write_back_text hash_mapping d0 (disk w) (file, refs)) as Hwb.
  cbn [fst snd] in Hwb. destruct Hwb as (Hother & _ & Hsame & _); [by rewrite Hc|congruence|].
  assert (forall d, (forall item, item ∈ items -> text_at d item.1 = text_at (disk w) item.1) ->
                    forall item, item ∈ items -> text_at d item.1 = text_at d0 item.1)
    as Htail.
  { intros d Hd item Hin. rewrite (Hd _ Hin). apply Hread. by right. }
  cbn [foldl]. unfold stale_count, item_events at 2. cbn [fst snd].
  destruct (decide (new_content hash_mapping d0 (file, refs) <> text_at d0 file))
    as [Hch|Hch%dec_stable]; rewrite Hnc, Hc in Hch.
  - destruct (decide (c' = c)) as [Heq|Hne]; [by rewrite Heq in Hch|].
    assert (forall item, item ∈ items ->
              text_at (write_back hash_mapping d0 (disk w) (file, refs)) item.1
              = text_at (disk w) item.1) as Hkeep.
    { intros item Hin. rewrite !text_at_file_at. f_equal.
      apply Hother. intros Heq. apply Hfresh. rewrite <- Heq.
      by apply list_elem_of_fmap_2. }
    assert (write_back hash_mapping d0 (disk w) (file, refs)
            = default (disk w) (store (disk w) file c')) as Hwrite.
    { unfold write_back. rewrite Hnc. cbn [fst]. rewrite Hc.
      by destruct (decide (Some c' = Some c)). }
    destruct dry_run.
    + rewrite IH; [|done|by apply Htail].
      rewrite log_events_app. unfold changed_count. cbn [length].
      apply Hfin; [lia|done|lia].
    + rewrite IH; [|done|].
      * unfold changed_count. cbn [length]. apply Hfin; [lia| |lia].
        unfold set_disk, log_events. cbn [disk history git_calls console].
        by rewrite Hwrite, (assoc_L (++)).
      * cbn [disk set_disk]. rewrite <- Hwrite. by apply Htail.
  - injection Hch as Hch. destruct (decide (c' = c)) as [Heq|Hne]; [|done].
    rewrite IH; [|done|by apply Htail].
    rewrite log_events_app. unfold changed_count. apply Hfin; [lia| |lia].
    destruct dry_run; [done|]. rewrite Hsame; [done|]. by rewrite Hnc, Hc, Heq.
Qed.

(** ** A whole run *)

Lemma main_run set_iter dry_run directory w :
  main set_iter dry_run directory w =
  match resolve (disk w) directory with
  | Some (Dir _) =>
      match foldM (collect_file set_iter) [] (yml_files (disk w) directory) w with
      | (Ok all_references, w1) =>
          match foldM resolve_reference ∅ (all_references ≫= snd) w1 with
          | (Ok hash_mapping, w2) =>
              match foldM (update_file dry_run hash_mapping) (0%nat, 0%nat)
                          all_references (log_events w2 [Banner dry_run]) with
              | (Ok (fm, tu), w3) => (Ok (), log_events w3 [Summary dry_run tu fm])
              | (Raised e, w3) => (Raised e, w3)
              end
          | (Raised e, w2) => (Raised e, w2)
          end
      | (Raised e, w1) => (Raised e, w1)
      end
  | _ => (Raised (AssertionError "Provided path is not a directory"), w)
  end.
Proof.
  unfold main, collect_all_references, get_hash_mapping.
  rewrite bind_run. unfold is_dir at 1.
  assert (rglob directory w = (Ok (yml_files (disk w) directory), w)) as Hglob by done.
  destruct (resolve (disk w) directory) as [[d|es]|] eqn:Hres; [done| |done].
  rewrite bind_run. unfold assert_ at 1. rewrite ret_run.
  rewrite bind_run, bind_run, Hglob.
  destruct (foldM (collect_file set_iter) [] _ w) as [[all_references|e] w1]; [|done].
  rewrite bind_run, resolve_references_flat.
  destruct (foldM resolve_reference ∅ _ w1) as [[hm|e] w2]; [|done].
  rewrite bind_run. unfold print at 1. rewrite bind_run.
  destruct (foldM (update_file dry_run hm) _ _ _) as [[[fm tu]|e] w3]; done.
Qed.

Lemma scanned_spec set_iter d directory :
  let items := scanned set_iter d directory in
  NoDup items.*1 /\
  (forall f refs, (f, refs) ∈ items ->
                  scan_file set_iter d f = Some refs /\ refs <> [] /\
                  f ∈ yml_files d directory) /\
  (forall f refs, f ∈ yml_files d directory -> scan_file set_iter d f = Some refs ->
                  refs <> [] -> (f, refs) ∈ items).
Proof.
  destruct (collected_invariant set_iter d (yml_files d directory) [])
    as (Hnd & Hsound & Hcomplete).
  { constructor. } { by intros f refs ?%elem_of_nil. }
  split; [done|]. split.
  - intros f refs Hin. destruct (Hsound _ _ Hin) as (? & ? & [?|?%elem_of_nil]); done.
  - intros f refs Hin. apply Hcomplete. by left.
Qed.

(** The four ways a run ends: the path is no directory; a path found
    cannot be read; a history query fails; or the run comes to its end. *)
Lemma main_cases set_iter directory w :
  let d0 := disk w in
  let files := yml_files d0 directory in
  let items := scanned set_iter d0 directory in
  let found := files ≫= found_event set_iter d0 in
  ((forall es, resolve d0 directory <> Some (Dir es)) /\
   forall dry_run,
     main set_iter dry_run directory w =
     (Raised (AssertionError "Provided path is not a directory"), w))
  \/
  (exists f evs,
      f ∈ files /\ text_at d0 f = None /\ Forall (fun e => is_found e = true) evs /\
      forall dry_run,
        main set_iter dry_run directory w = (Raised (read_error d0 f), log_events w evs))
  \/
  (exists e qs p,
      NoDup (qs ++ [p]) /\ (forall q, q ∈ qs ++ [p] -> q ∈ paths_of items) /\
      resolved (history w) p = Raised e /\
      (forall q, q ∈ qs -> exists h, resolved (history w) q = Ok h) /\
      forall dry_run,
        main set_iter dry_run directory w =
        (Raised e, log_calls (log_events w found) (qs ++ [p])))
  \/
  (exists es hm qs,
      resolve d0 directory = Some (Dir es) /\
      Forall (fun f => is_Some (text_at d0 f)) files /\
      NoDup qs /\ (forall p, p ∈ qs <-> p ∈ paths_of items) /\
      (forall p, p ∈ qs -> exists h, resolved (history w) p = Ok h /\ hm !! p = Some h) /\
      (forall p, p ∉ qs -> hm !! p = None) /\
      forall dry_run,
        main set_iter dry_run directory w =
        (Ok (),
         mkWorld (if dry_run then d0 else foldl (write_back hm d0) d0 items)
                 (history w) (git_calls w ++ qs)
                 (console w ++ found ++ [Banner dry_run] ++ (items ≫= item_events hm)
                  ++ [Summary dry_run (total_stale hm items) (changed_count hm d0 items)]))).
Proof.
  intros d0 files items found.
  destruct (resolve d0 directory) as [[d|es]|] eqn:Hres.
  { left. split; [done|]. intros dry_run. rewrite main_run. fold d0. by rewrite Hres. }
  2:{ left. split; [done|]. intros dry_run. rewrite main_run. fold d0. by rewrite Hres. }
  right. destruct (collect_loop_run set_iter files [] w)
    as [[Hread Hrun]|(f & evs & Hin & Hnone & Hevs & Hrun)].
  2:{ left. exists f, evs. split; [done|]. split; [done|]. split; [done|].
      intros dry_run. rewrite main_run. fold d0 files. by rewrite Hres, Hrun. }
  right. change (foldl (collect_step set_iter (disk w)) [] files) with items in Hrun.
  change (files ≫= found_event set_iter (disk w)) with found in Hrun.
  destruct (resolve_loop_run (items ≫= snd) ∅ (log_events w found))
    as (qs & Hnd & Hqs & [(hm & Hrun2 & Hall & Hval & Hother)|(e & qs' & p & -> & Hrun2 & He & Hok)]).
  2:{ left. exists e, qs', p. split; [done|]. split.
      { intros q Hq. by destruct (Hqs q Hq). }
      split; [done|]. split; [done|].
      intros dry_run. rewrite main_run. fold d0 files. by rewrite Hres, Hrun, Hrun2. }
  right. exists es, hm, qs. split; [done|]. split; [done|]. split; [done|].
  assert (forall p, p ∈ qs <-> p ∈ paths_of items) as Hiff.
  { intros p. split; [intros Hp; by destruct (Hqs p Hp)|].
    apply Hall. apply lookup_empty. }
  split; [done|]. split; [done|]. split.
  { intros p Hp. rewrite (Hother p Hp). apply lookup_empty. }
  intros dry_run. rewrite main_run. fold d0 files. rewrite Hres, Hrun, Hrun2.
  destruct (scanned_spec set_iter d0 directory) as (Hkeys & Hsound & _). fold items in Hkeys, Hsound.
  rewrite (update_files_run dry_run hm d0); [| done | | done].
  - unfold log_events, log_calls, set_disk, total_stale. cbn [disk history git_calls console].
    rewrite Nat.add_0_l. f_equal. by rewrite <- !(assoc_L (++)).
  - apply Forall_forall. intros [f refs] Hin. destruct (Hsound _ _ Hin) as (Hscan & _ & _).
    cbn [fst snd]. split.
    + unfold scan_file in Hscan. destruct (text_at d0 f); [by eexists|done].
    + apply Forall_forall. intros ref Href.
      assert (action_path ref ∈ qs) as Hp.
      { apply Hiff. unfold paths_of. apply list_elem_of_fmap_2.
        apply list_elem_of_bind. by exists (f, refs). }
      destruct (Hval _ Hp) as (h & _ & Hh). by exists h.
Qed.

(** The disk after the rewriter: the files of the scan whose content
    changed hold the new content, everything else is as it was. *)
Lemma written_spec hash_mapping d0 items :
  NoDup items.*1 -> Forall (fun item => is_Some (text_at d0 item.1)) items ->
  let d' := foldl (write_back hash_mapping d0) d0 items in
  (forall q, view <$> resolve d' q = view <$> resolve d0 q) /\
  (forall q, q ∉ items.*1 -> file_at d' q = file_at d0 q) /\
  (forall item, item ∈ items ->
     (new_content hash_mapping d0 item = text_at d0 item.1 /\
      file_at d' item.1 = file_at d0 item.1) \/
     (new_content hash_mapping d0 item <> text_at d0 item.1 /\
      exists c', new_content hash_mapping d0 item = Some c' /\
                 file_at d' item.1 = Some c')).
Proof.
  induction items as [|x items IH] using rev_ind; intros Hnd Hread.
  { simpl. split; [done|]. split; [done|]. by intros item ?%elem_of_nil. }
  rewrite foldl_app. cbn [foldl]. rewrite fmap_app in Hnd.
  apply NoDup_app in Hnd as (Hnd & Hfresh & _).
  apply Forall_app in Hread as [Hread Hx]. apply Forall_cons in Hx as [Hx _].
  destruct (IH Hnd Hread) as (Hview & Hother & Hitems).
  set (d := foldl (write_back hash_mapping d0) d0 items) in *.
  assert (x.1 ∉ items.*1) as Hxfresh.
  { intros Hin. apply (Hfresh _ Hin). cbn. by left. }
  destruct (write_back_text hash_mapping d0 d x) as (Hwo & Hwv & Hsame & Hnew); [done| |].
  { rewrite !text_at_file_at. f_equal. by apply Hother. }
  split; [|split].
  - intros q. by rewrite Hwv.
  - intros q Hq. rewrite fmap_app, not_elem_of_app in Hq. destruct Hq as [Hq Hqx].
    rewrite Hwo; [by apply Hother|]. intros ->. apply Hqx. cbn. by left.
  - intros item [Hin| ->%list_elem_of_singleton]%elem_of_app.
    + assert (item.1 <> x.1) as Hne.
      { intros Heq. apply Hxfresh. rewrite <- Heq. by apply list_elem_of_fmap_2. }
      rewrite (Hwo _ Hne). by apply Hitems.
    + destruct (decide (new_content hash_mapping d0 x = text_at d0 x.1)) as [Heq|Hne].
      * left. split; [done|]. rewrite (Hsame Heq). by apply Hother.
      * right. split; [done|]. destruct (Hnew Hne) as (c' & Hc' & Hres).
        exists c'. split; [done|]. unfold file_at. by rewrite Hres.
Qed.

(** ** The references of a file *)

Lemma set_order_id : set_order id.
Proof. by intros l _. Qed.

Lemma references_in_elem set_iter content ref :
  set_order set_iter ->
  ref ∈ references_in set_iter content <-> ref ∈ reference_of <$> finditer PATTERN content.
Proof.
  intros Hord. unfold references_in.
  rewrite (Hord _ (NoDup_remove_dups _)). apply elem_of_remove_dups.
Qed.

Lemma references_in_valid set_iter content ref :
  set_order set_iter -> ref ∈ references_in set_iter content ->
  is_reference (full_match ref) (action_path ref) (current_hash ref).
Proof.
  intros Hord Hin%references_in_elem; [|done].
  pose proof (Scan_references _ _ (Scan_finditer content)) as Hall.
  rewrite Forall_forall in Hall. by apply Hall.
Qed.

Lemma references_in_nil set_iter content :
  set_order set_iter ->
  references_in set_iter content = [] <-> finditer PATTERN content = [].
Proof.
  intros Hord. split.
  - intros Hnil. destruct (finditer PATTERN content) as [|M l] eqn:Hl; [done|].
    assert (reference_of M ∈ references_in set_iter content) as Hin.
    { apply references_in_elem; [done|]. rewrite Hl. by left. }
    rewrite Hnil in Hin. by apply elem_of_nil in Hin.
  - intros Hnil. unfold references_in. rewrite Hnil. simpl.
    apply Permutation_nil_r. apply Hord. constructor.
Qed.

(** C2.  The scanner, on a file it can read, returns the references of
    the grammar in the text read, taken from left to right without overlap
    (prefix [XRPLF/actions/], a path that is [.github/workflows/] followed
    by one or more characters that are neither whitespace nor [@], or one or
    more of the characters a-z, 0-9, [.], [_], [/], [-], then [@], then 40
    lowercase hexadecimal digits): there is one such reading of the text,
    and the set returned holds its references, each once.  The path and
    the hash of a reference returned are those two parts of its text,
    without whitespace. *)
Theorem scanner_matches_the_grammar set_iter file_path w content :
  set_order set_iter ->
  text_at (disk w) file_path = Some content ->
  exists refs scan,
    find_action_references set_iter file_path w = (Ok refs, w) /\
    Scan content scan /\
    (forall scan', Scan content scan' -> scan' = scan) /\
    NoDup refs /\
    (forall ref, ref ∈ refs <-> ref ∈ scan) /\
    Forall (fun ref =>
              is_reference (full_match ref) (action_path ref) (current_hash ref) /\
              Forall (fun c => isspace c = false) (action_path ref) /\
              Forall (fun c => isspace c = false) (current_hash ref)) refs.
Proof.
  intros Hord Hc.
  exists (references_in set_iter content), (reference_of <$> finditer PATTERN content).
  split; [|split; [|split; [|split; [|split]]]].
  - rewrite find_action_references_run. unfold scan_file. by rewrite Hc.
  - apply Scan_finditer.
  - apply Scan_unique.
  - unfold references_in. rewrite (Hord _ (NoDup_remove_dups _)). apply NoDup_remove_dups.
  - intros ref. by apply references_in_elem.
  - apply Forall_forall. intros ref Href.
    pose proof (references_in_valid _ _ _ Hord Href) as Hvalid. split; [done|].
    destruct Hvalid as (_ & Hp & Hh).
    split; [by apply is_path_no_space|by apply is_hash_no_space].
Qed.

(** C10.  For every reference the scanner produces, [full_match] is
    [XRPLF/actions/] followed by the path, [@] and the hash, which has 40
    characters; so the text the rewriter puts in its place, for whatever
    latest hash, is the same up to and including the [@] and differs only in
    the hash after it. *)
Theorem full_match_is_prefix_path_at_hash set_iter file_path w refs w' ref :
  set_order set_iter ->
  find_action_references set_iter file_path w = (Ok refs, w') ->
  ref ∈ refs ->
  full_match ref = lit "XRPLF/actions/" ++ action_path ref ++ lit "@" ++ current_hash ref /\
  length (current_hash ref) = 40%nat /\
  exists common,
    common = lit "XRPLF/actions/" ++ action_path ref ++ lit "@" /\
    full_match ref = common ++ current_hash ref /\
    forall latest_hash, new_reference ref latest_hash = common ++ latest_hash.
Proof.
  intros Hord Hrun Hin. rewrite find_action_references_run in Hrun.
  unfold scan_file in Hrun. destruct (text_at (disk w) file_path) as [c|]; [|done].
  injection Hrun as <- <-.
  destruct (references_in_valid _ _ _ Hord Hin) as (Hm & _ & Hlen & _).
  split; [done|]. split; [done|]. eexists. split; [reflexivity|].
  split; [by rewrite Hm, <- !(assoc_L (++))|].
  intros latest_hash. unfold new_reference. by rewrite <- !(assoc_L (++)).
Qed.

(** ** The resolver, as a whole *)

Lemma get_hash_mapping_run all_references w :
  get_hash_mapping all_references w =
  foldM resolve_reference ∅ (all_references ≫= snd) w.
Proof. apply resolve_references_flat. Qed.

Lemma resolved_Raised hist p e :
  resolved hist p = Raised e <->
  (returncode (hist p) <> 0%Z /\ e = CalledProcessError (returncode (hist p))) \/
  (returncode (hist p) = 0%Z /\ strip (stdout (hist p)) = [] /\
   e = AssertionError "Git command failed to return a commit hash").
Proof.
  unfold resolved. destruct (decide (returncode (hist p) = 0%Z)) as [Hz|Hnz].
  - destruct (decide (strip (stdout (hist p)) = [])) as [He|Hne].
    + split; [intros [= <-]; auto|]. intros [[? _]|(_ & _ & ->)]; done.
    + split; [done|]. intros [[? _]|(_ & ? & _)]; done.
  - split; [intros [= <-]; auto|]. intros [[_ ->]|[? _]]; done.
Qed.

Lemma resolved_Ok hist p h :
  resolved hist p = Ok h <->
  returncode (hist p) = 0%Z /\ h = strip (stdout (hist p)) /\ h <> [].
Proof.
  unfold resolved. destruct (decide (returncode (hist p) = 0%Z)) as [Hz|Hnz].
  - destruct (decide (strip (stdout (hist p)) = [])) as [He|Hne].
    + split; [done|]. intros (_ & -> & ?). done.
    + split; [intros [= <-]; auto|]. by intros (_ & -> & _).
  - split; [done|]. by intros (? & _).
Qed.

(** C6.  Where every query succeeds, the resolver produces one mapping: its
    keys are the distinct paths of the scan, the hash of a path is what the
    history query answers for it, and the queries made are the distinct
    paths, each one once, in however many files or with however many hashes
    a path appears. *)
Theorem resolver_queries_each_path_once (all_references : list (Path * list ActionReference))
    (w : world) :
  (forall p, p ∈ paths_of all_references -> exists h, resolved (history w) p = Ok h) ->
  exists hash_mapping qs,
    get_hash_mapping all_references w = (Ok hash_mapping, log_calls w qs) /\
    qs ≡ₚ remove_dups (paths_of all_references) /\
    dom hash_mapping = list_to_set (C := gset str) (paths_of all_references) /\
    forall p, p ∈ paths_of all_references ->
              exists h, hash_mapping !! p = Some h /\
                        returncode (history w p) = 0%Z /\
                        h = strip (stdout (history w p)).
Proof.
  intros Hok. rewrite get_hash_mapping_run.
  destruct (resolve_loop_run (all_references ≫= snd) ∅ w)
    as (qs & Hnd & Hqs & [(hm & Hrun & Hall & Hval & Hother)|(e & qs' & p & -> & Hrun & He & _)]).
  2:{ destruct (Hok p) as [h Hh]; [|congruence].
      apply Hqs. rewrite elem_of_app, list_elem_of_singleton. by right. }
  assert (forall p, p ∈ qs <-> p ∈ paths_of all_references) as Hiff.
  { intros p. split; [intros Hp; by destruct (Hqs p Hp)|]. apply Hall, lookup_empty. }
  exists hm, qs. split; [done|]. split; [|split].
  - apply NoDup_Permutation; [done|apply NoDup_remove_dups|].
    intros p. by rewrite elem_of_remove_dups.
  - apply set_eq. intros p. rewrite elem_of_dom, elem_of_list_to_set, <- Hiff. split.
    + intros [h Hh]. destruct (decide (p ∈ qs)) as [|Hn]; [done|].
      rewrite (Hother _ Hn), lookup_empty in Hh. done.
    + intros Hp. destruct (Hval _ Hp) as (h & _ & Hh). by exists h.
  - intros p Hp%Hiff. destruct (Hval _ Hp) as (h & Hres & Hh).
    apply resolved_Ok in Hres as (? & ? & _). by exists h.
Qed.

Lemma collect_all_references_run set_iter directory w :
  collect_all_references set_iter directory w =
  foldM (collect_file set_iter) [] (yml_files (disk w) directory) w.
Proof. done. Qed.

Lemma collect_all_references_frame set_iter directory w out w' :
  collect_all_references set_iter directory w = (out, w') ->
  exists evs, w' = log_events w evs /\ Forall (fun e => is_found e = true) evs.
Proof.
  rewrite collect_all_references_run.
  destruct (collect_loop_run set_iter (yml_files (disk w) directory) [] w)
    as [[_ Hrun]|(f & evs & _ & _ & Hevs & Hrun)]; rewrite Hrun; intros [= <- <-].
  - eexists. split; [done|]. apply found_events_found.
  - by exists evs.
Qed.

(** C8.  If the history query for a referenced path exits with a status
    other than zero, or answers nothing, the resolver raises an error and
    gives no mapping; the last query made is the first that failed; and the
    run ends there with that error, the disk untouched: nothing catches
    it. *)
Theorem failed_query_aborts_the_run set_iter dry_run directory es w
    all_references w1 p :
  resolve (disk w) directory = Some (Dir es) ->
  collect_all_references set_iter directory w = (Ok all_references, w1) ->
  p ∈ paths_of all_references ->
  returncode (history w p) <> 0%Z \/ strip (stdout (history w p)) = [] ->
  exists e qs q,
    get_hash_mapping all_references w1 = (Raised e, log_calls w1 (qs ++ [q])) /\
    main set_iter dry_run directory w = (Raised e, log_calls w1 (qs ++ [q])) /\
    disk (log_calls w1 (qs ++ [q])) = disk w /\
    (forall q', q' ∈ qs -> exists h, resolved (history w) q' = Ok h) /\
    ((returncode (history w q) <> 0%Z /\ e = CalledProcessError (returncode (history w q))) \/
     (strip (stdout (history w q)) = [] /\
      e = AssertionError "Git command failed to return a commit hash")).
Proof.
  intros Hdir Hcollect Hp Hfail.
  destruct (collect_all_references_frame _ _ _ _ _ Hcollect) as (evs & -> & _).
  rewrite main_run, Hdir. rewrite collect_all_references_run in Hcollect.
  rewrite Hcollect, get_hash_mapping_run.
  destruct (resolve_loop_run (all_references ≫= snd) ∅ (log_events w evs))
    as (qs & Hnd & Hqs & [(hm & Hrun & Hall & Hval & Hother)|(e & qs' & q & -> & Hrun & He & Hok)]).
  - exfalso. destruct (Hval p) as (h & Hres & _); [by apply Hall; [apply lookup_empty|]|].
    apply resolved_Ok in Hres as (Hz & -> & Hne). by destruct Hfail.
  - exists e, qs', q. rewrite Hrun. split; [done|]. split; [done|]. split; [done|].
    split; [done|]. apply resolved_Raised in He as [[? ?]|(_ & ? & ?)]; auto.
Qed.


Lemma elem_of_update_events hm file refs e :
  e ∈ update_events hm file refs <->
  exists ref, ref ∈ refs /\ current_hash ref <> latest hm ref /\
              e = Update file (full_match ref) (new_reference ref (latest hm ref)).
Proof.
  unfold update_events. rewrite list_elem_of_fmap. split.
  - intros (ref & -> & [Hst Hin]%list_elem_of_filter). by exists ref.
  - intros (ref & Hin & Hst & ->). exists ref. split; [done|].
    by apply list_elem_of_filter.
Qed.

Lemma filter_ext_in {A} (P Q : A -> Prop) `{!forall x, Decision (P x)}
    `{!forall x, Decision (Q x)} (l : list A) :
  (forall x, x ∈ l -> P x <-> Q x) -> filter P l = filter Q l.
Proof.
  induction l as [|x l IH]; intros Hext; [done|]. rewrite !filter_cons.
  rewrite IH by (intros y Hy; apply Hext; by right).
  destruct (decide (P x)) as [HP|HP], (decide (Q x)) as [HQ|HQ]; try done.
  - destruct HQ. apply Hext; [by left|done].
  - destruct HP. apply Hext; [by left|done].
Qed.

(** C7.  A reference whose hash is the hash resolved for its path is passed
    over: no substitution, nothing printed, nothing counted.  And a file is
    counted as modified exactly when the content after all the
    substitutions differs from the content read; in normal mode it is then
    written, in a dry run or when nothing changed the disk stays as it
    is. *)
Theorem up_to_date_skipped_and_modified_iff_changed dry_run hash_mapping
    files_modified total_updates file refs w content :
  text_at (disk w) file = Some content ->
  Forall (covered hash_mapping) refs ->
  let content' := foldl (apply_update hash_mapping) content refs in
  (forall ref st w0,
      hash_mapping !! action_path ref = Some (current_hash ref) ->
      update_reference hash_mapping file st ref w0 = (Ok st, w0)) /\
  exists w',
    update_file dry_run hash_mapping (files_modified, total_updates) (file, refs) w =
    (Ok (if decide (content' = content) then files_modified else S files_modified,
         (total_updates +
          length (filter (fun ref => hash_mapping !! action_path ref
                                     <> Some (current_hash ref)) refs))%nat), w') /\
    (content' = content \/ dry_run = true -> disk w' = disk w) /\
    (content' <> content -> dry_run = false ->
     file_at (disk w') file = Some content' /\
     forall q, q <> file -> file_at (disk w') q = file_at (disk w) q).
Proof.
  intros Hc Hcov content'. split.
  { intros ref [c tu] w0 Hl. rewrite update_reference_run by (by eexists).
    unfold latest. rewrite Hl. simpl. by rewrite decide_True. }
  rewrite (update_file_run _ _ _ _ _ _ _ content) by done. fold content'.
  assert (stale_count hash_mapping refs =
          length (filter (fun ref => hash_mapping !! action_path ref
                                     <> Some (current_hash ref)) refs)) as ->.
  { unfold stale_count. f_equal. apply filter_ext_in.
    intros ref Hin. rewrite Forall_forall in Hcov. destruct (Hcov _ Hin) as [h Hh].
    unfold latest. rewrite Hh. simpl. split; congruence. }
  destruct (decide (content' = content)) as [Heq|Hne].
  { eexists. split; [done|]. split; [done|]. done. }
  destruct dry_run.
  { eexists. split; [done|]. split; [done|]. done. }
  eexists. split; [done|]. split; [by intros [?|?]|]. intros _ _.
  cbn [disk set_disk log_events].
  unfold text_at in Hc. destruct (resolve (disk w) file) as [[d0|]|] eqn:Hres; [|done..].
  destruct (store_is_Some (disk w) file d0 content' Hres) as [d' Hd']. rewrite Hd'. simpl.
  destruct (store_resolve _ _ _ _ _ Hres Hd') as (Hp & Hother & _).
  split; [|done]. unfold file_at. by rewrite Hp.
Qed.

Lemma with_mode_id b l :
  Forall (fun e => is_found e = true \/ is_update e = true) l -> with_mode b <$> l = l.
Proof.
  induction 1 as [|e l He _ IH]; [done|]. rewrite fmap_cons, IH.
  destruct e; try done; by destruct He.
Qed.

Lemma with_mode_found b l :
  Forall (fun e => is_found e = true) l -> with_mode b <$> l = l.
Proof. intros H. apply with_mode_id. eapply Forall_impl; [done|]. auto. Qed.

Lemma with_mode_updates b hm (items : list (Path * list ActionReference)) :
  with_mode b <$> (items ≫= item_events hm) = items ≫= item_events hm.
Proof.
  apply with_mode_id, Forall_forall. intros e Hin. right.
  apply list_elem_of_bind in Hin as (item & Hin & _).
  by apply elem_of_update_events in Hin as (ref & _ & _ & ->).
Qed.

(** C4.  A dry run leaves the disk as it is, and it ends, queries and
    prints as the normal run does, the banner and the summary being worded
    after the mode. *)
Theorem dry_run_writes_nothing set_iter directory w :
  let dry := main set_iter true directory w in
  let normal := main set_iter false directory w in
  disk dry.2 = disk w /\
  dry.1 = normal.1 /\
  git_calls dry.2 = git_calls normal.2 /\
  exists evs,
    console dry.2 = console w ++ (with_mode true <$> evs) /\
    console normal.2 = console w ++ (with_mode false <$> evs).
Proof.
  destruct (main_cases set_iter directory w)
    as [[_ Hrun]|[(f & evs & _ & _ & Hevs & Hrun)|[(e & qs & p & _ & _ & _ & _ & Hrun)|
        (es & hm & qs & _ & _ & _ & _ & _ & _ & Hrun)]]];
    rewrite (Hrun true), (Hrun false); cbn [fst snd disk git_calls console log_events log_calls].
  - split; [done|]. split; [done|]. split; [done|]. exists []. by rewrite !app_nil_r.
  - split; [done|]. split; [done|]. split; [done|]. exists evs.
    by rewrite !with_mode_found.
  - split; [done|]. split; [done|]. split; [done|]. eexists.
    rewrite !with_mode_found by apply found_events_found. done.
  - split; [done|]. split; [done|]. split; [done|].
    set (found := yml_files (disk w) directory ≫= found_event set_iter (disk w)).
    set (items := scanned set_iter (disk w) directory).
    exists (found ++ [Banner true] ++ (items ≫= item_events hm)
            ++ [Summary true (total_stale hm items) (changed_count hm (disk w) items)]).
    assert (Forall (fun e => is_found e = true) found) as Hf by apply found_events_found.
    rewrite !fmap_app, !with_mode_updates.
    rewrite (with_mode_found true _ Hf), (with_mode_found false _ Hf).
    split; reflexivity.
Qed.

(** ** The enumeration of the files *)

Lemma elem_of_rglob_yml_Dir es rel :
  rel ∈ rglob_yml (Dir es) <->
  (exists x m, (x, m) ∈ es /\ fnmatch_yml x = true /\ rel = [x]) \/
  (exists x m rel', (x, m) ∈ es /\ rel' ∈ rglob_yml m /\ rel = x :: rel').
Proof.
  rewrite rglob_yml_Dir, elem_of_app, list_elem_of_fmap, list_elem_of_In, in_flat_map.
  split.
  - intros [([x m] & -> & [Hm Hin]%list_elem_of_filter)|([x m] & Hin & Hrel)].
    + left. by exists x, m.
    + right. apply list_elem_of_In, list_elem_of_fmap in Hrel as (rel' & -> & Hrel').
      apply list_elem_of_In in Hin. by exists x, m, rel'.
  - intros [(x & m & Hin & Hm & ->)|(x & m & rel' & Hin & Hrel' & ->)].
    + left. exists (x, m). split; [done|]. by apply list_elem_of_filter.
    + right. exists (x, m). split; [by apply list_elem_of_In|].
      apply list_elem_of_In, list_elem_of_fmap. by exists rel'.
Qed.

Lemma Descendant_nonempty n rel k : Descendant n rel k -> rel <> [].
Proof. by destruct 1. Qed.

Lemma rglob_yml_spec n rel :
  rel ∈ rglob_yml n <->
  (exists k, Descendant n rel k) /\ exists x, last rel = Some x /\ fnmatch_yml x = true.
Proof.
  split.
  - revert n. induction rel as [|y rel IH]; intros n Hin.
    + destruct n as [|es]; [by apply elem_of_nil in Hin|].
      apply elem_of_rglob_yml_Dir in Hin as [(? & ? & _ & _ & ?)|(? & ? & ? & _ & _ & ?)]; done.
    + destruct n as [|es]; [by apply elem_of_nil in Hin|].
      apply elem_of_rglob_yml_Dir in Hin
        as [(x & m & Hin & Hm & [= -> ->])|(x & m & rel' & Hin & Hrel & [= -> ->])].
      * split; [exists m; by constructor|]. by exists x.
      * destruct (IH _ Hrel) as [[k Hk] (z & Hlast & Hz)]. split.
        -- exists k. by apply (Descendant_deeper _ _ m).
        -- exists z. split; [|done]. destruct rel'; [done|]. done.
  - intros [[k Hk] (z & Hlast & Hz)]. induction Hk as [es x m Hin|es x m rel k Hin Hk IH].
    + injection Hlast as ->. apply elem_of_rglob_yml_Dir. left. by exists z, m.
    + apply elem_of_rglob_yml_Dir. right. exists x, m, rel. split; [done|]. split; [|done].
      apply IH. apply Descendant_nonempty in Hk. by destruct rel.
Qed.

Lemma yaml_is_not_yml x : endswith x (lit ".yaml") = true -> fnmatch_yml x = false.
Proof.
  unfold fnmatch_yml, endswith. intros [t Ht]%startswith_true.
  apply startswith_false. intros t' Ht'. rewrite Ht in Ht'.
  vm_compute in Ht'. discriminate.
Qed.

Lemma scanned_nil set_iter d directory :
  set_order set_iter ->
  (forall file c, file ∈ yml_files d directory -> text_at d file = Some c ->
                  finditer PATTERN c = []) ->
  scanned set_iter d directory = [].
Proof.
  intros Hord Hno. unfold scanned.
  induction (yml_files d directory) as [|f files IH]; [done|]. simpl.
  assert (collect_step set_iter d [] f = []) as ->.
  { unfold collect_step, scan_file. destruct (text_at d f) as [c|] eqn:Hc; [|done]. simpl.
    assert (references_in set_iter c = []) as ->; [|done].
    apply references_in_nil; [done|]. apply (Hno f); [by left|done]. }
  apply IH. intros file c Hin. apply Hno. by right.
Qed.

(** C9, amended.  [rglob] below the directory gives exactly the entries,
    at any depth, whose name ends in [.yml], files and directories alike; a
    name that ends in [.yaml] is never among them.  Where all of them are
    files the scanner returns, and what it returns holds exactly the files
    among them with a match; and where none of them has a match, the run
    makes no history query. *)
Theorem scanner_enumerates_yml_and_omits_empty set_iter directory w :
  set_order set_iter ->
  (exists files,
      rglob directory w = (Ok files, w) /\
      forall n, resolve (disk w) directory = Some n ->
        forall file, file ∈ files <->
          exists rel k x, file = directory ++ rel /\ Descendant n rel k /\
                          last rel = Some x /\ endswith x (lit ".yml") = true) /\
  (forall n rel x, last rel = Some x -> endswith x (lit ".yaml") = true ->
                   rel ∉ rglob_yml n) /\
  (Forall (fun file => is_Some (file_at (disk w) file)) (yml_files (disk w) directory) ->
   exists all_references w',
     collect_all_references set_iter directory w = (Ok all_references, w')) /\
  (forall all_references w',
      collect_all_references set_iter directory w = (Ok all_references, w') ->
      forall file,
        file ∈ all_references.*1 <->
        file ∈ yml_files (disk w) directory /\
        exists c, text_at (disk w) file = Some c /\ finditer PATTERN c <> []) /\
  ((forall file c, file ∈ yml_files (disk w) directory -> text_at (disk w) file = Some c ->
                   finditer PATTERN c = []) ->
   forall dry_run, git_calls (main set_iter dry_run directory w).2 = git_calls w).
Proof.
  intros Hord. split; [|split; [|split; [|split]]].
  - exists (yml_files (disk w) directory). split; [done|]. intros n Hn file.
    unfold yml_files. rewrite Hn, list_elem_of_fmap. split.
    + intros (rel & -> & [[k Hk] (x & Hlast & Hx)]%rglob_yml_spec). by exists rel, k, x.
    + intros (rel & k & x & -> & Hk & Hlast & Hx). exists rel. split; [done|].
      apply rglob_yml_spec. split; [by exists k|by exists x].
  - intros n rel x Hlast Hyaml [_ (y & Hy & Hyml)]%rglob_yml_spec.
    assert (y = x) as -> by congruence. apply yaml_is_not_yml in Hyaml. congruence.
  - intros Hfiles. rewrite collect_all_references_run.
    destruct (collect_loop_run set_iter (yml_files (disk w) directory) [] w)
      as [[_ Hrun']|(f & evs & Hf & Hnone & _ & _)]; [by eexists _, _|].
    rewrite Forall_forall in Hfiles. destruct (Hfiles _ Hf) as [data Hdata].
    by rewrite text_at_file_at, Hdata in Hnone.
  - intros all_references w' Hrun file. rewrite collect_all_references_run in Hrun.
    destruct (collect_loop_run set_iter (yml_files (disk w) directory) [] w)
      as [[_ Hrun']|(f & evs & _ & _ & _ & Hrun')]; rewrite Hrun' in Hrun; [|done].
    injection Hrun as <- _.
    destruct (scanned_spec set_iter (disk w) directory) as (_ & Hsound & Hcomplete).
    unfold scanned in Hsound, Hcomplete. rewrite list_elem_of_fmap. split.
    + intros ([f refs] & -> & Hin). destruct (Hsound _ _ Hin) as (Hscan & Hne & Hfile).
      split; [done|]. unfold scan_file in Hscan. cbn [fst].
      destruct (text_at (disk w) f) as [c|]; [|done]. exists c. split; [done|].
      injection Hscan as <-. intros Hnil. apply Hne. by apply references_in_nil.
    + intros (Hfile & c & Hc & Hne).
      exists (file, references_in set_iter c). split; [done|]. apply Hcomplete; [done| |].
      * unfold scan_file. by rewrite Hc.
      * intros Hnil. apply Hne. by apply (references_in_nil set_iter).
  - intros Hno dry_run. pose proof (scanned_nil set_iter _ _ Hord Hno) as Hnil.
    destruct (main_cases set_iter directory w)
      as [[_ Hrun]|[(f & evs & _ & _ & Hevs & Hrun)|[(e & qs & p & _ & Hqs & _ & _ & Hrun)|
          (es & hm & qs & _ & _ & _ & Hqs & _ & _ & Hrun)]]]; rewrite (Hrun dry_run);
      cbn [snd git_calls log_events log_calls]; [done|done| |].
    + exfalso. rewrite Hnil in Hqs. specialize (Hqs p).
      rewrite elem_of_app, list_elem_of_singleton in Hqs.
      by apply (elem_of_nil p), Hqs; right.
    + rewrite Hnil in Hqs. destruct qs as [|q qs]; [by rewrite app_nil_r|].
      exfalso. apply (elem_of_nil q), Hqs. by left.
Qed.

(** ** What a normal run leaves on the disk *)

Lemma Rewritten_length s s' : Rewritten s s' -> (length s <= length s')%nat.
Proof.
  induction 1 as [|c s s' _ _ IH|m p h h' rest rest' (-> & _ & Hlen & _) [Hlen' _] _ IH].
  - done.
  - simpl. lia.
  - rewrite !length_app. lia.
Qed.

(** The number of [@] in a text. *)
Lemma Rewritten_at (s s' : list char) :
  Rewritten s s' ->
  length (filter (fun c => c = ch "@") s) = length (filter (fun c => c = ch "@") s').
Proof.
  induction 1 as [|c s s' _ _ IH|m p h h' rest rest' (-> & _ & _ & Hhex) [_ Hhex'] _ IH].
  - done.
  - rewrite !filter_cons. destruct (decide _); cbn [length]; by rewrite IH.
  - assert (forall x : list char, Forall hex_char x -> filter (fun c => c = ch "@") x = []) as Hno.
    { intros x Hx. induction Hx as [|c x Hc _ IHx]; [done|].
      rewrite filter_cons, decide_False; [done|]. intros ->. revert Hc. ch_values. lia. }
    rewrite <- !(assoc_L (++)), !filter_app, !length_app, IH.
    by rewrite (Hno h Hhex), (Hno h' Hhex').
Qed.

(** The content computed for a file of the scan differs from the text read
    in hashes of its references only. *)
Lemma new_content_Rewritten set_iter hm c refs :
  set_order set_iter ->
  (forall ref, ref ∈ refs -> is_full_hash (latest hm ref)) ->
  refs = references_in set_iter c ->
  Rewritten c (foldl (apply_update hm) c refs).
Proof.
  intros Hord Hlatest ->.
  destruct (foldl_apply_update_Rewritten hm c (reference_of <$> finditer PATTERN c)
              (references_in set_iter c)) as (G & -> & HG).
  - apply Scan_finditer.
  - apply Forall_forall. intros ref Hin. split; [by apply (references_in_valid set_iter c)|].
    by apply Hlatest.
  - by apply (Rewritten_retarget _ _ (reference_of <$> finditer PATTERN c)); [apply Scan_finditer|].
Qed.

Lemma main_Ok set_iter dry_run directory w w' :
  main set_iter dry_run directory w = (Ok (), w') ->
  let d0 := disk w in
  let items := scanned set_iter d0 directory in
  exists es hm qs,
    resolve d0 directory = Some (Dir es) /\
    Forall (fun f => is_Some (text_at d0 f)) (yml_files d0 directory) /\
    NoDup qs /\ (forall p, p ∈ qs <-> p ∈ paths_of items) /\
    (forall p, p ∈ qs -> exists h, resolved (history w) p = Ok h /\ hm !! p = Some h) /\
    (forall p, p ∉ qs -> hm !! p = None) /\
    w' = mkWorld (if dry_run then d0 else foldl (write_back hm d0) d0 items)
                 (history w) (git_calls w ++ qs)
                 (console w ++ (yml_files d0 directory ≫= found_event set_iter d0)
                  ++ [Banner dry_run] ++ (items ≫= item_events hm)
                  ++ [Summary dry_run (total_stale hm items) (changed_count hm d0 items)]).
Proof.
  intros Hrun d0 items.
  destruct (main_cases set_iter directory w)
    as [[_ Hrun']|[(f & evs & _ & _ & _ & Hrun')|[(e & qs & p & _ & _ & _ & _ & Hrun')|
        (es & hm & qs & Hdir & Hread & Hnd & Hqs & Hval & Hother & Hrun')]]];
    rewrite (Hrun' dry_run) in Hrun; [done..|].
  injection Hrun as <-. by exists es, hm, qs.
Qed.

Lemma scanned_items set_iter d directory file refs :
  (file, refs) ∈ scanned set_iter d directory ->
  exists c, text_at d file = Some c /\ refs = references_in set_iter c /\ refs <> [] /\
            file ∈ yml_files d directory.
Proof.
  intros Hin. destruct (scanned_spec set_iter d directory) as (_ & Hsound & _).
  destruct (Hsound _ _ Hin) as (Hscan & Hne & Hfile). unfold scan_file in Hscan.
  destruct (text_at d file) as [c|]; [|done]. injection Hscan as <-. by exists c.
Qed.

Lemma scanned_readable set_iter d directory :
  Forall (fun item => is_Some (text_at d item.1)) (scanned set_iter d directory).
Proof.
  apply Forall_forall. intros [file refs] Hin.
  destruct (scanned_items _ _ _ _ _ Hin) as (c & Hc & _). by exists c.
Qed.

(** C5, amended.  Where the history answers with full commit hashes (40
    hexadecimal digits or more), a file that a normal run leaves with
    another content than it had holds the text that was read from it (the
    content with its line ends translated to ['\n']), but for the digits
    after the [@] of the references the scanner matched in that text. *)
Theorem rewritten_file_differs_in_hashes_only set_iter directory w w' file before after :
  set_order set_iter ->
  full_hash_history (history w) ->
  main set_iter false directory w = (Ok (), w') ->
  file_at (disk w) file = Some before ->
  file_at (disk w') file = Some after ->
  after = before \/ Rewritten (universal_newlines before) after.
Proof.
  intros Hord Hsha Hrun Hbefore Hafter.
  destruct (main_Ok _ _ _ _ _ Hrun) as (es & hm & qs & _ & _ & _ & Hqs & Hval & _ & ->).
  cbn [disk] in Hafter. set (d0 := disk w) in *. set (items := scanned set_iter d0 directory) in *.
  destruct (scanned_spec set_iter d0 directory) as (Hnd & _ & _). fold items in Hnd.
  destruct (written_spec hm d0 items Hnd (scanned_readable _ _ _)) as (_ & Hother & Hitems).
  destruct (decide (file ∈ items.*1)) as [Hin|Hout].
  2:{ left. rewrite (Hother _ Hout) in Hafter. congruence. }
  apply list_elem_of_fmap in Hin as ([f refs] & -> & Hin). cbn [fst] in *.
  destruct (Hitems _ Hin) as [[_ Hsame]|(_ & c' & Hnew & Hfile)]; cbn [fst] in *.
  { left. congruence. }
  right. destruct (scanned_items _ _ _ _ _ Hin) as (c & Hc & Hrefs & _ & _).
  unfold new_content in Hnew. cbn [fst snd] in Hnew. rewrite Hc in Hnew.
  injection Hnew as <-. rewrite text_at_file_at, Hbefore in Hc. injection Hc as <-.
  assert (after = foldl (apply_update hm) (universal_newlines before) refs) as -> by congruence.
  apply (new_content_Rewritten set_iter hm); [done| |done].
  intros ref Href. destruct (Hval (action_path ref)) as (h & Hres & Hh).
  { apply Hqs. unfold paths_of. apply list_elem_of_fmap_2, list_elem_of_bind.
    by exists (f, refs). }
  unfold latest. rewrite Hh. simpl. by apply (Hsha (action_path ref)).
Qed.

(** ** Line ends *)

Lemma universal_newlines_unfold c s :
  universal_newlines (c :: s) =
  if c =? 13
  then 10 :: match s with
             | d :: s' => if d =? 10 then universal_newlines s' else universal_newlines s
             | [] => []
             end
  else c :: universal_newlines s.
Proof. by destruct s. Qed.

Lemma universal_newlines_no_cr s : (13 : char) ∉ universal_newlines s.
Proof.
  remember (length s) as n eqn:Hn. revert s Hn.
  induction n as [n IH] using lt_wf_ind. intros [|c s] Hn; [apply not_elem_of_nil|].
  rewrite universal_newlines_unfold. simpl in Hn.
  destruct (c =? 13) eqn:Hc.
  - apply not_elem_of_cons. split; [done|]. destruct s as [|d s]; [apply not_elem_of_nil|].
    destruct (d =? 10).
    + apply (IH (length s)); [simpl in Hn; lia|done].
    + apply (IH (length (d :: s))); [lia|done].
  - apply N.eqb_neq in Hc. apply not_elem_of_cons. split; [done|].
    apply (IH (length s)); [lia|done].
Qed.

Lemma universal_newlines_id s : (13 : char) ∉ s -> universal_newlines s = s.
Proof.
  induction s as [|c s IH]; [done|]. intros [Hc Hs]%not_elem_of_cons.
  rewrite universal_newlines_unfold. apply not_eq_sym, N.eqb_neq in Hc. rewrite Hc.
  by rewrite IH.
Qed.

Lemma Rewritten_no_cr s s' : Rewritten s s' -> (13 : char) ∉ s -> (13 : char) ∉ s'.
Proof.
  induction 1 as [|c s s' _ _ IH|m p h h' rest rest' (-> & _ & _) [_ Hhex] _ IH]; [done| |].
  - rewrite !not_elem_of_cons. intros [? ?]. auto.
  - rewrite !not_elem_of_app. intros [(Hpre & Hp & Hat & _) Hrest].
    split; [done|]. split; [done|]. split; [done|]. split; [|auto].
    intros Hin. rewrite Forall_forall in Hhex. apply Hhex in Hin. revert Hin.
    ch_values. lia.
Qed.

(** ** A run on top of a run *)

Lemma nothing_stale hm (refs : list ActionReference) :
  (forall ref, ref ∈ refs -> current_hash ref = latest hm ref) ->
  (forall c, foldl (apply_update hm) c refs = c) /\
  filter (fun ref => current_hash ref <> latest hm ref) refs = [].
Proof.
  induction refs as [|ref refs IH]; intros Hall; [done|].
  destruct IH as [IH1 IH2]; [intros r Hr; apply Hall; by right|].
  assert (current_hash ref = latest hm ref) as Href by (apply Hall; by left).
  split.
  - intros c. simpl. unfold apply_update at 2. rewrite decide_True by done. apply IH1.
  - rewrite filter_cons. by rewrite decide_False by auto.
Qed.

Lemma nothing_to_do hm d (items : list (Path * list ActionReference)) :
  (forall item ref, item ∈ items -> ref ∈ item.2 -> current_hash ref = latest hm ref) ->
  items ≫= item_events hm = [] /\ total_stale hm items = 0%nat /\
  changed_count hm d items = 0%nat /\ foldl (write_back hm d) d items = d.
Proof.
  unfold total_stale, changed_count.
  induction items as [|[f refs] items IH]; intros Hall; [done|].
  destruct IH as (IH1 & IH2 & IH3 & IH4); [intros item ref Hin; apply Hall; by right|].
  destruct (nothing_stale hm refs) as [Hc Hf]; [intros ref; apply (Hall (f, refs)); by left|].
  assert (new_content hm d (f, refs) = text_at d f) as Hnew.
  { unfold new_content. cbn [fst snd]. destruct (text_at d f) as [c|]; [|done].
    simpl. by rewrite Hc. }
  split; [|split; [|split]].
  - rewrite bind_cons, IH1. unfold item_events, update_events. cbn [fst snd].
    by rewrite Hf.
  - rewrite bind_cons, length_app. cbn [snd]. rewrite Hf. simpl. apply IH2.
  - rewrite filter_cons. cbn [fst]. rewrite decide_False by auto. apply IH3.
  - cbn [foldl]. assert (write_back hm d d (f, refs) = d) as ->; [|done].
    unfold write_back. rewrite Hnew. cbn [fst]. destruct (text_at d f); [|done].
    by rewrite decide_True.
Qed.

Lemma yml_files_view d d' directory :
  view <$> resolve d' directory = view <$> resolve d directory ->
  yml_files d' directory = yml_files d directory /\
  (forall es, resolve d directory = Some (Dir es) ->
              exists es', resolve d' directory = Some (Dir es')).
Proof.
  unfold yml_files.
  destruct (resolve d' directory) as [n'|], (resolve d directory) as [n|];
    simpl; intros Hview; try done.
  injection Hview as Hkind Hglob. rewrite Hglob. split; [done|].
  intros es [= ->]. destruct n'; [done|]. by eexists.
Qed.

Section AfterARun.

Variables (set_iter : list ActionReference -> list ActionReference)
          (directory : Path) (w : world) (hm : gmap str str) (qs : list str).

Let d0 := disk w.
Let items := scanned set_iter d0 directory.
Let d1 := foldl (write_back hm d0) d0 items.

Hypothesis Hord : set_order set_iter.
Hypothesis Hsha : sha1_history (history w).
Hypothesis Hnest :
  Forall (fun item : Path * list ActionReference =>
            Forall (fun ref => contains (action_path ref) (lit "XRPLF/actions/") = false)
                   item.2) items.
Hypothesis Hqs : forall p, p ∈ qs <-> p ∈ paths_of items.
Hypothesis Hval :
  forall p, p ∈ qs -> exists h, resolved (history w) p = Ok h /\ hm !! p = Some h.

(** A reference of a file of the scan has its path resolved. *)
Lemma scanned_reference_resolved f c ref :
  f ∈ yml_files d0 directory -> text_at d0 f = Some c ->
  ref ∈ reference_of <$> finditer PATTERN c ->
  (f, references_in set_iter c) ∈ items /\
  contains (action_path ref) (lit "XRPLF/actions/") = false /\
  exists h, resolved (history w) (action_path ref) = Ok h /\ latest hm ref = h /\ is_hash h.
Proof.
  intros Hf Hc Href. apply (references_in_elem set_iter) in Href; [|done].
  assert ((f, references_in set_iter c) ∈ items) as Hitem.
  { destruct (scanned_spec set_iter d0 directory) as (_ & _ & Hcomplete).
    apply Hcomplete; [done| |].
    - unfold scan_file. by rewrite Hc.
    - intros Hnil. rewrite Hnil in Href. by apply elem_of_nil in Href. }
  split; [done|]. split.
  - rewrite Forall_forall in Hnest. specialize (Hnest _ Hitem). cbn [snd] in Hnest.
    rewrite Forall_forall in Hnest. by apply Hnest.
  - destruct (Hval (action_path ref)) as (h & Hres & Hh).
    { apply Hqs. unfold paths_of. apply list_elem_of_fmap_2, list_elem_of_bind.
      by exists (f, references_in set_iter c). }
    exists h. split; [done|]. split; [unfold latest; by rewrite Hh|].
    by apply (Hsha (action_path ref)).
Qed.

(** After the run, a file of the directory reads as it did, with every
    reference at the hash resolved for its path. *)
Lemma first_run_text f c :
  f ∈ yml_files d0 directory -> text_at d0 f = Some c ->
  text_at d1 f = Some (retarget (latest hm) c).
Proof.
  intros Hf Hc. set (refs0 := reference_of <$> finditer PATTERN c).
  pose proof (Scan_finditer c) as Hscan. fold refs0 in Hscan.
  destruct (scanned_spec set_iter d0 directory) as (Hnd & Hsound & _).
  fold items in Hnd, Hsound.
  destruct (written_spec hm d0 items Hnd (scanned_readable _ _ _)) as (_ & Hother & Hitems).
  fold d1 in Hother, Hitems.
  destruct (decide (references_in set_iter c = [])) as [Hnil|Hne].
  - apply references_in_nil in Hnil; [|done]. unfold refs0 in Hscan. rewrite Hnil in Hscan.
    rewrite (retarget_id _ _ _ Hscan) by constructor.
    rewrite text_at_file_at, Hother, <- text_at_file_at; [done|].
    intros ([f' refs] & -> & Hin)%list_elem_of_fmap.
    destruct (Hsound _ _ Hin) as (Hs & Hrefs & _). unfold scan_file in Hs.
    cbn [fst] in *. rewrite Hc in Hs. injection Hs as <-.
    apply Hrefs. apply references_in_nil; done.
  - assert ((f, references_in set_iter c) ∈ items) as Hitem.
    { destruct (scanned_spec set_iter d0 directory) as (_ & _ & Hcomplete).
      apply Hcomplete; [done| |done]. unfold scan_file. by rewrite Hc. }
    assert (foldl (apply_update hm) c (references_in set_iter c)
            = retarget (latest hm) c) as Hfinal.
    { apply (foldl_apply_update_unnested _ _ refs0); [done| | |].
      - intros ref Href. by destruct (scanned_reference_resolved f c ref) as (_ & ? & _).
      - intros ref Href.
        destruct (scanned_reference_resolved f c ref) as (_ & _ & h & _ & -> & ?); done.
      - intros ref. by apply references_in_elem. }
    assert (new_content hm d0 (f, references_in set_iter c)
            = Some (retarget (latest hm) c)) as Hnew.
    { unfold new_content. cbn [fst snd]. rewrite Hc. simpl. by rewrite Hfinal. }
    destruct (Hitems _ Hitem) as [[Hsame Hfile]|(_ & c' & Hc' & Hfile)]; cbn [fst] in *.
    + rewrite text_at_file_at, Hfile, <- text_at_file_at. by rewrite <- Hsame.
    + rewrite text_at_file_at, Hfile. simpl. rewrite Hnew in Hc'. injection Hc' as <-.
      f_equal. apply universal_newlines_id.
      apply (Rewritten_no_cr c).
      * apply (Rewritten_retarget _ _ refs0); [done|]. apply Forall_forall. intros ref Href.
        destruct (scanned_reference_resolved f c ref) as (_ & _ & h & _ & -> & ?); [done..|].
        by apply is_hash_full.
      * rewrite text_at_file_at in Hc. destruct (file_at d0 f) as [data|]; [|done].
        injection Hc as <-. apply universal_newlines_no_cr.
Qed.

(** In the scan of the disk after the run, every reference is at the
    hash resolved for its path. *)
Lemma second_scan_up_to_date set_iter' f refs ref :
  set_order set_iter' ->
  Forall (fun f => is_Some (text_at d0 f)) (yml_files d0 directory) ->
  yml_files d1 directory = yml_files d0 directory ->
  (f, refs) ∈ scanned set_iter' d1 directory -> ref ∈ refs ->
  resolved (history w) (action_path ref) = Ok (current_hash ref).
Proof.
  intros Hord' Hread Hfiles Hin Href.
  destruct (scanned_items _ _ _ _ _ Hin) as (c1 & Hc1 & -> & _ & Hf).
  rewrite Hfiles in Hf. rewrite Forall_forall in Hread. destruct (Hread _ Hf) as [c Hc].
  rewrite (first_run_text f c Hf Hc) in Hc1. injection Hc1 as <-.
  apply (references_in_elem set_iter') in Href; [|done].
  assert (reference_of <$> finditer PATTERN (retarget (latest hm) c)
          = retarget_reference (latest hm) <$> (reference_of <$> finditer PATTERN c)) as Heq.
  { symmetry. apply Scan_unique, Scan_retarget; [apply Scan_finditer|].
    apply Forall_forall. intros r Hr.
    destruct (scanned_reference_resolved f c r) as (_ & _ & h & _ & -> & ?); done. }
  rewrite Heq in Href. apply list_elem_of_fmap in Href as (ref0 & -> & Href0).
  destruct (scanned_reference_resolved f c ref0) as (_ & _ & h & Hres & Hl & _); [done..|].
  cbn [retarget_reference action_path current_hash]. by rewrite Hl.
Qed.

End AfterARun.

(** C3, amended.  After a normal run that came to its end, where the
    history answers with 40-digit hashes and no path of a reference of the
    scan holds the text [XRPLF/actions/], a second run on the same history,
    in either mode, comes to its end as well, prints no substitution,
    reports zero updates and zero files, and leaves the disk as the first
    run left it. *)
Theorem second_run_changes_nothing set_iter set_iter' dry_run' directory w w1 :
  set_order set_iter -> set_order set_iter' ->
  sha1_history (history w) ->
  Forall (fun item : Path * list ActionReference =>
            Forall (fun ref => contains (action_path ref) (lit "XRPLF/actions/") = false)
                   item.2) (scanned set_iter (disk w) directory) ->
  main set_iter false directory w = (Ok (), w1) ->
  exists found qs',
    Forall (fun e => is_found e = true) found /\
    main set_iter' dry_run' directory w1 =
    (Ok (), mkWorld (disk w1) (history w) (git_calls w1 ++ qs')
                    (console w1 ++ found ++ [Banner dry_run'; Summary dry_run' 0 0])).
Proof.
  intros Hord Hord' Hsha Hnest Hrun.
  destruct (main_Ok _ _ _ _ _ Hrun) as (es & hm & qs & Hdir & Hread & _ & Hqs & Hval & _ & Hw1).
  destruct (scanned_spec set_iter (disk w) directory) as (Hnd & _ & _).
  destruct (written_spec hm (disk w) _ Hnd (scanned_readable _ _ _)) as (Hview & _ & _).
  set (d1 := foldl (write_back hm (disk w)) (disk w) (scanned set_iter (disk w) directory)) in *.
  assert (disk w1 = d1) as Hd1 by (by rewrite Hw1).
  assert (history w1 = history w) as Hh1 by (by rewrite Hw1).
  destruct (yml_files_view (disk w) d1 directory (Hview directory)) as [Hfiles Hisdir].
  assert (forall f refs ref, (f, refs) ∈ scanned set_iter' d1 directory -> ref ∈ refs ->
            resolved (history w) (action_path ref) = Ok (current_hash ref)) as Hcurrent.
  { intros f refs ref. by apply (second_scan_up_to_date set_iter directory w hm qs). }
  exists (yml_files d1 directory ≫= found_event set_iter' d1).
  destruct (main_cases set_iter' directory w1)
    as [[Hno _]|[(f & evs & Hf & Hnone & _ & _)|[(e & qs' & p & _ & Hqs' & He & _ & _)|
        (es' & hm' & qs' & _ & _ & _ & Hqs' & Hval' & _ & Hrun')]]];
    rewrite ?Hd1, ?Hh1 in *.
  - exfalso. destruct (Hisdir _ Hdir) as [es' Hes']. by apply (Hno es').
  - exfalso. rewrite Hfiles in Hf. rewrite Forall_forall in Hread.
    destruct (Hread _ Hf) as [c Hc].
    assert (text_at d1 f = Some (retarget (latest hm) c)) as Ht
      by (by apply (first_run_text set_iter directory w hm qs)).
    congruence.
  - exfalso. assert (p ∈ paths_of (scanned set_iter' d1 directory)) as Hp.
    { apply Hqs'. rewrite elem_of_app, list_elem_of_singleton. by right. }
    unfold paths_of in Hp. apply list_elem_of_fmap in Hp as (ref & -> & Href).
    apply list_elem_of_bind in Href as ([f refs] & Href & Hitem).
    rewrite (Hcurrent _ _ _ Hitem Href) in He. done.
  - exists qs'. split; [apply found_events_found|]. rewrite (Hrun' dry_run').
    destruct (nothing_to_do hm' d1 (scanned set_iter' d1 directory))
      as (Hev & Hst & Hch & Hdisk).
    { intros [f refs] ref Hitem Href. cbn [snd] in Href.
      destruct (Hval' (action_path ref)) as (h & Hres & Hh).
      - apply Hqs'. unfold paths_of. apply list_elem_of_fmap_2, list_elem_of_bind.
        by exists (f, refs).
      - rewrite (Hcurrent _ _ _ Hitem Href) in Hres. injection Hres as <-.
        unfold latest. by rewrite Hh. }
    rewrite Hev, Hst, Hch, Hdisk. f_equal. f_equal. by destruct dry_run'.
Qed.

(** ** One hash for a path *)


(** * Further properties of the script *)

(** ** [str.strip] *)

Lemma lstrip_spec s :
  exists l, s = l ++ lstrip s /\ Forall (fun c => isspace c = true) l /\
            forall c t, lstrip s = c :: t -> isspace c = false.
Proof.
  induction s as [|a s (l & Hs & Hl & Hhead)]; [by exists []|].
  cbn [lstrip]. destruct (isspace a) eqn:Ha.
  - exists (a :: l). split; [by rewrite Hs at 1|]. split; [by constructor|done].
  - exists []. split; [done|]. split; [constructor|]. by intros c t [= <- _].
Qed.

(** What [strip] leaves: the text between the whitespace at both ends. *)
Lemma strip_spec s :
  exists l r, s = l ++ strip s ++ r /\
              Forall (fun c => isspace c = true) l /\
              Forall (fun c => isspace c = true) r /\
              (forall c t, strip s = c :: t -> isspace c = false) /\
              (forall t c, strip s = t ++ [c] -> isspace c = false).
Proof.
  unfold strip. destruct (lstrip_spec s) as (l & Hs & Hl & Hhead).
  destruct (lstrip_spec (reverse (lstrip s))) as (r & Ht & Hr & Hlast).
  set (u := lstrip (reverse (lstrip s))) in *.
  assert (lstrip s = reverse u ++ reverse r) as Hmid.
  { rewrite <- reverse_app, <- Ht. by rewrite reverse_involutive. }
  exists l, (reverse r). split; [by rewrite <- Hmid|]. split; [done|].
  split; [by apply Forall_reverse|]. split.
  - intros c t Hc. apply (Hhead c (t ++ reverse r)). by rewrite Hmid, Hc.
  - intros t c Hc. apply (Hlast c (reverse t)).
    rewrite <- (reverse_involutive u), Hc, reverse_app. done.
Qed.

(** ** The history query *)

(** X1.  A hash that [get_latest_commit_for_path] returns comes from a
    query that exited with status zero; it is the standard output of the
    query without the whitespace at its two ends, so it is not empty and
    neither starts nor ends with whitespace; and exactly that one query was
    made. *)
Theorem latest_commit_is_the_stripped_output target_path w commit_hash w' :
  get_latest_commit_for_path target_path w = (Ok commit_hash, w') ->
  returncode (history w target_path) = 0%Z /\
  (exists l r, stdout (history w target_path) = l ++ commit_hash ++ r /\
               Forall (fun c => isspace c = true) l /\
               Forall (fun c => isspace c = true) r) /\
  (exists c t, commit_hash = c :: t /\ isspace c = false) /\
  (exists t c, commit_hash = t ++ [c] /\ isspace c = false) /\
  w' = log_calls w [target_path].
Proof.
  rewrite get_latest_commit_for_path_run. intros [= Hres <-].
  apply resolved_Ok in Hres as (Hz & -> & Hne).
  destruct (strip_spec (stdout (history w target_path))) as (l & r & Hs & Hl & Hr & Hhead & Hlast).
  split; [done|]. split; [by exists l, r|]. split; [|split; [|done]].
  - destruct (strip (stdout (history w target_path))) as [|c t] eqn:Hst; [done|].
    exists c, t. split; [done|]. by apply (Hhead c t).
  - destruct (strip (stdout (history w target_path))) as [|c t _] eqn:Hst using rev_ind; [done|].
    exists t, c. split; [done|]. by apply (Hlast t c).
Qed.

(** ** The ways a run fails *)

(** X3.  A run ends with the [AssertionError] of the directory check
    exactly where the path given is not a directory (it is missing, or a
    file), and then nothing was printed, queried or written. *)
Theorem not_a_directory_is_refused set_iter dry_run directory w w' :
  main set_iter dry_run directory w =
  (Raised (AssertionError "Provided path is not a directory"), w') <->
  (forall es, resolve (disk w) directory <> Some (Dir es)) /\ w' = w.
Proof.
  split.
  - intros Hrun.
    destruct (main_cases set_iter directory w)
      as [[Hno Hrun']|[(f & evs & _ & _ & _ & Hrun')|[(e & qs & p & _ & _ & He & _ & Hrun')|
          (es & hm & qs & _ & _ & _ & _ & _ & _ & Hrun')]]];
      rewrite (Hrun' dry_run) in Hrun.
    + by injection Hrun as <-.
    + exfalso. unfold read_error in Hrun. by destruct (resolve (disk w) f).
    + exfalso. injection Hrun as -> _.
      apply resolved_Raised in He as [[_ ?]|(_ & _ & ?)]; done.
    + done.
  - intros [Hno ->]. rewrite main_run.
    destruct (resolve (disk w) directory) as [[|es]|]; [done| |done]. by destruct (Hno es).
Qed.

(** X4.  The rewriter looks up [hash_mapping[ref.action_path]] for paths
    that the resolver has put in the mapping: whatever the directory and
    the history, a run does not end with a [KeyError]. *)
Theorem the_lookup_finds_every_path set_iter dry_run directory w key :
  (main set_iter dry_run directory w).1 <> Raised (KeyError key).
Proof.
  destruct (main_cases set_iter directory w)
    as [[Hno Hrun]|[(f & evs & Hf & Hnone & _ & Hrun)|[(e & qs & p & _ & Hqs & He & _ & Hrun)|
        (es & hm & qs & _ & _ & _ & _ & _ & _ & Hrun)]]];
    rewrite (Hrun dry_run); cbn [fst]; [done| | |done].
  - unfold read_error. by destruct (resolve (disk w) f).
  - apply resolved_Raised in He as [[_ ->]|(_ & _ & ->)]; done.
Qed.

(** X5.  Every write comes after the scan and after the last history
    query: where a run, however it ends, leaves a file with another content
    than it had, the run was a normal one, the scan had read every path of
    the enumeration, the history had answered the query for every path of
    the scan with a hash, and the file is one in which the scanner found a
    reference. *)
Theorem a_write_comes_after_every_query set_iter dry_run directory w o w' q :
  main set_iter dry_run directory w = (o, w') ->
  file_at (disk w') q <> file_at (disk w) q ->
  dry_run = false /\
  Forall (fun f => is_Some (file_at (disk w) f)) (yml_files (disk w) directory) /\
  (forall p, p ∈ paths_of (scanned set_iter (disk w) directory) ->
             exists h, resolved (history w) p = Ok h) /\
  q ∈ (scanned set_iter (disk w) directory).*1.
Proof.
  intros Hrun Hq.
  destruct (main_cases set_iter directory w)
    as [[Hno Hrun']|[(f & evs & _ & _ & _ & Hrun')|[(e & qs & p & _ & _ & _ & _ & Hrun')|
        (es & hm & qs & _ & Hread & _ & Hqs & Hval & _ & Hrun')]]];
    rewrite (Hrun' dry_run) in Hrun; injection Hrun as <- <-; cbn [disk log_events log_calls] in Hq;
    [done..|].
  destruct dry_run; [done|]. split; [done|]. split; [|split].
  - eapply Forall_impl; [exact Hread|]. intros f [c Hc]. rewrite text_at_file_at in Hc.
    destruct (file_at (disk w) f); [by eexists|done].
  - intros p Hp%Hqs. destruct (Hval p Hp) as (h & Hh & _). by exists h.
  - destruct (scanned_spec set_iter (disk w) directory) as (Hnd & _ & _).
    destruct (written_spec hm (disk w) _ Hnd (scanned_readable _ _ _)) as (_ & Hother & _).
    destruct (decide (q ∈ (scanned set_iter (disk w) directory).*1)) as [|Hout]; [done|].
    by destruct Hq; apply Hother.
Qed.

(** The scanner stops at the first path it cannot read, with what it
    found before printed. *)
Lemma collect_loop_stops set_iter files1 f files2 acc w :
  Forall (fun f => is_Some (text_at (disk w) f)) files1 -> text_at (disk w) f = None ->
  foldM (collect_file set_iter) acc (files1 ++ f :: files2) w =
  (Raised (read_error (disk w) f), log_events w (files1 ≫= found_event set_iter (disk w))).
Proof.
  intros Hread Hnone. rewrite foldM_app.
  destruct (collect_loop_run set_iter files1 acc w)
    as [[_ ->]|(f' & evs & Hin & Hnone' & _ & _)].
  - rewrite foldM_cons, collect_file_run. unfold scan_file. cbn [disk log_events].
    by rewrite Hnone.
  - rewrite Forall_forall in Hread. destruct (Hread _ Hin) as [c Hc]. congruence.
Qed.

(** X6.  [rglob] also gives a directory whose name ends in [.yml].
    Where the first path of the enumeration that is not a file is such a
    directory, the run ends there with [IsADirectoryError], in either mode,
    with the findings in the files before it printed and nothing else
    done. *)
Theorem a_directory_named_yml_aborts_the_scan set_iter dry_run directory w
    files1 f files2 es :
  yml_files (disk w) directory = files1 ++ f :: files2 ->
  Forall (fun f => is_Some (file_at (disk w) f)) files1 ->
  resolve (disk w) f = Some (Dir es) ->
  main set_iter dry_run directory w =
  (Raised (IsADirectoryError f),
   log_events w (files1 ≫= found_event set_iter (disk w))).
Proof.
  intros Hfiles Hread Hf. rewrite main_run.
  assert (exists es', resolve (disk w) directory = Some (Dir es')) as [es' Hdir].
  { unfold yml_files in Hfiles. destruct (resolve (disk w) directory) as [[|es']|].
    - by destruct files1.
    - by exists es'.
    - by destruct files1. }
  rewrite Hdir, Hfiles, (collect_loop_stops set_iter files1 f files2).
  - unfold read_error. by rewrite Hf.
  - eapply Forall_impl; [exact Hread|]. intros f' [c Hc]. rewrite text_at_file_at, Hc. by eexists.
  - unfold text_at. by rewrite Hf.
Qed.

(** ** What a run prints *)

Lemma dict_set_length {K V} `{EqDecision K} (k : K) (v : V) d :
  (length (dict_set k v d) <= S (length d))%nat.
Proof.
  induction d as [|[k' v'] d IH]; simpl; [lia|]. destruct (decide (k = k')); simpl; lia.
Qed.

Lemma scanned_length set_iter d files acc :
  (length (foldl (collect_step set_iter d) acc files)
   <= length acc + length (files ≫= found_event set_iter d))%nat.
Proof.
  revert acc. induction files as [|f files IH]; intros acc; [cbn; lia|].
  cbn [foldl]. rewrite bind_cons, length_app. etransitivity; [apply IH|].
  unfold collect_step, found_event at 2.
  destruct (scan_file set_iter d f) as [[|r refs]|]; cbn [length]; [lia| |lia].
  pose proof (dict_set_length f (r :: refs) acc). lia.
Qed.

Lemma item_events_length hm (items : list (Path * list ActionReference)) :
  length (items ≫= item_events hm) = total_stale hm items.
Proof.
  unfold total_stale. induction items as [|item items IH]; [done|].
  rewrite !bind_cons, !length_app, IH. unfold item_events, update_events.
  by rewrite length_fmap.
Qed.

Lemma item_events_update hm (items : list (Path * list ActionReference)) :
  Forall (fun e => is_update e = true) (items ≫= item_events hm).
Proof.
  apply Forall_forall. intros e (item & He & _)%list_elem_of_bind.
  unfold item_events, update_events in He. by apply list_elem_of_fmap in He as (ref & -> & _).
Qed.

Lemma changed_count_le hm d (items : list (Path * list ActionReference)) :
  (changed_count hm d items <= total_stale hm items)%nat /\
  (changed_count hm d items <= length items)%nat.
Proof.
  unfold changed_count, total_stale. split; [|apply length_filter].
  induction items as [|[f refs] items IH]; [done|].
  rewrite filter_cons, bind_cons, length_app. cbn [fst snd].
  destruct (decide (new_content hm d (f, refs) <> text_at d f)) as [Hch|_]; [|lia].
  cbn [length]. destruct (filter _ refs) as [|r l] eqn:Hfilter; [|simpl; lia].
  exfalso. apply Hch. unfold new_content. cbn [fst snd].
  destruct (text_at d f) as [c|]; [|done]. simpl. f_equal.
  apply nothing_stale. intros ref Href.
  destruct (decide (current_hash ref = latest hm ref)) as [|Hne]; [done|].
  assert (ref ∈ filter (fun ref => current_hash ref <> latest hm ref) refs) as Hin
    by (by apply list_elem_of_filter).
  rewrite Hfilter in Hin. by apply elem_of_nil in Hin.
Qed.

(** X7.  What a run that comes to its end has printed: the lines of the
    scanner, the banner, the substitutions, the summary, in this order.  The
    number of updates in the summary is the number of substitutions
    printed, and the number of files in it is at most that number and at
    most the number of files the scanner reported. *)
Theorem summary_counts_what_was_printed set_iter dry_run directory w w' :
  main set_iter dry_run directory w = (Ok (), w') ->
  exists found updates total_updates files_modified,
    console w' = console w ++ found ++ [Banner dry_run] ++ updates
                 ++ [Summary dry_run total_updates files_modified] /\
    Forall (fun e => is_found e = true) found /\
    Forall (fun e => is_update e = true) updates /\
    total_updates = length updates /\
    (files_modified <= total_updates)%nat /\
    (files_modified <= length found)%nat.
Proof.
  intros Hrun. destruct (main_Ok _ _ _ _ _ Hrun) as (es & hm & qs & _ & _ & _ & _ & _ & _ & ->).
  set (items := scanned set_iter (disk w) directory).
  exists (yml_files (disk w) directory ≫= found_event set_iter (disk w)),
         (items ≫= item_events hm), (total_stale hm items), (changed_count hm (disk w) items).
  split; [done|]. split; [apply found_events_found|]. split; [apply item_events_update|].
  split; [by rewrite item_events_length|].
  destruct (changed_count_le hm (disk w) items) as [Hle Hle']. split; [done|].
  etransitivity; [exact Hle'|].
  pose proof (scanned_length set_iter (disk w) (yml_files (disk w) directory) []) as Hlen.
  simpl in Hlen. exact Hlen.
Qed.

(** ** The scan, as a whole *)

Lemma dict_set_fresh {K V} `{EqDecision K} (k : K) (v : V) d :
  k ∉ d.*1 -> dict_set k v d = d ++ [(k, v)].
Proof.
  induction d as [|[k' v'] d IH]; [done|]. cbn [dict_set fmap list_fmap fst].
  intros [Hne Hk]%not_elem_of_cons. rewrite decide_False by done. by rewrite IH.
Qed.

Lemma scanned_item_keys set_iter d f item :
  item ∈ scanned_item set_iter d f -> item.1 = f.
Proof.
  unfold scanned_item. destruct (scan_file set_iter d f) as [[|r refs]|];
    [by intros ?%elem_of_nil|by intros ->%list_elem_of_singleton|by intros ?%elem_of_nil].
Qed.

(** Where the enumeration gives no path twice, the scanner collects an
    item in the order of the enumeration, and prints a line, for every
    path with a reference. *)
Lemma scanned_distinct set_iter d files acc :
  NoDup files -> (forall f, f ∈ files -> f ∉ acc.*1) ->
  foldl (collect_step set_iter d) acc files = acc ++ (files ≫= scanned_item set_iter d) /\
  files ≫= found_event set_iter d
  = (fun item : Path * list ActionReference => Found item.1 item.2)
      <$> (files ≫= scanned_item set_iter d).
Proof.
  intros Hnd. revert acc. induction Hnd as [|f files Hf Hnd IH]; intros acc Hacc.
  { split; [by rewrite app_nil_r|done]. }
  cbn [foldl]. rewrite !bind_cons, fmap_app.
  assert (collect_step set_iter d acc f = acc ++ scanned_item set_iter d f /\
          found_event set_iter d f
          = (fun item : Path * list ActionReference => Found item.1 item.2)
              <$> scanned_item set_iter d f) as [Hstep Hev].
  { unfold collect_step, scanned_item, found_event.
    destruct (scan_file set_iter d f) as [[|r refs]|]; [by rewrite app_nil_r| |by rewrite app_nil_r].
    split; [|done]. apply dict_set_fresh, Hacc. by left. }
  destruct (IH (collect_step set_iter d acc f)) as [IH1 IH2].
  - intros f' Hf'. rewrite Hstep, fmap_app, not_elem_of_app. split.
    + apply Hacc. by right.
    + intros (item & -> & Hitem)%list_elem_of_fmap. apply scanned_item_keys in Hitem.
      congruence.
  - split; [by rewrite IH1, Hstep, (assoc_L (++))|by rewrite IH2, Hev].
Qed.

(** X8.  A scan that comes to its end, of a directory whose enumeration
    gives no path twice, returns a dictionary with every file once, each
    with a set of references that is not empty and holds no reference
    twice; it has printed one line for each entry of the dictionary, in
    their order, and has done nothing else: no history query, no write. *)
Theorem the_scan_only_reads_and_reports set_iter directory w all_references w' :
  set_order set_iter ->
  NoDup (yml_files (disk w) directory) ->
  collect_all_references set_iter directory w = (Ok all_references, w') ->
  NoDup all_references.*1 /\
  (forall file refs, (file, refs) ∈ all_references -> refs <> [] /\ NoDup refs) /\
  w' = log_events w ((fun item : Path * list ActionReference => Found item.1 item.2)
                       <$> all_references).
Proof.
  intros Hord Hfiles. rewrite collect_all_references_run.
  destruct (collect_loop_run set_iter (yml_files (disk w) directory) [] w)
    as [[_ ->]|(f & evs & _ & _ & _ & ->)]; [|done].
  intros [= <- <-]. destruct (scanned_spec set_iter (disk w) directory) as (Hnd & _ & _).
  split; [done|]. split.
  - intros file refs Hin. destruct (scanned_items _ _ _ _ _ Hin) as (c & _ & -> & Hne & _).
    split; [done|]. unfold references_in.
    rewrite (Hord _ (NoDup_remove_dups _)). apply NoDup_remove_dups.
  - destruct (scanned_distinct set_iter (disk w) (yml_files (disk w) directory) [] Hfiles)
      as [Hitems Hevs]; [by intros f _ ?%elem_of_nil|].
    by rewrite Hevs, Hitems.
Qed.

(** ** The disk after a normal run *)

(** X9.  A normal run leaves a file exactly as it is stored, carriage
    returns included, where the enumeration does not give its path (it is
    outside of the directory, or its name does not end in [.yml]) or where
    every reference in it (there may be none) is at the hash the history
    gives for its path. *)
Theorem a_file_with_no_stale_reference_is_untouched set_iter directory w w' q :
  set_order set_iter ->
  main set_iter false directory w = (Ok (), w') ->
  (q ∉ yml_files (disk w) directory \/
   exists before,
     file_at (disk w) q = Some before /\
     forall ref, ref ∈ reference_of <$> finditer PATTERN (universal_newlines before) ->
                 resolved (history w) (action_path ref) = Ok (current_hash ref)) ->
  file_at (disk w') q = file_at (disk w) q.
Proof.
  intros Hord Hrun Hq.
  destruct (main_Ok _ _ _ _ _ Hrun) as (es & hm & qs & _ & _ & _ & Hqs & Hval & _ & ->).
  cbn [disk]. set (d0 := disk w) in *. set (items := scanned set_iter d0 directory) in *.
  destruct (scanned_spec set_iter d0 directory) as (Hnd & Hsound & _). fold items in Hnd, Hsound.
  destruct (written_spec hm d0 items Hnd (scanned_readable _ _ _)) as (_ & Hother & Hitems).
  destruct (decide (q ∈ items.*1)) as [Hin|Hout]; [|by apply Hother].
  apply list_elem_of_fmap in Hin as ([f refs] & -> & Hin). cbn [fst] in *.
  destruct Hq as [Hq|(before & Hbefore & Hcurrent)].
  { destruct (Hsound _ _ Hin) as (_ & _ & Hf). done. }
  destruct (Hitems _ Hin) as [[_ Hsame]|(Hch & _)]; [done|]. exfalso. apply Hch.
  destruct (scanned_items _ _ _ _ _ Hin) as (c & Hc & -> & _ & _).
  unfold new_content. cbn [fst snd]. rewrite Hc. simpl. f_equal.
  apply nothing_stale. intros ref Href.
  rewrite text_at_file_at, Hbefore in Hc. injection Hc as <-.
  destruct (Hval (action_path ref)) as (h & Hres & Hh).
  { apply Hqs. unfold paths_of. apply list_elem_of_fmap_2, list_elem_of_bind.
    by eexists (f, _). }
  apply references_in_elem in Href; [|done].
  rewrite (Hcurrent _ Href) in Hres. injection Hres as <-.
  unfold latest. by rewrite Hh.
Qed.

(** X10.  A normal run makes and removes no file and no directory: a path
    is a file after the run exactly if it was one before, likewise for a
    directory, and the enumeration of any directory gives what it gave. *)
Theorem a_run_keeps_the_tree set_iter directory w w' q :
  main set_iter false directory w = (Ok (), w') ->
  (is_Some (file_at (disk w') q) <-> is_Some (file_at (disk w) q)) /\
  ((exists es, resolve (disk w') q = Some (Dir es)) <->
   (exists es, resolve (disk w) q = Some (Dir es))) /\
  yml_files (disk w') q = yml_files (disk w) q.
Proof.
  intros Hrun.
  destruct (main_Ok _ _ _ _ _ Hrun) as (es & hm & qs & _ & _ & _ & _ & _ & _ & ->).
  cbn [disk]. set (d0 := disk w) in *. set (items := scanned set_iter d0 directory) in *.
  destruct (scanned_spec set_iter d0 directory) as (Hnd & _ & _). fold items in Hnd.
  destruct (written_spec hm d0 items Hnd (scanned_readable _ _ _)) as (Hview & _ & _).
  specialize (Hview q). set (d1 := foldl (write_back hm d0) d0 items) in *.
  split; [|split].
  - unfold file_at. destruct (resolve d1 q) as [[|]|], (resolve d0 q) as [[|]|];
      try done; split; intros [? ?]; done || by eexists.
  - destruct (resolve d1 q) as [[|]|], (resolve d0 q) as [[|]|];
      try done; split; intros [? ?]; done || by eexists.
  - by apply yml_files_view.
Qed.

(** ** The references after a normal run *)

(** X11.  After a normal run that came to its end, where the history
    answers with 40-digit hashes and no path of a reference of the scan
    holds the text [XRPLF/actions/], a file of the enumeration reads with
    the references it had, to the same paths in the same order, and every
    one of them is at the hash the history gives for its path. *)
Theorem after_a_run_every_reference_is_current set_iter directory w w' f c :
  set_order set_iter ->
  sha1_history (history w) ->
  Forall (fun item : Path * list ActionReference =>
            Forall (fun ref => contains (action_path ref) (lit "XRPLF/actions/") = false)
                   item.2) (scanned set_iter (disk w) directory) ->
  main set_iter false directory w = (Ok (), w') ->
  f ∈ yml_files (disk w) directory -> text_at (disk w) f = Some c ->
  exists c',
    text_at (disk w') f = Some c' /\
    action_path <$> (reference_of <$> finditer PATTERN c')
    = action_path <$> (reference_of <$> finditer PATTERN c) /\
    Forall (fun ref => resolved (history w) (action_path ref) = Ok (current_hash ref))
           (reference_of <$> finditer PATTERN c').
Proof.
  intros Hord Hsha Hnest Hrun Hf Hc.
  destruct (main_Ok _ _ _ _ _ Hrun) as (es & hm & qs & _ & _ & _ & Hqs & Hval & _ & ->).
  cbn [disk]. exists (retarget (latest hm) c).
  split; [by apply (first_run_text set_iter directory w hm qs)|].
  assert (forall ref, ref ∈ reference_of <$> finditer PATTERN c ->
            exists h, resolved (history w) (action_path ref) = Ok h /\ latest hm ref = h /\
                      is_hash h) as Hres.
  { intros ref Href.
    by destruct (scanned_reference_resolved set_iter directory w hm qs Hord Hsha Hnest Hqs Hval
                   f c ref) as (_ & _ & ?). }
  assert (reference_of <$> finditer PATTERN (retarget (latest hm) c)
          = retarget_reference (latest hm) <$> (reference_of <$> finditer PATTERN c)) as ->.
  { symmetry. apply Scan_unique, Scan_retarget; [apply Scan_finditer|].
    apply Forall_forall. intros r Hr. by destruct (Hres r Hr) as (h & _ & -> & ?). }
  split.
  - rewrite <- list_fmap_compose. by apply list_fmap_ext.
  - apply Forall_fmap, Forall_forall. intros ref Href.
    destruct (Hres ref Href) as (h & Hh & Hl & _). simpl. by rewrite Hl.
Qed.

(** ** The order in which a set is iterated *)

Lemma scanned_other_order set_iter set_iter' d directory f refs :
  set_order set_iter -> set_order set_iter' ->
  (f, refs) ∈ scanned set_iter d directory ->
  exists refs', (f, refs') ∈ scanned set_iter' d directory /\
                forall ref, ref ∈ refs' <-> ref ∈ refs.
Proof.
  intros Hord Hord' Hin. destruct (scanned_items _ _ _ _ _ Hin) as (c & Hc & -> & Hne & Hf).
  exists (references_in set_iter' c). split.
  - destruct (scanned_spec set_iter' d directory) as (_ & _ & Hcomplete).
    apply Hcomplete; [done| |].
    + unfold scan_file. by rewrite Hc.
    + rewrite references_in_nil by done. by rewrite <- (references_in_nil set_iter).
  - intros ref. by rewrite !references_in_elem.
Qed.

Lemma paths_of_other_order set_iter set_iter' d directory p :
  set_order set_iter -> set_order set_iter' ->
  p ∈ paths_of (scanned set_iter d directory) -> p ∈ paths_of (scanned set_iter' d directory).
Proof.
  intros Hord Hord'. unfold paths_of.
  intros (ref & -> & ([f refs] & Href & Hin)%list_elem_of_bind)%list_elem_of_fmap.
  destruct (scanned_other_order _ set_iter' _ _ _ _ Hord Hord' Hin) as (refs' & Hin' & Hrefs).
  apply list_elem_of_fmap_2, list_elem_of_bind. exists (f, refs'). split; [|done].
  by apply Hrefs.
Qed.

Section RewrittenFile.

Variables (set_iter : list ActionReference -> list ActionReference)
          (directory : Path) (w : world) (hm : gmap str str) (qs : list str).

Let d0 := disk w.
Let items := scanned set_iter d0 directory.
Let d1 := foldl (write_back hm d0) d0 items.

Hypothesis Hord : set_order set_iter.
Hypothesis Hsha : sha1_history (history w).
Hypothesis Hnest :
  Forall (fun item : Path * list ActionReference =>
            Forall (fun ref => contains (action_path ref) (lit "XRPLF/actions/") = false)
                   item.2) items.
Hypothesis Hqs : forall p, p ∈ qs <-> p ∈ paths_of items.
Hypothesis Hval :
  forall p, p ∈ qs -> exists h, resolved (history w) p = Ok h /\ hm !! p = Some h.

(** The content the rewriter computes for a file of the scan. *)
Lemma scanned_new_content f refs :
  (f, refs) ∈ items ->
  exists c, text_at d0 f = Some c /\ f ∈ yml_files d0 directory /\
            new_content hm d0 (f, refs) = Some (retarget (latest hm) c).
Proof.
  intros Hin. destruct (scanned_items _ _ _ _ _ Hin) as (c & Hc & -> & Hne & Hf).
  exists c. split; [done|]. split; [done|].
  unfold new_content. cbn [fst snd]. rewrite Hc. simpl. f_equal.
  apply (foldl_apply_update_unnested _ _ (reference_of <$> finditer PATTERN c)).
  - apply Scan_finditer.
  - intros ref Href.
    by destruct (scanned_reference_resolved set_iter directory w hm qs Hord Hsha Hnest Hqs Hval
                   f c ref) as (_ & ? & _).
  - intros ref Href.
    by destruct (scanned_reference_resolved set_iter directory w hm qs Hord Hsha Hnest Hqs Hval
                   f c ref) as (_ & _ & h & _ & -> & ?).
  - intros ref. by apply references_in_elem.
Qed.

(** The file the run leaves at a path it enumerated. *)
Lemma first_run_file f before :
  f ∈ yml_files d0 directory -> file_at d0 f = Some before ->
  file_at d1 f =
  Some (if decide (retarget (latest hm) (universal_newlines before) = universal_newlines before)
        then before else retarget (latest hm) (universal_newlines before)).
Proof.
  intros Hf Hbefore. set (c := universal_newlines before).
  assert (text_at d0 f = Some c) as Hc by (by rewrite text_at_file_at, Hbefore).
  destruct (scanned_spec set_iter d0 directory) as (Hnd & Hsound & Hcomplete).
  fold items in Hnd, Hsound, Hcomplete.
  destruct (written_spec hm d0 items Hnd (scanned_readable _ _ _)) as (_ & Hother & Hitems).
  fold d1 in Hother, Hitems.
  destruct (decide (references_in set_iter c = [])) as [Hnil|Hne].
  - apply references_in_nil in Hnil; [|done].
    pose proof (Scan_finditer c) as Hscan. rewrite Hnil in Hscan.
    rewrite (retarget_id _ _ _ Hscan) by constructor. rewrite decide_True by done.
    rewrite Hother; [done|].
    intros ([f' refs] & -> & Hin)%list_elem_of_fmap.
    destruct (Hsound _ _ Hin) as (Hs & Hrefs & _). unfold scan_file in Hs.
    cbn [fst] in *. rewrite Hc in Hs. injection Hs as <-.
    apply Hrefs. by apply references_in_nil.
  - assert ((f, references_in set_iter c) ∈ items) as Hitem.
    { apply Hcomplete; [done| |done]. unfold scan_file. by rewrite Hc. }
    destruct (scanned_new_content _ _ Hitem) as (c' & Hc' & _ & Hnew).
    assert (c' = c) as -> by congruence.
    destruct (Hitems _ Hitem) as [[Hsame Hfile]|(Hch & c2 & Hc2 & Hfile)]; cbn [fst] in *.
    + rewrite Hnew, Hc in Hsame. injection Hsame as Hsame.
      by rewrite decide_True, Hfile.
    + rewrite Hnew, Hc in Hch. rewrite decide_False by congruence.
      rewrite Hfile. congruence.
Qed.

End RewrittenFile.

Lemma dict_set_same_item k v v' acc acc' :
  v ≡ₚ v' -> Forall2 same_item acc acc' ->
  Forall2 same_item (dict_set k v acc) (dict_set k v' acc').
Proof.
  intros Hv. induction 1 as [|[k1 v1] [k2 v2] acc acc' [Hk Hv12] Hacc IH]; simpl in *.
  - by repeat constructor.
  - subst k2. destruct (decide (k = k1)); by repeat constructor.
Qed.

Lemma scanned_same_items set_iter set_iter' d files acc acc' :
  set_order set_iter -> set_order set_iter' -> Forall2 same_item acc acc' ->
  Forall2 same_item (foldl (collect_step set_iter d) acc files)
                    (foldl (collect_step set_iter' d) acc' files).
Proof.
  intros Hord Hord'. revert acc acc'. induction files as [|f files IH]; intros acc acc' Hacc; [done|].
  cbn [foldl]. apply IH. unfold collect_step, scan_file.
  destruct (text_at d f) as [c|]; [|done]. simpl.
  assert (references_in set_iter c ≡ₚ references_in set_iter' c) as Hperm.
  { unfold references_in. by rewrite (Hord _ (NoDup_remove_dups _)), (Hord' _ (NoDup_remove_dups _)). }
  destruct (references_in set_iter c) as [|r refs], (references_in set_iter' c) as [|r' refs'].
  - done.
  - by apply Permutation_nil_cons in Hperm.
  - symmetry in Hperm. by apply Permutation_nil_cons in Hperm.
  - by apply dict_set_same_item.
Qed.

Lemma Forall2_elements {A B} (R Q : A -> B -> Prop) l k :
  Forall2 R l k -> (forall x y, x ∈ l -> y ∈ k -> R x y -> Q x y) -> Forall2 Q l k.
Proof.
  induction 1 as [|x y l k HR _ IH]; intros HQ; constructor.
  - apply HQ; [by left|by left|done].
  - apply IH. intros x' y' Hx Hy. apply HQ; by right.
Qed.

Lemma counts_agree hm hm' d items items' :
  Forall2 (fun x y => same_item x y /\
                      (forall ref, ref ∈ x.2 -> latest hm ref = latest hm' ref) /\
                      new_content hm d x = new_content hm' d y) items items' ->
  total_stale hm items = total_stale hm' items' /\
  changed_count hm d items = changed_count hm' d items'.
Proof.
  unfold total_stale, changed_count.
  induction 1 as [|[f refs] [f' refs'] items items' ([Hf Hrefs] & Hl & Hnew) _ [IH1 IH2]];
    [done|]. cbn [fst snd] in *. subst f'.
  rewrite !bind_cons, !length_app, !filter_cons, IH1. cbn [fst snd]. split.
  - f_equal. rewrite <- Hrefs.
    f_equal. apply filter_ext_in. intros ref Href. by rewrite (Hl ref Href).
  - rewrite Hnew. destruct (decide _); simpl; by rewrite IH2.
Qed.

(** X12.  Under the conditions of X11 the result of a run does not depend
    on the order in which Python iterates the sets of references: with
    another order the run comes to its end as well, every file holds the
    same content, the same history queries are made (in some order), and
    the summary reports the same numbers. *)
Theorem the_set_order_does_not_matter set_iter set_iter' dry_run directory w w1 :
  set_order set_iter -> set_order set_iter' ->
  sha1_history (history w) ->
  Forall (fun item : Path * list ActionReference =>
            Forall (fun ref => contains (action_path ref) (lit "XRPLF/actions/") = false)
                   item.2) (scanned set_iter (disk w) directory) ->
  main set_iter dry_run directory w = (Ok (), w1) ->
  exists w2,
    main set_iter' dry_run directory w = (Ok (), w2) /\
    (forall q, file_at (disk w2) q = file_at (disk w1) q) /\
    git_calls w2 ≡ₚ git_calls w1 /\
    last (console w2) = last (console w1).
Proof.
  intros Hord Hord' Hsha Hnest Hrun.
  destruct (main_Ok _ _ _ _ _ Hrun) as (es & hm & qs & Hdir & Hread & Hnd & Hqs & Hval & _ & ->).
  assert (Forall (fun item : Path * list ActionReference =>
            Forall (fun ref => contains (action_path ref) (lit "XRPLF/actions/") = false)
                   item.2) (scanned set_iter' (disk w) directory)) as Hnest'.
  { apply Forall_forall. intros [f refs'] Hin'.
    destruct (scanned_other_order set_iter' set_iter (disk w) directory f refs' Hord' Hord Hin')
      as (refs & Hin & Hrefs).
    rewrite Forall_forall in Hnest. specialize (Hnest _ Hin). cbn [snd] in *.
    rewrite Forall_forall in Hnest. apply Forall_forall. intros ref Href.
    by apply Hnest, Hrefs. }
  assert (forall p, p ∈ paths_of (scanned set_iter' (disk w) directory) <-> p ∈ paths_of (scanned set_iter (disk w) directory)) as Hpaths.
  { intros p. split; by apply paths_of_other_order. }
  destruct (main_cases set_iter' directory w)
    as [[Hno _]|[(f & evs & Hf & Hnone & _ & _)|[(e & qs' & p & _ & Hqs' & He & _ & _)|
        (es' & hm' & qs' & _ & _ & Hnd' & Hqs' & Hval' & _ & Hrun')]]].
  - exfalso. by apply (Hno es).
  - exfalso. rewrite Forall_forall in Hread. destruct (Hread _ Hf) as [c Hc].
    congruence.
  - exfalso. assert (p ∈ qs) as Hp.
    { apply Hqs, Hpaths, Hqs'. rewrite elem_of_app, list_elem_of_singleton. by right. }
    destruct (Hval p Hp) as (h & Hh & _). congruence.
  - rewrite (Hrun' dry_run). eexists. split; [done|].
    cbn [disk git_calls console].
    assert (forall f c ref, f ∈ yml_files (disk w) directory -> text_at (disk w) f = Some c ->
              ref ∈ reference_of <$> finditer PATTERN c ->
              latest hm ref = latest hm' ref) as Hlatest.
    { intros f c ref Hf Hc Href.
      destruct (scanned_reference_resolved set_iter directory w hm qs Hord Hsha Hnest Hqs Hval
                  f c ref Hf Hc Href) as (_ & _ & h & Hh & -> & _).
      destruct (scanned_reference_resolved set_iter' directory w hm' qs' Hord' Hsha Hnest' Hqs'
                  Hval' f c ref Hf Hc Href) as (_ & _ & h' & Hh' & -> & _).
      congruence. }
    assert (forall f c, f ∈ yml_files (disk w) directory -> text_at (disk w) f = Some c ->
              retarget (latest hm') c = retarget (latest hm) c) as Hretarget.
    { intros f c Hf Hc. apply (retarget_ext _ _ _ _ (Scan_finditer c)).
      apply Forall_forall. intros ref Href. symmetry. by apply (Hlatest f c). }
    split; [|split].
    + intros q. destruct dry_run; [done|]. cbn iota.
      destruct (decide (q ∈ yml_files (disk w) directory)) as [Hq|Hq].
      * rewrite Forall_forall in Hread. destruct (Hread _ Hq) as [c Hc].
        rewrite text_at_file_at in Hc.
        destruct (file_at (disk w) q) as [before|] eqn:Hbefore; [|done]. injection Hc as <-.
        rewrite (first_run_file set_iter directory w hm qs Hord Hsha Hnest Hqs Hval
                   q before Hq Hbefore).
        rewrite (first_run_file set_iter' directory w hm' qs' Hord' Hsha Hnest' Hqs' Hval'
                   q before Hq Hbefore).
        rewrite (Hretarget q); [done..|]. by rewrite text_at_file_at, Hbefore.
      * destruct (scanned_spec set_iter (disk w) directory) as (Hk & Hsound & _).
        destruct (scanned_spec set_iter' (disk w) directory) as (Hk' & Hsound' & _).
        destruct (written_spec hm (disk w) _ Hk (scanned_readable _ _ _)) as (_ & Hother & _).
        destruct (written_spec hm' (disk w) _ Hk' (scanned_readable _ _ _)) as (_ & Hother' & _).
        rewrite Hother, Hother'; [done| |].
        -- intros ([f refs] & -> & Hin)%list_elem_of_fmap.
           by destruct (Hsound' _ _ Hin) as (_ & _ & ?).
        -- intros ([f refs] & -> & Hin)%list_elem_of_fmap.
           by destruct (Hsound _ _ Hin) as (_ & _ & ?).
    + apply Permutation_app; [done|]. apply NoDup_Permutation; [done..|].
      intros p. by rewrite Hqs, Hqs', Hpaths.
    + destruct (counts_agree hm' hm (disk w) (scanned set_iter' (disk w) directory) (scanned set_iter (disk w) directory)) as [-> ->].
      * apply (Forall2_elements same_item).
        { apply scanned_same_items; [done..|constructor]. }
        intros [f refs'] [f' refs] Hin' Hin [Hf Hrefs]. cbn [fst snd] in *. subst f'.
        split; [done|].
        destruct (scanned_new_content set_iter directory w hm qs Hord Hsha Hnest Hqs Hval
                    _ _ Hin) as (c & Hc & Hfile & ->).
        destruct (scanned_new_content set_iter' directory w hm' qs' Hord' Hsha Hnest' Hqs' Hval'
                    _ _ Hin') as (c' & Hc' & _ & ->).
        assert (c' = c) as -> by congruence.
        split; [|by rewrite (Hretarget f)].
        intros ref Href. symmetry. apply (Hlatest f c); [done..|].
        destruct (scanned_items _ _ _ _ _ Hin') as (c2 & Hc2 & -> & _ & _).
        assert (c2 = c) as -> by congruence.
        by apply references_in_elem in Href.
      * by rewrite !(assoc_L (++)), !last_snoc.
Qed.

(** ** The example worlds *)

Lemma is_hash_check h :
  length h = 40%nat ->
  forallb (set_has (OneOf [Range "a" "f"; Range "0" "9"])) h = true -> is_hash h.
Proof.
  intros Hlen Hall. split; [done|]. apply Forall_forall. intros c Hc.
  apply hex_class. rewrite forallb_forall in Hall. by apply Hall, list_elem_of_In.
Qed.

Lemma resolved_history_b p : resolved history_b p = Ok hash_b.
Proof. done. Qed.

Lemma sha1_history_b : sha1_history history_b.
Proof. intros p h [= <-]. by apply is_hash_check. Qed.

Lemma sha1_history_foo : sha1_history history_foo.
Proof.
  intros p h. unfold resolved, history_foo.
  destruct (decide (p = lit "foo")); intros [= <-]; by apply is_hash_check.
Qed.

Lemma full_hash_history_b : full_hash_history history_b.
Proof. intros p h Hh. by apply is_hash_full, (sha1_history_b p). Qed.

Lemma full_hash_history_sha256 : full_hash_history history_sha256.
Proof.
  intros p h [= <-]. split; [vm_compute; lia|].
  apply Forall_forall. intros c Hc. apply hex_class.
  assert (forallb (set_has (OneOf [Range "a" "f"; Range "0" "9"]))
                  (strip (stdout (history_sha256 p))) = true) as Hall by (by vm_compute).
  rewrite forallb_forall in Hall. by apply Hall, list_elem_of_In.
Qed.


(** Where the history answers with 64 digits, two references to a path
    can end at two texts: the second substitution finds its reference in
    the text the first one put, the 40 digits it looks for being the first
    40 of the answer. *)
Lemma long_hash_is_put_twice :
  set_order id /\
  exists w' after,
    main id false [] twice_world = (Ok (), w') /\
    resolved (history twice_world) (lit "a") = Ok (hash_c ++ digits_24) /\
    file_at (disk w') [lit "ci.yml"] = Some after /\
    after = lit "XRPLF/actions/a@" ++ hash_c ++ digits_24 ++ digits_24 ++ [10]
            ++ lit "XRPLF/actions/a@" ++ hash_c ++ digits_24 ++ [10].
Proof.
  split; [apply set_order_id|].
  eexists _, _. split; [vm_compute; reflexivity|]. split; [vm_compute; reflexivity|].
  split; vm_compute; reflexivity.
Qed.

(** C9, as stated, fails on a directory named like a workflow file:
    [rglob] gives it with the files, and the scanner raises on it and
    returns nothing. *)
Lemma a_directory_is_enumerated_too :
  rglob [] ill_named_world = (Ok [[lit "ci.yml"]; [lit "notes.yml"]], ill_named_world) /\
  resolve (disk ill_named_world) [lit "notes.yml"] = Some (Dir [(lit "a.txt", File [])]) /\
  collect_all_references id [] ill_named_world
  = (Raised (IsADirectoryError [lit "notes.yml"]),
     log_events ill_named_world [Found [lit "ci.yml"] [get_nproc_a]]).
Proof. split; [|split]; vm_compute; reflexivity. Qed.

(** C5, as stated, fails on a file with DOS line ends: the normal run
    leaves it without its carriage return, a byte outside of every
    reference. *)
Lemma crlf_line_end_is_not_kept :
  set_order id /\ full_hash_history (history crlf_world) /\
  exists w' after,
    main id false [] crlf_world = (Ok (), w') /\
    file_at (disk crlf_world) [lit "ci.yml"] = Some crlf_yml /\
    file_at (disk w') [lit "ci.yml"] = Some after /\
    after = lit "uses: XRPLF/actions/get-nproc@" ++ hash_b ++ [10] /\
    after <> crlf_yml /\
    ~ Rewritten crlf_yml after.
Proof.
  split; [apply set_order_id|]. split; [apply full_hash_history_b|].
  eexists _, _. split; [vm_compute; reflexivity|]. split; [reflexivity|].
  split; [vm_compute; reflexivity|]. split; [vm_compute; reflexivity|].
  split; [by_compute|]. intros H%Rewritten_length. vm_compute in H. lia.
Qed.

(** Where the history answers with fewer than 40 digits, a run can take
    away text that follows a reference: the seven digits put in the place
    of the hash of the first reference make, with the digits after it, the
    text of the second reference, which is replaced in turn. *)
Lemma short_hash_eats_the_digits_after :
  set_order id /\
  reference_of <$> finditer PATTERN short_yml
  = [mkRef (lit "XRPLF/actions/a@" ++ hash_a) (lit "a") hash_a;
     mkRef (lit "XRPLF/actions/a@ccccccc" ++ digits_b) (lit "a") (lit "ccccccc" ++ digits_b)] /\
  exists w' after,
    main id false [] short_world = (Ok (), w') /\
    file_at (disk w') [lit "ci.yml"] = Some after /\
    after = lit "XRPLF/actions/a@ccccccc" ++ [10] ++ lit "XRPLF/actions/a@ccccccc" ++ [10] /\
    ~ Rewritten short_yml after.
Proof.
  split; [apply set_order_id|]. split; [vm_compute; reflexivity|].
  eexists _, _. split; [vm_compute; reflexivity|]. split; [vm_compute; reflexivity|].
  split; [vm_compute; reflexivity|]. intros H%Rewritten_length. vm_compute in H. lia.
Qed.

(** Where the history answers with a text that is no run of digits, a
    run can change text that follows a reference: the answer ends with the
    start of another reference, which the digits after it complete. *)
Lemma foreign_answer_spills_over :
  set_order id /\
  reference_of <$> finditer PATTERN foreign_yml
  = [mkRef (lit "XRPLF/actions/a@" ++ hash_a) (lit "a") hash_a;
     mkRef (lit "XRPLF/actions/b@" ++ hash_c) (lit "b") hash_c] /\
  exists w' after,
    main id false [] foreign_world = (Ok (), w') /\
    file_at (disk w') [lit "ci.yml"] = Some after /\
    after = lit "XRPLF/actions/a@XRPLF/actions/b@" ++ hash_b ++ [10]
            ++ lit "XRPLF/actions/b@" ++ hash_b ++ [10] /\
    ~ Rewritten foreign_yml after.
Proof.
  split; [apply set_order_id|]. split; [vm_compute; reflexivity|].
  eexists _, _. split; [vm_compute; reflexivity|]. split; [vm_compute; reflexivity|].
  split; [vm_compute; reflexivity|]. intros H%Rewritten_at. vm_compute in H. discriminate.
Qed.

(** C3, as stated, fails where a reference holds another one: the first
    run rewrites the reference to [foo] inside of the reference to
    [.github/workflows/XRPLF/actions/foo], which was up to date, and the
    second run has it to put right. *)
Lemma nested_reference_is_rewritten_again :
  set_order id /\ sha1_history (history nested_world) /\
  exists w1 w2,
    main id false [] nested_world = (Ok (), w1) /\
    main id false [] w1 = (Ok (), w2) /\
    last (console w2) = Some (Summary false 1 1) /\
    file_at (disk w2) [lit "ci.yml"] <> file_at (disk w1) [lit "ci.yml"].
Proof.
  split; [apply set_order_id|]. split; [apply sha1_history_foo|].
  eexists _, _. split; [vm_compute; reflexivity|]. split; [vm_compute; reflexivity|].
  split; [vm_compute; reflexivity|]. by_compute.
Qed.

(** A history that answers with 64 digits has every run rewrite the
    reference again: [PATTERN] takes the first 40 of them for the hash. *)
Lemma long_hash_is_rewritten_again :
  exists w1 w2,
    main id false [] sha256_world = (Ok (), w1) /\
    main id false [] w1 = (Ok (), w2) /\
    last (console w2) = Some (Summary false 1 1) /\
    file_at (disk w2) [lit "ci.yml"] <> file_at (disk w1) [lit "ci.yml"].
Proof.
  eexists _, _. split; [vm_compute; reflexivity|]. split; [vm_compute; reflexivity|].
  split; [vm_compute; reflexivity|]. by_compute.
Qed.

(** ** The theorems at the example worlds *)

Lemma second_run_changes_nothing_witness :
  let w1 := (main id false [] example_world).2 in
  exists found qs',
    Forall (fun e => is_found e = true) found /\
    main id true [] w1 =
    (Ok (), mkWorld (disk w1) (history example_world) (git_calls w1 ++ qs')
                    (console w1 ++ found ++ [Banner true; Summary true 0 0])).
Proof.
  apply (second_run_changes_nothing id id true [] example_world).
  - apply set_order_id.
  - apply set_order_id.
  - apply sha1_history_b.
  - by_compute.
  - vm_compute. reflexivity.
Defined.


Lemma scanner_matches_the_grammar_witness :
  exists refs scan,
    find_action_references id [lit "ci.yml"] example_world = (Ok refs, example_world) /\
    Scan ci_yml scan /\
    (forall scan', Scan ci_yml scan' -> scan' = scan) /\
    NoDup refs /\
    (forall ref, ref ∈ refs <-> ref ∈ scan) /\
    Forall (fun ref =>
              is_reference (full_match ref) (action_path ref) (current_hash ref) /\
              Forall (fun c => isspace c = false) (action_path ref) /\
              Forall (fun c => isspace c = false) (current_hash ref)) refs.
Proof.
  apply (scanner_matches_the_grammar id [lit "ci.yml"] example_world ci_yml).
  - apply set_order_id.
  - vm_compute. reflexivity.
Defined.

Lemma rewritten_file_differs_in_hashes_only_witness :
  lit "uses: XRPLF/actions/get-nproc@" ++ hash_a ++ lit "bbbbbbbbbbbbbbbbbbbbbbbb" ++ [10]
  = ci_yml \/
  Rewritten (universal_newlines ci_yml)
            (lit "uses: XRPLF/actions/get-nproc@" ++ hash_a
             ++ lit "bbbbbbbbbbbbbbbbbbbbbbbb" ++ [10]).
Proof.
  apply (rewritten_file_differs_in_hashes_only id [] sha256_world
           (main id false [] sha256_world).2 [lit "ci.yml"]).
  - apply set_order_id.
  - apply full_hash_history_sha256.
  - vm_compute. reflexivity.
  - vm_compute. reflexivity.
  - vm_compute. reflexivity.
Defined.

Lemma resolver_queries_each_path_once_witness :
  exists hash_mapping qs,
    get_hash_mapping [([lit "ci.yml"], [get_nproc_a]); ([lit "b.yml"], [get_nproc_a])]
                     example_world
    = (Ok hash_mapping, log_calls example_world qs) /\
    qs ≡ₚ remove_dups (paths_of [([lit "ci.yml"], [get_nproc_a]);
                                 ([lit "b.yml"], [get_nproc_a])]) /\
    dom hash_mapping =
    list_to_set (C := gset str)
                (paths_of [([lit "ci.yml"], [get_nproc_a]); ([lit "b.yml"], [get_nproc_a])]) /\
    forall p, p ∈ paths_of [([lit "ci.yml"], [get_nproc_a]); ([lit "b.yml"], [get_nproc_a])] ->
              exists h, hash_mapping !! p = Some h /\
                        returncode (history example_world p) = 0%Z /\
                        h = strip (stdout (history example_world p)).
Proof.
  apply (resolver_queries_each_path_once
           [([lit "ci.yml"], [get_nproc_a]); ([lit "b.yml"], [get_nproc_a])] example_world).
  intros p _. exists hash_b. reflexivity.
Defined.

Lemma up_to_date_skipped_and_modified_iff_changed_witness :
  let hash_mapping : gmap str str := {[ lit "get-nproc" := hash_b ]} in
  let content' := foldl (apply_update hash_mapping) ci_yml [get_nproc_a] in
  (forall ref st w0,
      hash_mapping !! action_path ref = Some (current_hash ref) ->
      update_reference hash_mapping [lit "ci.yml"] st ref w0 = (Ok st, w0)) /\
  exists w',
    update_file false hash_mapping (0%nat, 0%nat) ([lit "ci.yml"], [get_nproc_a]) example_world =
    (Ok (if decide (content' = ci_yml) then 0%nat else 1%nat,
         (0 + length (filter (fun ref => hash_mapping !! action_path ref
                                         <> Some (current_hash ref)) [get_nproc_a]))%nat), w') /\
    (content' = ci_yml \/ false = true -> disk w' = disk example_world) /\
    (content' <> ci_yml -> false = false ->
     file_at (disk w') [lit "ci.yml"] = Some content' /\
     forall q, q <> [lit "ci.yml"] -> file_at (disk w') q = file_at (disk example_world) q).
Proof.
  apply (up_to_date_skipped_and_modified_iff_changed false {[ lit "get-nproc" := hash_b ]}
           0 0 [lit "ci.yml"] [get_nproc_a] example_world ci_yml).
  - vm_compute. reflexivity.
  - constructor; [|constructor]. exists hash_b. vm_compute. reflexivity.
Defined.

Lemma failed_query_aborts_the_run_witness :
  let w1 := log_events fatal_world [Found [lit "ci.yml"] [get_nproc_a]] in
  exists e qs q,
    get_hash_mapping [([lit "ci.yml"], [get_nproc_a])] w1 = (Raised e, log_calls w1 (qs ++ [q])) /\
    main id false [] fatal_world = (Raised e, log_calls w1 (qs ++ [q])) /\
    disk (log_calls w1 (qs ++ [q])) = disk fatal_world /\
    (forall q', q' ∈ qs -> exists h, resolved (history fatal_world) q' = Ok h) /\
    ((returncode (history fatal_world q) <> 0%Z /\
      e = CalledProcessError (returncode (history fatal_world q))) \/
     (strip (stdout (history fatal_world q)) = [] /\
      e = AssertionError "Git command failed to return a commit hash")).
Proof.
  apply (failed_query_aborts_the_run id false []
           [(lit "ci.yml", File ci_yml);
            (lit "README.md", File (lit "XRPLF/actions"));
            (lit "docs", Dir [(lit "old.yaml", File ci_yml); (lit "empty.yml", File [])])]
           fatal_world [([lit "ci.yml"], [get_nproc_a])]
           (log_events fatal_world [Found [lit "ci.yml"] [get_nproc_a]])
           (lit "get-nproc")).
  - reflexivity.
  - vm_compute. reflexivity.
  - by_compute.
  - left. vm_compute. discriminate.
Defined.

Lemma scanner_enumerates_yml_and_omits_empty_witness :
  (exists files,
      rglob [] example_world = (Ok files, example_world) /\
      forall n, resolve (disk example_world) [] = Some n ->
        forall file, file ∈ files <->
          exists rel k x, file = [] ++ rel /\ Descendant n rel k /\
                          last rel = Some x /\ endswith x (lit ".yml") = true) /\
  (forall n rel x, last rel = Some x -> endswith x (lit ".yaml") = true ->
                   rel ∉ rglob_yml n) /\
  (exists all_references w',
      collect_all_references id [] example_world = (Ok all_references, w')) /\
  (forall all_references w',
      collect_all_references id [] example_world = (Ok all_references, w') ->
      forall file,
        file ∈ all_references.*1 <->
        file ∈ yml_files (disk example_world) [] /\
        exists c, text_at (disk example_world) file = Some c /\ finditer PATTERN c <> []) /\
  (forall dry_run, git_calls (main id dry_run [] bare_world).2 = git_calls bare_world).
Proof.
  destruct (scanner_enumerates_yml_and_omits_empty id [] example_world set_order_id)
    as (Hglob & Hyaml & Hreturns & Hkeys & _).
  destruct (scanner_enumerates_yml_and_omits_empty id [] bare_world set_order_id)
    as (_ & _ & _ & _ & Hquiet).
  split; [exact Hglob|]. split; [exact Hyaml|]. split; [apply Hreturns; by_compute|].
  split; [exact Hkeys|]. apply Hquiet. intros file c Hin Hc.
  assert (yml_files (disk bare_world) [] = [[lit "empty.yml"]; [lit "docs"; lit "plain.yml"]])
    as Hfiles by (vm_compute; reflexivity).
  rewrite Hfiles, !elem_of_cons, elem_of_nil in Hin.
  destruct Hin as [->|[->|[]]]; vm_compute in Hc; injection Hc as <-; vm_compute; reflexivity.
Defined.

Lemma full_match_is_prefix_path_at_hash_witness :
  full_match get_nproc_a =
  lit "XRPLF/actions/" ++ action_path get_nproc_a ++ lit "@" ++ current_hash get_nproc_a /\
  length (current_hash get_nproc_a) = 40%nat /\
  exists common,
    common = lit "XRPLF/actions/" ++ action_path get_nproc_a ++ lit "@" /\
    full_match get_nproc_a = common ++ current_hash get_nproc_a /\
    forall latest_hash, new_reference get_nproc_a latest_hash = common ++ latest_hash.
Proof.
  apply (full_match_is_prefix_path_at_hash id [lit "ci.yml"] example_world
           [get_nproc_a] example_world get_nproc_a).
  - apply set_order_id.
  - vm_compute. reflexivity.
  - by_compute.
Defined.

(** ** The further properties at the example worlds *)

Lemma set_order_reverse : set_order reverse.
Proof. intros l _. apply reverse_Permutation. Qed.

Lemma latest_commit_is_the_stripped_output_witness :
  returncode (history example_world (lit "get-nproc")) = 0%Z /\
  (exists l r, stdout (history example_world (lit "get-nproc")) = l ++ hash_b ++ r /\
               Forall (fun c => isspace c = true) l /\
               Forall (fun c => isspace c = true) r) /\
  (exists c t, hash_b = c :: t /\ isspace c = false) /\
  (exists t c, hash_b = t ++ [c] /\ isspace c = false) /\
  log_calls example_world [lit "get-nproc"] = log_calls example_world [lit "get-nproc"].
Proof.
  apply (latest_commit_is_the_stripped_output (lit "get-nproc") example_world hash_b
           (log_calls example_world [lit "get-nproc"])).
  vm_compute. reflexivity.
Defined.

Lemma a_write_comes_after_every_query_witness :
  false = false /\
  Forall (fun f => is_Some (file_at (disk example_world) f))
         (yml_files (disk example_world) []) /\
  (forall p, p ∈ paths_of (scanned id (disk example_world) []) ->
             exists h, resolved (history example_world) p = Ok h) /\
  [lit "ci.yml"] ∈ (scanned id (disk example_world) []).*1.
Proof.
  apply (a_write_comes_after_every_query id false [] example_world (Ok ())
           (main id false [] example_world).2 [lit "ci.yml"]).
  - vm_compute. reflexivity.
  - by_compute.
Defined.

Lemma a_directory_named_yml_aborts_the_scan_witness :
  main id false [] ill_named_world =
  (Raised (IsADirectoryError [lit "notes.yml"]),
   log_events ill_named_world ([[lit "ci.yml"]] ≫= found_event id (disk ill_named_world))).
Proof.
  apply (a_directory_named_yml_aborts_the_scan id false [] ill_named_world
           [[lit "ci.yml"]] [lit "notes.yml"] [] [(lit "a.txt", File [])]).
  - vm_compute. reflexivity.
  - constructor; [|constructor]. exists ci_yml. vm_compute. reflexivity.
  - vm_compute. reflexivity.
Defined.

Lemma summary_counts_what_was_printed_witness :
  exists found updates total_updates files_modified,
    console (main id false [] example_world).2 =
    console example_world ++ found ++ [Banner false] ++ updates
    ++ [Summary false total_updates files_modified] /\
    Forall (fun e => is_found e = true) found /\
    Forall (fun e => is_update e = true) updates /\
    total_updates = length updates /\
    (files_modified <= total_updates)%nat /\
    (files_modified <= length found)%nat.
Proof.
  apply (summary_counts_what_was_printed id false [] example_world).
  vm_compute. reflexivity.
Defined.

Lemma the_scan_only_reads_and_reports_witness :
  let all_references := [([lit "ci.yml"], [get_nproc_a])] in
  NoDup all_references.*1 /\
  (forall file refs, (file, refs) ∈ all_references -> refs <> [] /\ NoDup refs) /\
  log_events example_world [Found [lit "ci.yml"] [get_nproc_a]]
  = log_events example_world
      ((fun item : Path * list ActionReference => Found item.1 item.2) <$> all_references).
Proof.
  apply (the_scan_only_reads_and_reports id [] example_world).
  - apply set_order_id.
  - by_compute.
  - vm_compute. reflexivity.
Defined.

Lemma a_file_with_no_stale_reference_is_untouched_witness :
  let w' := (main id false [] mixed_world).2 in
  file_at (disk w') [lit "ci.yml"] <> file_at (disk mixed_world) [lit "ci.yml"] /\
  file_at (disk mixed_world) [lit "ok.yml"] = Some current_yml /\
  file_at (disk w') [lit "ok.yml"] = file_at (disk mixed_world) [lit "ok.yml"] /\
  file_at (disk w') [lit "README.md"] = file_at (disk mixed_world) [lit "README.md"].
Proof.
  split; [by_compute|]. split; [reflexivity|]. split.
  - apply (a_file_with_no_stale_reference_is_untouched id [] mixed_world).
    + apply set_order_id.
    + vm_compute. reflexivity.
    + right. exists current_yml. split; [reflexivity|]. intros ref Href.
      assert (reference_of <$> finditer PATTERN (universal_newlines current_yml)
              = [mkRef (lit "XRPLF/actions/get-nproc@" ++ hash_b) (lit "get-nproc") hash_b])
        as Hrefs by (vm_compute; reflexivity).
      rewrite Hrefs in Href. apply list_elem_of_singleton in Href as ->. reflexivity.
  - apply (a_file_with_no_stale_reference_is_untouched id [] mixed_world).
    + apply set_order_id.
    + vm_compute. reflexivity.
    + left. by_compute.
Defined.

Lemma a_run_keeps_the_tree_witness :
  let w' := (main id false [] example_world).2 in
  (is_Some (file_at (disk w') [lit "ci.yml"]) <->
   is_Some (file_at (disk example_world) [lit "ci.yml"])) /\
  ((exists es, resolve (disk w') [lit "ci.yml"] = Some (Dir es)) <->
   (exists es, resolve (disk example_world) [lit "ci.yml"] = Some (Dir es))) /\
  yml_files (disk w') [lit "ci.yml"] = yml_files (disk example_world) [lit "ci.yml"].
Proof.
  apply (a_run_keeps_the_tree id [] example_world).
  vm_compute. reflexivity.
Defined.

Lemma after_a_run_every_reference_is_current_witness :
  exists c',
    text_at (disk (main id false [] example_world).2) [lit "ci.yml"] = Some c' /\
    action_path <$> (reference_of <$> finditer PATTERN c')
    = action_path <$> (reference_of <$> finditer PATTERN ci_yml) /\
    Forall (fun ref => resolved (history example_world) (action_path ref)
                       = Ok (current_hash ref))
           (reference_of <$> finditer PATTERN c').
Proof.
  apply (after_a_run_every_reference_is_current id [] example_world).
  - apply set_order_id.
  - apply sha1_history_b.
  - by_compute.
  - vm_compute. reflexivity.
  - by_compute.
  - vm_compute. reflexivity.
Defined.

Lemma the_set_order_does_not_matter_witness :
  let w1 := (main id false [] two_refs_world).2 in
  git_calls (main reverse false [] two_refs_world).2 <> git_calls w1 /\
  exists w2,
    main reverse false [] two_refs_world = (Ok (), w2) /\
    (forall q, file_at (disk w2) q = file_at (disk w1) q) /\
    git_calls w2 ≡ₚ git_calls w1 /\
    last (console w2) = last (console w1).
Proof.
  split; [by_compute|].
  apply (the_set_order_does_not_matter id reverse false [] two_refs_world).
  - apply set_order_id.
  - apply set_order_reverse.
  - apply sha1_history_b.
  - by_compute.
  - vm_compute. reflexivity.
Defined.
